(** * xroms: staggered-grid regridding, derivatives and isosurface projection

    A shallow embedding of [xroms/utilities.py]: the isosurface projector
    [xisoslice], the grid transforms [to_rho] ... [to_grid], the derivative
    wrappers [ddz], [ddxi], [ddeta] and the grid identification [id_grid].

    Numbers.  The arrays hold IEEE binary64 values.  The algorithm is
    written once over an interface of arithmetic operations ([FloatOps]) and
    read at two instances: [float], Rocq's primitive binary64 numbers, which
    is the arithmetic of the code, and [xreal], exact rationals extended
    with the special values (two infinities and not-a-number).  The general
    theorems about the projector are proved from a short list of laws
    ([FloatLaws]) that binary64 satisfies, rounding, overflow, underflow and
    the two zeros included; the laws are proved of binary64 from the
    specification of the primitive operations.  The order in which
    [.sum(coord)] adds its terms is left open, and the theorems hold for
    every order.

    Objects.  A Python [DataArray] is a mutable object.  The regridding code
    is embedded over a store of objects with explicit references, so that
    assignments to [var.attrs] and [var.name] are visible to whoever else
    holds the object, and exceptions are values of the error monad. *)

From stdpp Require Import gmap strings list numbers.
From Stdlib Require Import QArith Qcanon Floats Ascii.

(** ** Arithmetic interface *)

Class FloatOps (A : Type) := {
  f_zero : A;
  f_one : A;
  f_two : A;
  f_add : A → A → A;
  f_sub : A → A → A;
  f_mul : A → A → A;
  f_div : A → A → A;
  f_leb : A → A → bool;
  f_eqb : A → A → bool;
  f_isnan : A → bool
}.

(** *** Exact extended rationals *)

Inductive xreal : Type :=
  | Fin (q : Qc)
  | PInf
  | NInf
  | NaN.

Definition Inf (neg : bool) : xreal := if neg then NInf else PInf.

Definition Qc_sign (q : Qc) : comparison := (q ?= 0)%Qc.

Definition x_add (a b : xreal) : xreal :=
  match a, b with
  | NaN, _ | _, NaN => NaN
  | Fin p, Fin q => Fin (p + q)
  | PInf, NInf | NInf, PInf => NaN
  | PInf, _ | _, PInf => PInf
  | NInf, _ | _, NInf => NInf
  end.

Definition x_opp (a : xreal) : xreal :=
  match a with
  | Fin p => Fin (- p)
  | PInf => NInf
  | NInf => PInf
  | NaN => NaN
  end.

Definition x_sub (a b : xreal) : xreal :=
  match a, b with
  | Fin p, Fin q => Fin (p - q)
  | _, _ => x_add a (x_opp b)
  end.

Definition x_scale_inf (neg : bool) (q : Qc) : xreal :=
  match Qc_sign q with
  | Eq => NaN
  | Gt => Inf neg
  | Lt => Inf (negb neg)
  end.

Definition x_mul (a b : xreal) : xreal :=
  match a, b with
  | NaN, _ | _, NaN => NaN
  | Fin p, Fin q => Fin (p * q)
  | Fin p, PInf | PInf, Fin p => x_scale_inf false p
  | Fin p, NInf | NInf, Fin p => x_scale_inf true p
  | PInf, PInf | NInf, NInf => PInf
  | PInf, NInf | NInf, PInf => NInf
  end.

(** Division by zero does not raise on arrays: a non-zero numerator gives
    an infinity, [0/0] gives not-a-number. *)
Definition x_div (a b : xreal) : xreal :=
  match a, b with
  | NaN, _ | _, NaN => NaN
  | Fin p, Fin q =>
      match Qc_sign q with
      | Eq => match Qc_sign p with Eq => NaN | Gt => PInf | Lt => NInf end
      | _ => Fin (p / q)
      end
  | Fin _, (PInf | NInf) => Fin 0
  | PInf, Fin q => match Qc_sign q with Lt => NInf | _ => PInf end
  | NInf, Fin q => match Qc_sign q with Lt => PInf | _ => NInf end
  | (PInf | NInf), (PInf | NInf) => NaN
  end.

Definition x_leb (a b : xreal) : bool :=
  match a, b with
  | NaN, _ | _, NaN => false
  | Fin p, Fin q => match (p ?= q)%Qc with Gt => false | _ => true end
  | NInf, _ | _, PInf => true
  | _, _ => false
  end.

Definition x_eqb (a b : xreal) : bool :=
  match a, b with
  | Fin p, Fin q => match (p ?= q)%Qc with Eq => true | _ => false end
  | PInf, PInf | NInf, NInf => true
  | _, _ => false
  end.

Definition x_isnan (a : xreal) : bool :=
  match a with NaN => true | _ => false end.

#[export] Instance xreal_ops : FloatOps xreal := {|
  f_zero := Fin 0;
  f_one := Fin 1;
  f_two := Fin (Q2Qc 2);
  f_add := x_add;
  f_sub := x_sub;
  f_mul := x_mul;
  f_div := x_div;
  f_leb := x_leb;
  f_eqb := x_eqb;
  f_isnan := x_isnan
|}.

#[export] Instance xreal_eq_dec : EqDecision xreal.
Proof. solve_decision. Defined.

(** A rational literal [n/d] and an integer literal. *)
Definition rat (n : Z) (d : positive) : xreal := Fin (Q2Qc (n # d)).
Definition int (n : Z) : xreal := rat n 1.

Local Close Scope Qc_scope.
Local Close Scope Q_scope.

(** *** Primitive binary64 *)

#[export] Instance binary64_ops : FloatOps float := {|
  f_zero := 0%float;
  f_one := 1%float;
  f_two := 2%float;
  f_add := PrimFloat.add;
  f_sub := PrimFloat.sub;
  f_mul := PrimFloat.mul;
  f_div := PrimFloat.div;
  f_leb := PrimFloat.leb;
  f_eqb := PrimFloat.eqb;
  f_isnan := PrimFloat.is_nan
|}.

(** *** Laws of the arithmetic *)

(** What the proofs about the projector use of the arithmetic.  Each law
    holds of IEEE binary64 and of the exact extended rationals; both are
    proved below.  A zero is a value that compares equal to [0.0]: in
    binary64 these are [0.0] and [-0.0]. *)
Definition is_zero {A : Type} `{FloatOps A} (x : A) : bool := f_eqb x f_zero.

Class FloatLaws (A : Type) `{FloatOps A} : Prop := {
  zero_is_zero : is_zero f_zero = true;
  one_not_zero : is_zero f_one = false;
  one_not_two : f_eqb f_one f_two = false;
  one_number : f_isnan f_one = false;
  one_plus_one : f_add f_one f_one = f_two;
  two_is_two : f_eqb f_two f_two = true;
  two_not_zero : is_zero f_two = false;
  zero_number : ∀ x, is_zero x = true → f_isnan x = false;
  mul_one : ∀ x, f_mul x f_one = x;
  mul_zero : ∀ x,
    f_isnan (f_mul x f_zero) = true ∨ is_zero (f_mul x f_zero) = true;
  zero_mul : ∀ a d, is_zero a = true →
    f_isnan (f_mul a d) = true ∨ is_zero (f_mul a d) = true;
  add_zero_l : ∀ a b, is_zero a = true → is_zero b = false → f_add a b = b;
  add_zero_r : ∀ a b, is_zero a = false → is_zero b = true → f_add a b = a;
  add_zero_zero : ∀ a b,
    is_zero a = true → is_zero b = true → is_zero (f_add a b) = true;
  sub_zero_zero : ∀ a b,
    is_zero a = true → is_zero b = true → is_zero (f_sub a b) = true;
  div_by_zero : ∀ a b,
    f_isnan a = true ∨ is_zero a = true → is_zero b = true →
    f_isnan (f_div a b) = true;
  div_nan : ∀ a b, f_isnan a = true → f_isnan (f_div a b) = true;
  sub_nan : ∀ v q, f_isnan q = true → f_isnan (f_sub v q) = true;
  leb_mul_number : ∀ a b,
    f_leb (f_mul a b) f_zero = true → f_isnan a = false ∧ f_isnan b = false
}.

(** ** The isosurface projector *)

Module Isoslice.
Section Generic.
Context {A : Type} `{FloatOps A}.

(** An array is given column by column: one list along [coord] for each
    combination of the remaining indices, both arrays already broadcast
    against each other and so of one shape. *)
Abbreviation array := (list (list A)).

(** [isel(coord=slice(None, -1))] and [isel(coord=slice(1, None))]. *)
Definition lslice (col : list A) : list A := take (length col - 1) col.
Definition uslice (col : list A) : list A := drop 1 col.
Definition isel_lslice (a : array) : array := lslice <$> a.
Definition isel_uslice (a : array) : array := uslice <$> a.

Definition elementwise (f : A → A → A) (a b : array) : array :=
  zip_with (zip_with f) a b.

(** [xarray]'s [sum] skips missing values of floating-point data: a
    not-a-number term enters as zero. *)
Definition skipna (x : A) : A := if f_isnan x then f_zero else x.

(** [.sum(coord)] is a call into [xarray] and [numpy].  In which order the
    terms of a column are added is not fixed by [utilities.py]: it depends
    on the memory layout, the length and the chunking of the array and on
    the libraries (in sequence, pairwise, by chunks).  The reduction is
    therefore a parameter, [sum], of the projector.  Its contract,
    [reduction], is that the result is the value of some way of adding the
    terms, missing values skipped: the terms in any order and any grouping,
    and zeros of either sign as starting values. *)
Inductive sums_to : list A → A → Prop :=
  | sums_start (z : A) : is_zero z = true → sums_to [] z
  | sums_term (x : A) : sums_to [x] x
  | sums_add (l1 l2 : list A) (a b : A) :
      sums_to l1 a → sums_to l2 b → sums_to (l1 ++ l2) (f_add a b)
  | sums_order (l l' : list A) (a : A) :
      l ≡ₚ l' → sums_to l a → sums_to l' a.

Definition reduction (sum : list A → A) : Prop :=
  ∀ col, sums_to (skipna <$> col) (sum col).

(** One such reduction: the terms added in sequence, from zero. *)
Definition sum_skipna (col : list A) : A :=
  fold_left (λ acc x, f_add acc (skipna x)) col f_zero.

Definition sum_coord (sum : list A → A) (a : array) : list A := sum <$> a.

(** [xr.where((propu*propl) <= 0.0, 1.0, 0.0)] *)
Definition crossing (pu pl : A) : A :=
  if f_leb (f_mul pu pl) f_zero then f_one else f_zero.

(** [varl - propl*(varu-varl)/(propu-propl)] *)
Definition linear_fit (propl propu varl varu : A) : A :=
  f_sub varl (f_div (f_mul propl (f_sub varu varl)) (f_sub propu propl)).

Definition halve (o : A) : A := f_div o f_two.

(** The test of a slot whose reference samples are [rl] below and [ru]
    above: the product of the two differences from [iso_value] is [<= 0]. *)
Definition brackets (iso_value rl ru : A) : bool :=
  f_leb (f_mul (f_sub ru iso_value) (f_sub rl iso_value)) f_zero.

(** [xisoslice(iso_array, iso_value, projected_array, coord)], with the
    reduction [sum] for [.sum(coord)].  The coordinate [coord] is the one
    the columns run along; renumbering the two slices with [np.arange(Nm)]
    is what makes slot [i] of the lower slice meet slot [i] of the upper
    slice, which [zip_with] does here.  [printwarning] only prints.  The
    result has one entry per column. *)
Definition xisoslice_with (sum : list A → A) (iso_array : array) (iso_value : A)
    (projected_array : array) : list A :=
  let prop := (λ col : list A, (λ x, f_sub x iso_value) <$> col) <$> iso_array in
  let propl := isel_lslice prop in
  let propu := isel_uslice prop in
  let zc := elementwise crossing propu propl in
  let varl := isel_lslice projected_array in
  let varu := isel_uslice projected_array in
  let propl := sum_coord sum (elementwise f_mul propl zc) in
  let propu := sum_coord sum (elementwise f_mul propu zc) in
  let varl := sum_coord sum (elementwise f_mul varl zc) in
  let varu := sum_coord sum (elementwise f_mul varu zc) in
  let out :=
    zip_with (λ '(pl, pu) '(vl, vu), linear_fit pl pu vl vu)
      (zip propl propu) (zip varl varu) in
  let check := (λ s : A, f_eqb s f_two) <$> sum_coord sum zc in
  if existsb id check
  then zip_with (λ (c : bool) o, if c then halve o else o) check out
  else out.

(** The projector with the terms added in sequence. *)
Definition xisoslice : array → A → array → list A := xisoslice_with sum_skipna.

(** What [xisoslice] computes on one column, for reference in the
    statements: the differences from the target and the indicator of the
    selected slots. *)
Definition column_prop (ref : list A) (iso_value : A) : list A :=
  (λ x, f_sub x iso_value) <$> ref.
Definition column_zc (ref : list A) (iso_value : A) : list A :=
  let prop := column_prop ref iso_value in
  zip_with crossing (uslice prop) (lslice prop).

(** The four reduced sums of a column and the sum of its indicator. *)
Definition reduce_lower (sum : list A → A) (xs zc : list A) : A :=
  sum (zip_with f_mul (lslice xs) zc).
Definition reduce_upper (sum : list A → A) (xs zc : list A) : A :=
  sum (zip_with f_mul (uslice xs) zc).

Definition column_result (sum : list A → A) (ref : list A) (iso_value : A)
    (var : list A) : A :=
  let prop := column_prop ref iso_value in
  let zc := column_zc ref iso_value in
  let out := linear_fit (reduce_lower sum prop zc) (reduce_upper sum prop zc)
               (reduce_lower sum var zc) (reduce_upper sum var zc) in
  if f_eqb (sum zc) f_two then halve out else out.

(** Columns by the slots their indicator selects: none, exactly the slot
    [i], or only slots whose two reference samples are both at the
    target. *)
Definition no_crossing (ref : list A) (iso_value : A) : Prop :=
  ∀ j rl ru, ref !! j = Some rl → ref !! S j = Some ru →
             brackets iso_value rl ru = false.

Definition single_crossing (ref : list A) (iso_value : A) (i : nat) : Prop :=
  (∃ rl ru, ref !! i = Some rl ∧ ref !! S i = Some ru ∧
            brackets iso_value rl ru = true) ∧
  (∀ j rl ru, ref !! j = Some rl → ref !! S j = Some ru →
              brackets iso_value rl ru = true → j = i).

Definition crossings_at_target (ref : list A) (iso_value : A) : Prop :=
  ∀ j rl ru, ref !! j = Some rl → ref !! S j = Some ru →
             brackets iso_value rl ru = true →
             is_zero (f_sub rl iso_value) = true ∧
             is_zero (f_sub ru iso_value) = true.

(** Exactly the two slots [j] and [j+1] are selected: what happens where
    the reference field passes through the target at the sample between
    them. *)
Definition double_crossing (ref : list A) (iso_value : A) (j : nat) : Prop :=
  (∃ rl rm ru, ref !! j = Some rl ∧ ref !! S j = Some rm ∧
               ref !! S (S j) = Some ru ∧
               brackets iso_value rl rm = true ∧
               brackets iso_value rm ru = true) ∧
  (∀ i rl ru, ref !! i = Some rl → ref !! S i = Some ru →
              brackets iso_value rl ru = true → i = j ∨ i = S j).

(** Two values that are the same number: equal, or both a zero.  The sum
    of two terms, added in either order. *)
Definition same_number (x y : A) : Prop :=
  x = y ∨ (is_zero x = true ∧ is_zero y = true).
Definition sum_of_two (x y r : A) : Prop :=
  same_number r (f_add x y) ∨ same_number r (f_add y x).
End Generic.
End Isoslice.

Import Isoslice.

(** The zeros and the not-a-number of binary64, on the specification side of
    the primitive floats. *)
Definition SF_zero (s : spec_float) : bool :=
  match s with S754_zero _ => true | _ => false end.
Definition SF_nan (s : spec_float) : bool :=
  match s with S754_nan => true | _ => false end.

(** ** Python objects, exceptions and the store *)

Local Open Scope string_scope.
Local Open Scope list_scope.

Inductive exn : Type :=
  | AssertionError (msg : string)
  | TypeError (msg : string)
  | AttributeError (msg : string)
  | KeyError (msg : string)
  | NameError (msg : string).

Inductive result (A : Type) : Type :=
  | Ok (a : A)
  | Raise (e : exn).
Arguments Ok {A} a.
Arguments Raise {A} e.

(** A [DataArray]: its [name] ([None] for an unnamed array), the names of
    its dimensions, its attribute dictionary and its values. *)
Record DataArray : Type := mkDataArray {
  name : option string;
  dims : list string;
  attrs : gmap string string;
  values : list xreal
}.

Definition with_name (n : option string) (da : DataArray) : DataArray :=
  {| name := n; dims := dims da; attrs := attrs da; values := values da |}.
Definition with_attrs (a : gmap string string) (da : DataArray) : DataArray :=
  {| name := name da; dims := dims da; attrs := a; values := values da |}.

(** The [xgcm] grid object: the logical axes, the positions along them and
    the two methods the code calls.  Both return a new array, or raise. *)
Inductive Axis : Type := X | Y | Z.
Inductive Position : Type := center | inner | outer.

Record Grid : Type := mkGrid {
  interp : DataArray → Axis → Position → option string → result DataArray;
  derivative : DataArray → Axis → option string → xreal → result DataArray
}.

(** Calls made on the grid object, in order. *)
Inductive call : Type :=
  | CInterp (ax : Axis) (to : Position) (boundary : option string)
  | CDerivative (ax : Axis) (boundary : option string) (fill_value : xreal).

Abbreviation loc := nat.

Record store : Type := mkStore {
  heap : gmap nat DataArray;
  log : list call
}.

(** Computations read and write the store and may raise; what was written
    before an exception stays written. *)
Definition M (A : Type) : Type := store → result A * store.

Definition ret {A : Type} (a : A) : M A := λ σ, (Ok a, σ).
Definition raise {A : Type} (e : exn) : M A := λ σ, (Raise e, σ).
Definition bind {A B : Type} (m : M A) (k : A → M B) : M B :=
  λ σ, match m σ with
       | (Ok a, σ') => k a σ'
       | (Raise e, σ') => (Raise e, σ')
       end.

Notation "'let*' x ':=' m 'in' k" := (bind m (λ x, k))
  (at level 10, x name, m at level 100, k at level 200, only parsing).
Notation "m1 ';;;' m2" := (bind m1 (λ _, m2))
  (at level 100, m2 at level 200, right associativity, only parsing).

Definition lift {A : Type} (r : result A) : M A := λ σ, (r, σ).

Definition load (l : loc) : M DataArray :=
  λ σ, match heap σ !! l with
       | Some da => (Ok da, σ)
       | None => (Raise (NameError "unbound reference"), σ)
       end.

Definition modify (l : loc) (f : DataArray → DataArray) : M unit :=
  λ σ, match heap σ !! l with
       | Some da => (Ok tt, mkStore (<[l := f da]> (heap σ)) (log σ))
       | None => (Raise (NameError "unbound reference"), σ)
       end.

Definition alloc (da : DataArray) : M loc :=
  λ σ, let l := fresh (dom (heap σ)) in
       (Ok l, mkStore (<[l := da]> (heap σ)) (log σ)).

Definition record (c : call) : M unit :=
  λ σ, (Ok tt, mkStore (heap σ) (log σ ++ [c])).

(** [var.name = name], [var.attrs = attrs], [var.attrs[key] = value] *)
Definition set_name (var : loc) (n : option string) : M unit :=
  modify var (with_name n).
Definition set_attrs (var : loc) (a : gmap string string) : M unit :=
  modify var (with_attrs a).
Definition set_attr_item (var : loc) (key value : string) : M unit :=
  modify var (λ da, with_attrs (<[key := value]> (attrs da)) da).

(** [var.long_name], [var.units]: attribute access falls back on [attrs]. *)
Definition getattr (var : loc) (key : string) : M string :=
  let* da := load var in
  match attrs da !! key with
  | Some v => ret v
  | None => raise (AttributeError key)
  end.

Definition dquote : string := String "034"%char EmptyString.
Definition quoted (s : string) : string := dquote +:+ s +:+ dquote.

(** ['d' + var.name]: concatenation with [None] is a [TypeError], with the
    interpreter's message. *)
Definition concat_none_message : string :=
  "can only concatenate str (not " +:+ quoted "NoneType" +:+ ") to str".

Definition str_operand (n : option string) : M string :=
  match n with
  | Some s => ret s
  | None => raise (TypeError concat_none_message)
  end.

Definition assert (b : bool) (msg : string) : M unit :=
  if b then ret tt else raise (AssertionError msg).

(** [grid.interp(var, axis, to=..., boundary=...)] and
    [grid.derivative(var, axis, boundary=..., fill_value=...)]: the call is
    logged, and its result is a new object. *)
Definition grid_interp (grid : Grid) (var : loc) (ax : Axis) (to : Position)
    (boundary : option string) : M loc :=
  let* da := load var in
  record (CInterp ax to boundary) ;;;
  let* da' := lift (interp grid da ax to boundary) in
  alloc da'.

Definition grid_derivative (grid : Grid) (var : loc) (ax : Axis)
    (boundary : option string) (fill_value : xreal) : M loc :=
  let* da := load var in
  record (CDerivative ax boundary fill_value) ;;;
  let* da' := lift (derivative grid da ax boundary fill_value) in
  alloc da'.

(** ** Regridding *)

Definition extend : option string := Some "extend".

(** [if d not in var.dims: var = grid.interp(var, axis, to=..., boundary=...)];
    the value is what [var] is bound to afterwards. *)
Definition interp_unless (d : string) (var : loc) (grid : Grid) (ax : Axis)
    (to : Position) (boundary : option string) : M loc :=
  let* da := load var in
  if negb (bool_decide (d ∈ dims da))
  then grid_interp grid var ax to boundary
  else ret var.

Definition to_rho (var : loc) (grid : Grid) (boundary : option string) : M loc :=
  let* var := interp_unless "xi_rho" var grid X center boundary in
  let* var := interp_unless "eta_rho" var grid Y center boundary in
  ret var.

Definition to_psi (var : loc) (grid : Grid) (boundary : option string) : M loc :=
  let* var := interp_unless "xi_u" var grid X inner boundary in
  let* var := interp_unless "eta_v" var grid Y inner boundary in
  ret var.

Definition to_u (var : loc) (grid : Grid) (boundary : option string) : M loc :=
  let* var := interp_unless "xi_u" var grid X inner boundary in
  let* var := interp_unless "eta_rho" var grid Y center boundary in
  ret var.

Definition to_v (var : loc) (grid : Grid) (boundary : option string) : M loc :=
  let* var := interp_unless "xi_rho" var grid X center boundary in
  let* var := interp_unless "eta_v" var grid Y inner boundary in
  ret var.

(** Convert from s_w to s_rho vertical grid. *)
Definition to_s_rho (var : loc) (grid : Grid) (boundary : option string) : M loc :=
  let* var := interp_unless "s_rho" var grid Z center boundary in
  ret var.

(** Convert from s_rho to s_w vertical grid. *)
Definition to_s_w (var : loc) (grid : Grid) (boundary : option string) : M loc :=
  let* var := interp_unless "s_w" var grid Z outer boundary in
  ret var.

Definition hcoords : list string := ["rho"; "psi"; "u"; "v"].
Definition scoords : list string := ["s_rho"; "rho"; "s_w"; "w"].

Definition hcoord_message (hcoord : string) : string :=
  "hcoord should be " +:+ quoted "rho" +:+ " or " +:+ quoted "psi" +:+ " or "
  +:+ quoted "u" +:+ " or " +:+ quoted "v" +:+ " but is " +:+ quoted hcoord.

Definition scoord_message (scoord : string) : string :=
  "scoord should be " +:+ quoted "s_rho" +:+ ", " +:+ quoted "rho" +:+ ", "
  +:+ quoted "s_w" +:+ ", or " +:+ quoted "w" +:+ " but is " +:+ quoted scoord.

Definition to_grid_h (var : loc) (grid : Grid) (hcoord : option string) : M loc :=
  match hcoord with
  | None => ret var
  | Some hcoord =>
      assert (bool_decide (hcoord ∈ hcoords)) (hcoord_message hcoord) ;;;
      if bool_decide (hcoord = "rho") then to_rho var grid extend
      else if bool_decide (hcoord = "psi") then to_psi var grid extend
      else if bool_decide (hcoord = "u") then to_u var grid extend
      else if bool_decide (hcoord = "v") then to_v var grid extend
      else ret var
  end.

Definition to_grid_s (var : loc) (grid : Grid) (scoord : option string) : M loc :=
  match scoord with
  | None => ret var
  | Some scoord =>
      assert (bool_decide (scoord ∈ scoords)) (scoord_message scoord) ;;;
      if bool_decide (scoord ∈ ["s_rho"; "rho"]) then to_s_rho var grid extend
      else if bool_decide (scoord ∈ ["s_w"; "w"]) then to_s_w var grid extend
      else ret var
  end.

Definition to_grid (var : loc) (grid : Grid) (hcoord scoord : option string) : M loc :=
  let* da := load var in
  let name := name da in
  let* var := to_grid_h var grid hcoord in
  let* var := to_grid_s var grid scoord in
  set_name var name ;;;
  ret var.

(** ** Derivatives *)

(** The attributes that [ddz], [ddxi] and [ddeta] give their result when the
    caller passes none.  The three missing-attribute defaults are written
    into [var.attrs], the attribute dictionary of the argument itself. *)
Definition fill_default (var : loc) (key value : string) : M unit :=
  let* da := load var in
  if negb (bool_decide (key ∈ dom (attrs da)))
  then set_attr_item var key value
  else ret tt.

Definition default_attrs (var : loc) (suffix long_prefix : string)
    : M (gmap string string) :=
  fill_default var "name" "var" ;;;
  fill_default var "long_name" "var" ;;;
  fill_default var "units" "units" ;;;
  let* da := load var in
  let* n := str_operand (name da) in
  let* long_name := getattr var "long_name" in
  let* units := getattr var "units" in
  ret ({[ "name" := "d" +:+ n +:+ suffix;
          "long_name" := long_prefix +:+ long_name;
          "units" := "1/m * " +:+ units ]} : gmap string string).

Definition ddz (var : loc) (grid : Grid) (attrs : option (gmap string string))
    (hcoord scoord : option string) (sboundary : option string)
    (sfill_value : xreal) : M loc :=
  let* attrs :=
    match attrs with
    | None => default_attrs var "dz" "vertical derivative of "
    | Some attrs => ret attrs
    end in
  let* var := grid_derivative grid var Z sboundary sfill_value in
  let* var := to_grid var grid hcoord scoord in
  set_attrs var attrs ;;;
  ret var.

(** [xroms.hgrad] is not part of [utilities.py]: it is taken as a
    parameter, any computation on the store. *)
Definition HGrad : Type :=
  loc → Grid → string → option loc → option string → xreal →
  option string → xreal → M loc.

Definition ddxi (hgrad : HGrad) (var : loc) (grid : Grid)
    (attrs : option (gmap string string)) (hcoord scoord : option string)
    (hboundary : option string) (hfill_value : xreal)
    (sboundary : option string) (sfill_value : xreal) (z : option loc) : M loc :=
  let* attrs :=
    match attrs with
    | None => default_attrs var "dxi" "horizontal xi derivative of "
    | Some attrs => ret attrs
    end in
  let* var := hgrad var grid "xi" z hboundary hfill_value sboundary sfill_value in
  let* var := to_grid var grid hcoord scoord in
  set_attrs var attrs ;;;
  ret var.

Definition ddeta (hgrad : HGrad) (var : loc) (grid : Grid)
    (attrs : option (gmap string string)) (hcoord scoord : option string)
    (hboundary : option string) (hfill_value : xreal)
    (sboundary : option string) (sfill_value : xreal) (z : option loc) : M loc :=
  let* attrs :=
    match attrs with
    | None => default_attrs var "deta" "horizontal eta derivative of "
    | Some attrs => ret attrs
    end in
  let* var := hgrad var grid "eta" z hboundary hfill_value sboundary sfill_value in
  let* var := to_grid var grid hcoord scoord in
  set_attrs var attrs ;;;
  ret var.

(** What the three defaults make of an attribute dictionary, and the
    attributes computed from it for a field named [n]. *)
Definition setdefault (key value : string) (a : gmap string string)
    : gmap string string :=
  if bool_decide (key ∈ dom a) then a else <[key := value]> a.

Definition documented (a : gmap string string) : gmap string string :=
  setdefault "units" "units" (setdefault "long_name" "var" (setdefault "name" "var" a)).

Definition derivative_attrs (n suffix long_prefix : string)
    (a : gmap string string) : gmap string string :=
  {[ "name" := "d" +:+ n +:+ suffix;
     "long_name" := long_prefix +:+ default "var" (a !! "long_name");
     "units" := "1/m * " +:+ default "units" (a !! "units") ]}.

(** A collaborator that returns a new object and changes no existing one. *)
Definition returns_new (hgrad : HGrad) : Prop :=
  ∀ var grid which z hboundary hfill_value sboundary sfill_value σ r σ',
    hgrad var grid which z hboundary hfill_value sboundary sfill_value σ = (r, σ') →
    (∀ l da, heap σ !! l = Some da → heap σ' !! l = Some da) ∧
    (∀ l', r = Ok l' → heap σ !! l' = None).

(** ** Grid identification *)

(** [da.dims.count(d)] *)
Definition count (ds : list string) (d : string) : nat :=
  count_occ String.string_dec ds d.

(** Falling off the end of the chain returns [None]. *)
Definition id_grid (da : DataArray) : option string :=
  let c := count (dims da) in
  if (c "eta_rho" + c "xi_rho" =? 2)%nat then Some "rho"
  else if ((c "eta_rho" + c "xi_u" =? 2) || (c "eta_u" + c "xi_u" =? 2))%nat
  then Some "u"
  else if ((c "eta_v" + c "xi_rho" =? 2) || (c "eta_v" + c "xi_v" =? 2))%nat
  then Some "v"
  else if ((c "eta_v" + c "xi_u" =? 2) || (c "eta_psi" + c "xi_psi" =? 2))%nat
  then Some "psi"
  else if (c "eta_vert" + c "xi_vert" =? 2)%nat then Some "vert"
  else None.

(** The pairs of dimension names that [id_grid] looks for, by position. *)
Definition grid_pairs (g : string) : list (string * string) :=
  if bool_decide (g = "rho") then [("eta_rho", "xi_rho")]
  else if bool_decide (g = "u") then [("eta_rho", "xi_u"); ("eta_u", "xi_u")]
  else if bool_decide (g = "v") then [("eta_v", "xi_rho"); ("eta_v", "xi_v")]
  else if bool_decide (g = "psi") then [("eta_v", "xi_u"); ("eta_psi", "xi_psi")]
  else if bool_decide (g = "vert") then [("eta_vert", "xi_vert")]
  else [].

Definition grids : list string := ["rho"; "u"; "v"; "psi"; "vert"].

Definition carries (ds : list string) (g : string) : Prop :=
  ∃ p, p ∈ grid_pairs g ∧ p.1 ∈ ds ∧ p.2 ∈ ds.

Definition carriesb (ds : list string) (g : string) : bool :=
  existsb (λ p, bool_decide (p.1 ∈ ds) && bool_decide (p.2 ∈ ds)) (grid_pairs g).

(** One dimension name for the xi axis and one for the eta axis. *)
Definition xi_names : list string :=
  ["xi_rho"; "xi_u"; "xi_v"; "xi_psi"; "xi_vert"].
Definition eta_names : list string :=
  ["eta_rho"; "eta_u"; "eta_v"; "eta_psi"; "eta_vert"].

Definition single_horizontal (ds : list string) : Prop :=
  (∀ a b, a ∈ xi_names → b ∈ xi_names → a ∈ ds → b ∈ ds → a = b) ∧
  (∀ a b, a ∈ eta_names → b ∈ eta_names → a ∈ ds → b ∈ ds → a = b).

(** ** The grid's side of the contract *)

(** The dimension name at each position of each axis, as the tests of
    [to_rho] ... [to_s_w] pair them with the positions they ask for. *)
Definition coord_name (ax : Axis) (to : Position) : option string :=
  match ax, to with
  | X, center => Some "xi_rho"
  | X, inner => Some "xi_u"
  | Y, center => Some "eta_rho"
  | Y, inner => Some "eta_v"
  | Z, center => Some "s_rho"
  | Z, outer => Some "s_w"
  | _, _ => None
  end.

Definition axis_dims (ax : Axis) : list string :=
  match ax with
  | X => ["xi_rho"; "xi_u"]
  | Y => ["eta_rho"; "eta_v"]
  | Z => ["s_rho"; "s_w"]
  end.

(** An interpolation that succeeds puts the array at the requested position
    of that axis and keeps the dimensions of the other axes. *)
Definition regrids (grid : Grid) : Prop :=
  ∀ da ax to boundary da',
    interp grid da ax to boundary = Ok da' →
    (∃ d, coord_name ax to = Some d ∧ d ∈ dims da') ∧
    (∀ d, d ∈ dims da → d ∉ axis_dims ax → d ∈ dims da').

(** The dimension names that [to_grid] tests for, by argument. *)
Definition h_targets (hcoord : option string) : list string :=
  match hcoord with
  | None => []
  | Some h =>
      if bool_decide (h = "rho") then ["xi_rho"; "eta_rho"]
      else if bool_decide (h = "psi") then ["xi_u"; "eta_v"]
      else if bool_decide (h = "u") then ["xi_u"; "eta_rho"]
      else if bool_decide (h = "v") then ["xi_rho"; "eta_v"]
      else []
  end.

Definition s_targets (scoord : option string) : list string :=
  match scoord with
  | None => []
  | Some s =>
      if bool_decide (s ∈ ["s_rho"; "rho"]) then ["s_rho"]
      else if bool_decide (s ∈ ["s_w"; "w"]) then ["s_w"]
      else []
  end.

(** ** Outcomes of computations on the store *)

Definition run_result {A : Type} (m : M A) (σ : store) : result A := (m σ).1.
Definition run_store {A : Type} (m : M A) (σ : store) : store := (m σ).2.

(** Objects that exist keep their state. *)
Definition evolves (σ σ' : store) : Prop :=
  ∀ l da, heap σ !! l = Some da → heap σ' !! l = Some da.

Definition on_axes (axs : list Axis) (c : call) : Prop :=
  match c with
  | CInterp ax _ _ => ax ∈ axs
  | CDerivative _ _ _ => False
  end.

(** What a chain of regridding steps along the axes [axs], started on the
    object [l], can do: it leaves existing objects alone, it logs calls of
    [interp] along [axs] only, and it ends either on [l] itself with the
    store as it was, or on a new object, or with an exception of [interp]. *)
Definition regrid_run (grid : Grid) (axs : list Axis) (l : loc) (σ : store)
    (r : result loc) (σ' : store) : Prop :=
  evolves σ σ' ∧
  (∃ cs, log σ' = log σ ++ cs ∧ Forall (on_axes axs) cs) ∧
  match r with
  | Ok l' => (l' = l ∧ σ' = σ) ∨ (heap σ !! l' = None ∧ is_Some (heap σ' !! l'))
  | Raise e => ∃ da ax to b, interp grid da ax to b = Raise e
  end.

Definition valid_hcoord (hcoord : option string) : Prop :=
  match hcoord with Some h => h ∈ hcoords | None => True end.
Definition valid_scoord (scoord : option string) : Prop :=
  match scoord with Some s => s ∈ scoords | None => True end.

#[export] Instance valid_hcoord_dec hcoord : Decision (valid_hcoord hcoord).
Proof. destruct hcoord; apply _. Defined.
#[export] Instance valid_scoord_dec scoord : Decision (valid_scoord scoord).
Proof. destruct scoord; apply _. Defined.

(** ** A sample grid and sample fields *)

(** A grid to run the code on: [interp] renames the dimension of the axis
    to the requested position and returns an array without name or
    attributes; it raises when the array has no dimension on the axis. *)

Definition relabel (ax : Axis) (d : string) (ds : list string) : list string :=
  (λ x, if bool_decide (x ∈ axis_dims ax) then d else x) <$> ds.

Definition on_axis (ax : Axis) (ds : list string) : bool :=
  existsb (λ x, bool_decide (x ∈ axis_dims ax)) ds.

Definition sample_interp (da : DataArray) (ax : Axis) (to : Position)
    (boundary : option string) : result DataArray :=
  match coord_name ax to with
  | None => Raise (KeyError "position")
  | Some d =>
      if on_axis ax (dims da)
      then Ok {| name := None; dims := relabel ax d (dims da);
                 attrs := ∅; values := values da |}
      else Raise (KeyError "axis")
  end.

Definition sample_derivative (da : DataArray) (ax : Axis)
    (boundary : option string) (fill_value : xreal) : result DataArray :=
  match ax with
  | Z =>
      if bool_decide ("s_rho" ∈ dims da) then sample_interp da Z outer boundary
      else sample_interp da Z center boundary
  | _ => sample_interp da ax inner boundary
  end.

Definition sample_grid : Grid :=
  {| interp := sample_interp; derivative := sample_derivative |}.

Definition sample_hgrad : HGrad :=
  λ var grid which z hboundary hfill_value sboundary sfill_value,
    grid_derivative grid var (if bool_decide (which = "xi") then X else Y)
      hboundary hfill_value.

(** [ds.u]: on the u grid, named, with documentation attributes. *)
Definition u_field : DataArray :=
  {| name := Some "u";
     dims := ["ocean_time"; "s_rho"; "eta_rho"; "xi_u"];
     attrs := {[ "long_name" := "u-momentum component"; "units" := "meter second-1" ]};
     values := [int 1; int 2; int 3; int 4] |}.

(** The product of two differently named fields: unnamed, no attributes. *)
Definition unnamed_field : DataArray :=
  {| name := None;
     dims := ["ocean_time"; "s_rho"; "eta_rho"; "xi_rho"];
     attrs := ∅;
     values := [int 1; int 2; int 3; int 4] |}.

(** A named field that carries no attributes. *)
Definition bare_field : DataArray :=
  {| name := Some "salt";
     dims := ["ocean_time"; "s_rho"; "eta_rho"; "xi_rho"];
     attrs := ∅;
     values := [int 1; int 2; int 3; int 4] |}.

(** A profile: no horizontal dimension. *)
Definition profile_field : DataArray :=
  {| name := Some "temp";
     dims := ["ocean_time"; "s_rho"];
     attrs := {[ "long_name" := "potential temperature"; "units" := "Celsius" ]};
     values := [int 1; int 2] |}.

Definition store_of (da : DataArray) : store :=
  {| heap := {[ 0%nat := da ]}; log := [] |}.

(** ** Indexers *)

(** [build_indexer] returns a dictionary or raises [ValueError]. *)
Inductive indexer_result (V : Type) : Type :=
  | Indexer (indexer : gmap string V)
  | ValueError (msg : string).
Arguments Indexer {V} indexer.
Arguments ValueError {V} msg.

(** [dim[:n]] and [sub in dim] *)
Definition slice_to (n : nat) (dim : string) : string := String.substring 0 n dim.
Definition contains (sub dim : string) : bool :=
  match String.index 0 sub dim with Some _ => true | None => false end.

Definition is_xi (dim : string) : bool := String.eqb (slice_to 2 dim) "xi".
Definition is_eta (dim : string) : bool := String.eqb (slice_to 3 dim) "eta".
Definition is_s (dim : string) : bool := String.eqb (slice_to 2 dim) "s_".
Definition is_time (dim : string) : bool := contains "time" dim.

(** [bs.index(True)]: the position of the first [True], if any. *)
Fixpoint index_true (bs : list bool) : option nat :=
  match bs with
  | [] => None
  | b :: bs => if b then Some 0%nat else S <$> index_true bs
  end.

(** [da.dims[[test(dim) for dim in da.dims].index(True)]] *)
Definition dim_where (test : string → bool) (ds : list string) : option string :=
  match index_true (test <$> ds) with
  | Some i => ds !! i
  | None => None
  end.

(** [if value is not None: indexer[key] = value], the key being the first
    dimension that passes [test]. *)
Definition set_item {V : Type} (test : string → bool) (ds : list string)
    (value : option V) (indexer : gmap string V) : indexer_result V :=
  match value with
  | None => Indexer indexer
  | Some v =>
      match dim_where test ds with
      | Some key => Indexer (<[key := v]> indexer)
      | None => ValueError "True is not in list"
      end
  end.

Definition and_then {V : Type} (r : indexer_result V)
    (k : gmap string V → indexer_result V) : indexer_result V :=
  match r with
  | Indexer indexer => k indexer
  | ValueError msg => ValueError msg
  end.

Definition build_indexer {V : Type} (da : DataArray) (xi eta s t : option V)
    : indexer_result V :=
  and_then (set_item is_xi (dims da) xi ∅) (λ indexer,
  and_then (set_item is_eta (dims da) eta indexer) (λ indexer,
  and_then (set_item is_s (dims da) s indexer) (λ indexer,
  set_item is_time (dims da) t indexer))).

(** ** Calls made on the grid *)

(** The calls of [grid.interp] that [to_grid] can make for its arguments,
    in the order of the code: along X, then Y, then Z, always with
    [boundary='extend']. *)
Definition h_calls (hcoord : option string) : list call :=
  match hcoord with
  | None => []
  | Some h =>
      if bool_decide (h = "rho")
      then [CInterp X center extend; CInterp Y center extend]
      else if bool_decide (h = "psi")
      then [CInterp X inner extend; CInterp Y inner extend]
      else if bool_decide (h = "u")
      then [CInterp X inner extend; CInterp Y center extend]
      else if bool_decide (h = "v")
      then [CInterp X center extend; CInterp Y inner extend]
      else []
  end.

Definition s_calls (scoord : option string) : list call :=
  match scoord with
  | None => []
  | Some s =>
      if bool_decide (s ∈ ["s_rho"; "rho"]) then [CInterp Z center extend]
      else if bool_decide (s ∈ ["s_w"; "w"]) then [CInterp Z outer extend]
      else []
  end.

(** A run that logs some of the calls [plan], in their order, and nothing
    else; existing objects keep their state; a result is the object [l]
    itself when no call was made, with the store as it was, and an object
    that did not exist before otherwise. *)
Definition calls_run (plan : list call) (l : loc) (σ : store)
    (r : result loc) (σ' : store) : Prop :=
  evolves σ σ' ∧
  ∃ cs, log σ' = log σ ++ cs ∧ sublist cs plan ∧
    match r with
    | Ok l' => (cs = [] ∧ l' = l ∧ σ' = σ) ∨
               (cs ≠ [] ∧ heap σ !! l' = None ∧ is_Some (heap σ' !! l'))
    | Raise _ => True
    end.

(** * Properties *)

(** ** The isosurface projector, over any arithmetic *)

Section IsosliceGeneric.
Context {A : Type} `{FloatOps A}.
Variable sum : list A → A.

(** Each entry of the result is computed from its own column alone: the
    test [check.sum() > 0] on the whole array only decides whether the
    selection by [check] is applied, and that selection is the identity
    where [check] is false. *)
Lemma xisoslice_lookup (iso_array projected_array : list (list A)) (iso_value : A)
    (k : nat) (ref var : list A) :
  iso_array !! k = Some ref →
  projected_array !! k = Some var →
  xisoslice_with sum iso_array iso_value projected_array !! k
  = Some (column_result sum ref iso_value var).
Proof.
  intros Hr Hv. unfold xisoslice_with.
  set (prop := (λ col : list A, _ <$> col) <$> iso_array).
  set (zc := elementwise crossing (isel_uslice prop) (isel_lslice prop)).
  set (out := zip_with _ (zip _ _) (zip _ _)).
  set (check := _ <$> sum_coord sum zc).
  assert (Hp : prop !! k = Some (column_prop ref iso_value)).
  { unfold prop. rewrite list_lookup_fmap, Hr. done. }
  assert (Hzc : zc !! k = Some (column_zc ref iso_value)).
  { unfold zc, elementwise, isel_uslice, isel_lslice.
    rewrite lookup_zip_with, !list_lookup_fmap, Hp. done. }
  assert (Hred : ∀ (sl : list A → list A) (a : list (list A)) (xs : list A),
             a !! k = Some xs →
             sum_coord sum (elementwise f_mul (sl <$> a) zc) !! k
             = Some (sum (zip_with f_mul (sl xs) (column_zc ref iso_value)))).
  { intros sl a xs Ha. unfold sum_coord, elementwise.
    rewrite list_lookup_fmap, lookup_zip_with, list_lookup_fmap, Ha, Hzc. done. }
  assert (Hout : out !! k
                 = Some (linear_fit
                           (reduce_lower sum (column_prop ref iso_value)
                              (column_zc ref iso_value))
                           (reduce_upper sum (column_prop ref iso_value)
                              (column_zc ref iso_value))
                           (reduce_lower sum var (column_zc ref iso_value))
                           (reduce_upper sum var (column_zc ref iso_value)))).
  { unfold out. rewrite !lookup_zip_with.
    unfold isel_lslice, isel_uslice.
    rewrite (Hred lslice _ _ Hp), (Hred uslice _ _ Hp),
      (Hred lslice _ _ Hv), (Hred uslice _ _ Hv). done. }
  assert (Hck : check !! k
                = Some (f_eqb (sum (column_zc ref iso_value)) f_two)).
  { unfold check, sum_coord. rewrite !list_lookup_fmap, Hzc. done. }
  unfold column_result. cbv zeta.
  destruct (existsb id check) eqn:E.
  - rewrite lookup_zip_with, Hck, Hout. simpl.
    by destruct (f_eqb _ f_two).
  - destruct (f_eqb (sum (column_zc ref iso_value)) f_two) eqn:Ec; [|done].
    assert (existsb id check = true) as E'; [|congruence].
    apply existsb_exists. exists true. split; [|done].
    apply list_elem_of_In, list_elem_of_lookup. eauto.
Qed.

(** The result has one entry per column. *)
Lemma xisoslice_length (iso_array projected_array : list (list A)) (iso_value : A) :
  length iso_array = length projected_array →
  length (xisoslice_with sum iso_array iso_value projected_array)
  = length iso_array.
Proof.
  intros Hlen.
  unfold xisoslice_with, elementwise, isel_lslice, isel_uslice, sum_coord.
  destruct (existsb _ _);
    repeat rewrite ?length_zip_with, ?length_fmap; lia.
Qed.
End IsosliceGeneric.

(** Where the indicator of a column is read from, and what it holds. *)
Section Indicator.
Context {A : Type} `{FloatOps A}.

Lemma lslice_lookup (xs : list A) (j : nat) (x y : A) :
  xs !! j = Some x → xs !! S j = Some y → lslice xs !! j = Some x.
Proof.
  intros Hx Hy. unfold lslice. apply lookup_take_Some. split; [done|].
  apply lookup_lt_Some in Hy. lia.
Qed.

Lemma lslice_lookup_inv (xs : list A) (j : nat) (x : A) :
  lslice xs !! j = Some x → xs !! j = Some x ∧ is_Some (xs !! S j).
Proof.
  unfold lslice. intros [Hx Hj]%lookup_take_Some. split; [done|].
  apply lookup_lt_is_Some_2. lia.
Qed.

Lemma uslice_lookup (xs : list A) (j : nat) : uslice xs !! j = xs !! S j.
Proof. unfold uslice. by rewrite lookup_drop. Qed.

Lemma column_prop_lookup (ref : list A) (iso_value : A) (j : nat) :
  column_prop ref iso_value !! j = (λ x, f_sub x iso_value) <$> ref !! j.
Proof. unfold column_prop. by rewrite list_lookup_fmap. Qed.

Lemma column_zc_lookup (ref : list A) (iso_value : A) (j : nat) (rl ru : A) :
  ref !! j = Some rl → ref !! S j = Some ru →
  column_zc ref iso_value !! j
  = Some (if brackets iso_value rl ru then f_one else f_zero).
Proof.
  intros Hl Hu. unfold column_zc.
  rewrite lookup_zip_with, uslice_lookup, column_prop_lookup, Hu. simpl.
  erewrite lslice_lookup; [done|..]; rewrite column_prop_lookup.
  - by rewrite Hl.
  - by rewrite Hu.
Qed.

Lemma column_zc_lookup_inv (ref : list A) (iso_value : A) (j : nat) (z : A) :
  column_zc ref iso_value !! j = Some z →
  ∃ rl ru, ref !! j = Some rl ∧ ref !! S j = Some ru ∧
           z = if brackets iso_value rl ru then f_one else f_zero.
Proof.
  unfold column_zc. intros (pu & pl & -> & Hu & Hl)%lookup_zip_with_Some.
  rewrite uslice_lookup, column_prop_lookup in Hu.
  apply lslice_lookup_inv in Hl as [Hl _]. rewrite column_prop_lookup in Hl.
  destruct (ref !! j) as [rl|] eqn:El; [|done].
  destruct (ref !! S j) as [ru|] eqn:Eu; [|done].
  simplify_eq/=. by exists rl, ru.
Qed.
End Indicator.

(** ** The laws of the arithmetic, in binary64 *)

(** The primitive operations are specified by [SFmul], [SFadd], [SFsub],
    [SFdiv] and [SFcompare] on [spec_float].  All laws but [x * 1 = x] are
    read off the cases of these functions on zeros, infinities and
    not-a-number; [x * 1 = x] goes through the rounding of the product. *)
Section Binary64.
Implicit Types (x y a b : float) (s : spec_float).

Lemma SF_Zcompare_refl (e : BinNums.Z) : IntDef.Z.compare e e = Eq.
Proof. exact (Z.compare_refl e). Qed.

Lemma SF_Poscompare_refl (m : positive) : PosDef.Pos.compare_cont Eq m m = Eq.
Proof. exact (Pos.compare_cont_refl m Eq). Qed.

Lemma SFcompare_refl s : s ≠ S754_nan → SFcompare s s = Some Eq.
Proof.
  destruct s as [[]|[]| |[] m e]; simpl; try done; intros _.
  - by rewrite SF_Zcompare_refl, SF_Poscompare_refl.
  - by rewrite SF_Zcompare_refl, SF_Poscompare_refl.
Qed.

Lemma b64_isnan x : f_isnan x = SF_nan (Prim2SF x).
Proof.
  simpl. unfold PrimFloat.is_nan. rewrite FloatAxioms.eqb_spec. unfold SFeqb.
  destruct (Prim2SF x) as [[]|[]| |[] m e] eqn:E; try done;
    by rewrite SFcompare_refl.
Qed.

Lemma b64_is_zero x : is_zero x = SF_zero (Prim2SF x).
Proof.
  unfold is_zero. simpl. rewrite FloatAxioms.eqb_spec. unfold SFeqb.
  by destruct (Prim2SF x) as [[]|[]| |[] m e].
Qed.

Lemma digits2_pos_iter (m k : positive) :
  Z.pos (digits2_pos (Pos.iter xO m k)) = (Z.pos (digits2_pos m) + Z.pos k)%Z.
Proof.
  induction k as [|k IH] using Pos.peano_ind.
  - simpl. lia.
  - rewrite Pos.iter_succ. simpl. lia.
Qed.

(** The exact product by [2^52 * 2^-52]: 52 more digits at an exponent 52
    lower, shifted back without loss. *)
Lemma SFmul_one s :
  valid_binary s = true →
  SF64mul s (S754_finite false 4503599627370496 (-52)) = s.
Proof.
  destruct s as [[]|[]| |sx mx ex]; try done.
  unfold valid_binary, bounded, canonical_mantissa.
  intros [Hc Hb]%andb_true_iff. apply Z.eqb_eq in Hc.
  unfold SF64mul, SFmul.
  replace (mx * 4503599627370496)%positive with (Pos.iter xO mx 52)
    by (rewrite Pos.mul_comm; reflexivity).
  unfold binary_round_aux, shr_fexp. unfold Zdigits2 at 1.
  rewrite digits2_pos_iter.
  replace (Z.pos (digits2_pos mx) + 52 + (ex + -52))%Z
    with (Z.pos (digits2_pos mx) + ex)%Z by lia.
  rewrite Hc.
  replace (ex - (ex + -52))%Z with 52%Z by lia.
  cbn [shr shr_record_of_loc].
  change (iter_pos shr_1 52 {| shr_m := Z.pos (Pos.iter xO mx 52);
                               shr_r := false; shr_s := false |})
    with {| shr_m := Z.pos mx; shr_r := false; shr_s := false |}.
  cbn [shr_m loc_of_shr_record round_nearest_even Zdigits2].
  replace (ex + -52 + 52)%Z with ex by lia.
  rewrite Hc, Z.sub_diag. cbn [shr shr_record_of_loc shr_m].
  rewrite Hb. by destruct sx.
Qed.

Lemma b64_mul_one x : f_mul x f_one = x.
Proof.
  apply Prim2SF_inj. simpl. rewrite mul_spec.
  apply SFmul_one, Prim2SF_valid.
Qed.

Lemma b64_mul_zero x :
  f_isnan (f_mul x f_zero) = true ∨ is_zero (f_mul x f_zero) = true.
Proof.
  rewrite b64_isnan, b64_is_zero. simpl. rewrite mul_spec.
  change (Prim2SF 0) with (S754_zero false).
  destruct (Prim2SF x) as [[]|[]| |[] m e]; simpl; auto.
Qed.

Lemma b64_zero_mul a d :
  is_zero a = true →
  f_isnan (f_mul a d) = true ∨ is_zero (f_mul a d) = true.
Proof.
  rewrite !b64_isnan, !b64_is_zero. simpl. rewrite mul_spec.
  destruct (Prim2SF a) as [sa|sa| |sa ma ea]; try done. intros _.
  destruct (Prim2SF d) as [sd|sd| |sd md ed]; simpl; auto.
Qed.

Lemma b64_add_zero_l a b :
  is_zero a = true → is_zero b = false → f_add a b = b.
Proof.
  rewrite !b64_is_zero. intros Ha Hb. apply Prim2SF_inj. simpl.
  rewrite add_spec.
  destruct (Prim2SF a) as [sa|sa| |sa ma ea]; try done.
  by destruct (Prim2SF b) as [sb|sb| |sb mb eb].
Qed.

Lemma b64_add_zero_r a b :
  is_zero a = false → is_zero b = true → f_add a b = a.
Proof.
  rewrite !b64_is_zero. intros Ha Hb. apply Prim2SF_inj. simpl.
  rewrite add_spec.
  destruct (Prim2SF b) as [sb|sb| |sb mb eb]; try done.
  by destruct (Prim2SF a) as [sa|sa| |sa ma ea].
Qed.

Lemma b64_add_zero_zero a b :
  is_zero a = true → is_zero b = true → is_zero (f_add a b) = true.
Proof.
  rewrite !b64_is_zero. simpl. rewrite add_spec.
  destruct (Prim2SF a) as [sa|sa| |sa ma ea]; try done.
  destruct (Prim2SF b) as [sb|sb| |sb mb eb]; try done.
  by destruct sa, sb.
Qed.

Lemma b64_sub_zero_zero a b :
  is_zero a = true → is_zero b = true → is_zero (f_sub a b) = true.
Proof.
  rewrite !b64_is_zero. simpl. rewrite sub_spec.
  destruct (Prim2SF a) as [sa|sa| |sa ma ea]; try done.
  destruct (Prim2SF b) as [sb|sb| |sb mb eb]; try done.
  by destruct sa, sb.
Qed.

Lemma b64_div_by_zero a b :
  f_isnan a = true ∨ is_zero a = true → is_zero b = true →
  f_isnan (f_div a b) = true.
Proof.
  rewrite !b64_isnan, !b64_is_zero. simpl. rewrite div_spec.
  intros Ha Hb.
  destruct (Prim2SF b) as [sb|sb| |sb mb eb]; try done.
  destruct (Prim2SF a) as [sa|sa| |sa ma ea]; try done; by destruct Ha.
Qed.

Lemma b64_div_nan a b : f_isnan a = true → f_isnan (f_div a b) = true.
Proof.
  rewrite !b64_isnan. simpl. rewrite div_spec.
  by destruct (Prim2SF a) as [sa|sa| |sa ma ea].
Qed.

Lemma b64_sub_nan v q : f_isnan q = true → f_isnan (f_sub v q) = true.
Proof.
  rewrite !b64_isnan. simpl. rewrite sub_spec.
  destruct (Prim2SF q) as [sq|sq| |sq mq eq]; try done. intros _.
  by destruct (Prim2SF v) as [sv|sv| |sv mv ev].
Qed.

Lemma b64_leb_mul_number a b :
  f_leb (f_mul a b) f_zero = true → f_isnan a = false ∧ f_isnan b = false.
Proof.
  rewrite !b64_isnan. simpl. rewrite leb_spec, mul_spec.
  destruct (Prim2SF a) as [sa|sa| |sa ma ea];
    destruct (Prim2SF b) as [sb|sb| |sb mb eb]; try done.
Qed.

Lemma b64_zero_number x : is_zero x = true → f_isnan x = false.
Proof.
  rewrite b64_isnan, b64_is_zero. by destruct (Prim2SF x).
Qed.

(** The zeros of binary64. *)
Lemma b64_zeros x : is_zero x = true → x = 0%float ∨ x = (-0)%float.
Proof.
  rewrite b64_is_zero. intros Hx.
  destruct (Prim2SF x) as [[]| | |] eqn:E; try done.
  - right. by apply Prim2SF_inj.
  - left. by apply Prim2SF_inj.
Qed.
End Binary64.

Lemma binary64_laws : FloatLaws float.
Proof.
  split.
  - reflexivity.
  - reflexivity.
  - reflexivity.
  - reflexivity.
  - reflexivity.
  - reflexivity.
  - reflexivity.
  - apply b64_zero_number.
  - apply b64_mul_one.
  - apply b64_mul_zero.
  - apply b64_zero_mul.
  - apply b64_add_zero_l.
  - apply b64_add_zero_r.
  - apply b64_add_zero_zero.
  - apply b64_sub_zero_zero.
  - apply b64_div_by_zero.
  - apply b64_div_nan.
  - apply b64_sub_nan.
  - apply b64_leb_mul_number.
Qed.

(** ** The laws of the arithmetic, in exact arithmetic *)

Section Exact.
Local Open Scope Qc_scope.
Implicit Types (x y : xreal) (q : Qc).

Lemma x_is_zero x : is_zero x = true ↔ x = Fin 0.
Proof.
  unfold is_zero. destruct x as [q| | |]; simpl; split; try done.
  - destruct (q ?= 0) eqn:E; try done. intros _. f_equal. by apply Qceq_alt.
  - intros [= ->]. done.
Qed.

Lemma x_not_zero x : is_zero x = false ↔ x ≠ Fin 0.
Proof.
  rewrite <- x_is_zero. by destruct (is_zero x).
Qed.

Lemma x_mul_one x : x_mul x (Fin 1) = x.
Proof.
  destruct x as [q| | |]; simpl; try done.
  by rewrite Qcmult_1_r.
Qed.

Lemma x_add_zero_r x : x_add x (Fin 0) = x.
Proof. destruct x as [q| | |]; simpl; try done. by rewrite Qcplus_0_r. Qed.

Lemma x_add_zero_l x : x_add (Fin 0) x = x.
Proof. destruct x as [q| | |]; simpl; try done. by rewrite Qcplus_0_l. Qed.

Lemma x_leb_mul_number x y :
  x_leb (x_mul x y) (Fin 0) = true → x_isnan x = false ∧ x_isnan y = false.
Proof. by destruct x, y. Qed.
End Exact.

Lemma xreal_laws : FloatLaws xreal.
Proof.
  split.
  - reflexivity.
  - reflexivity.
  - reflexivity.
  - reflexivity.
  - reflexivity.
  - reflexivity.
  - reflexivity.
  - intros x ->%x_is_zero. done.
  - apply x_mul_one.
  - intros [q| | |]; [right|by left..].
    apply x_is_zero. simpl. by rewrite Qcmult_0_r.
  - intros a d ->%x_is_zero. destruct d as [q| | |]; [right|by left..].
    apply x_is_zero. simpl. by rewrite Qcmult_0_l.
  - intros a b ->%x_is_zero _. apply x_add_zero_l.
  - intros a b _ ->%x_is_zero. apply x_add_zero_r.
  - intros a b ->%x_is_zero ->%x_is_zero. done.
  - intros a b ->%x_is_zero ->%x_is_zero. done.
  - intros a b Ha ->%x_is_zero. destruct Ha as [Ha| ->%x_is_zero]; [|done].
    by destruct a.
  - by intros [] [].
  - by intros [] [].
  - apply x_leb_mul_number.
Qed.

(** ** Reductions along the coordinate *)

Section Reductions.
Context {A : Type} `{FloatLaws A}.
Implicit Types (x y a b r : A) (l : list A).

Lemma same_number_refl x : same_number x x.
Proof. by left. Qed.

Lemma same_number_sym x y : same_number x y → same_number y x.
Proof. intros [->|[??]]; [by left|by right]. Qed.

Lemma same_number_trans x y r :
  same_number x y → same_number y r → same_number x r.
Proof.
  intros [->|[Hx Hy]] [->|[Hy' Hr]]; try (by left); try (by right).
Qed.

Lemma same_number_zero x y :
  same_number x y → is_zero y = true → is_zero x = true.
Proof. by intros [->|[??]]. Qed.

Lemma same_number_nonzero x y :
  same_number x y → is_zero y = false → x = y.
Proof. intros [->|[? Hy]] Hn; [done|congruence]. Qed.

Lemma add_zero_same_l a b : is_zero a = true → same_number (f_add a b) b.
Proof.
  intros Ha. destruct (is_zero b) eqn:Hb.
  - right. split; [by apply add_zero_zero|done].
  - left. by apply add_zero_l.
Qed.

Lemma add_zero_same_r a b : is_zero b = true → same_number (f_add a b) a.
Proof.
  intros Hb. destruct (is_zero a) eqn:Ha.
  - right. split; [by apply add_zero_zero|done].
  - left. by apply add_zero_r.
Qed.

Lemma add_same a a' b b' :
  same_number a a' → same_number b b' →
  same_number (f_add a b) (f_add a' b').
Proof.
  intros [->|[Ha Ha']] [->|[Hb Hb']]; [by left|..].
  - eapply same_number_trans; [by apply add_zero_same_r|].
    apply same_number_sym. by apply add_zero_same_r.
  - eapply same_number_trans; [by apply add_zero_same_l|].
    apply same_number_sym. by apply add_zero_same_l.
  - right. split; by apply add_zero_zero.
Qed.

(** Adding zeros gives a zero. *)
Lemma sums_zero l r :
  sums_to l r → Forall (λ x, is_zero x = true) l → is_zero r = true.
Proof.
  induction 1 as [z Hz|x|l1 l2 a b _ IH1 _ IH2|l l' a Hp _ IH]; intros Hall.
  - done.
  - exact (proj1 (Forall_singleton _ _) Hall).
  - apply Forall_app in Hall as [H1 H2]. apply add_zero_zero; auto.
  - apply IH. by rewrite Hp.
Qed.

(** The zeros among the terms do not change the number that comes out. *)
Lemma sums_filter l r :
  sums_to l r →
  ∃ r1, sums_to (filter (λ x, is_zero x = false) l) r1 ∧ same_number r r1.
Proof.
  induction 1 as [z Hz|x|l1 l2 a b _ IH1 _ IH2|l l' a Hp _ IH].
  - exists z. split; [by constructor|apply same_number_refl].
  - exists x. split; [|apply same_number_refl].
    destruct (is_zero x) eqn:Hx.
    + rewrite filter_cons_False by congruence. by constructor.
    + rewrite filter_cons_True by done. constructor.
  - destruct IH1 as (a1 & Ha1 & Ha), IH2 as (b1 & Hb1 & Hb).
    exists (f_add a1 b1). rewrite list.filter_app.
    split; [by constructor|by apply add_same].
  - destruct IH as (a1 & Ha1 & Ha). exists a1. split; [|done].
    eapply sums_order; [|done]. by rewrite Hp.
Qed.

(** What comes out of the addition of at most two terms. *)
Lemma sums_small l r :
  sums_to l r →
  match l with
  | [] => is_zero r = true
  | [x] => same_number r x
  | [x; y] => same_number r (f_add x y) ∨ same_number r (f_add y x)
  | _ => True
  end.
Proof.
  induction 1 as [z Hz|x|l1 l2 a b _ IH1 _ IH2|l l' a Hp _ IH].
  - done.
  - apply same_number_refl.
  - destruct l1 as [|u [|v [|w l1]]], l2 as [|x [|y [|z l2]]]; simpl; try done.
    + by apply add_zero_zero.
    + eapply same_number_trans; [by apply add_zero_same_l|done].
    + destruct IH2 as [Hb|Hb]; [left|right];
        (eapply same_number_trans; [by apply add_zero_same_l|done]).
    + eapply same_number_trans; [by apply add_zero_same_r|done].
    + left. by apply add_same.
    + destruct IH1 as [Ha|Ha]; [left|right];
        (eapply same_number_trans; [by apply add_zero_same_r|done]).
  - destruct l' as [|x [|y [|z l']]]; try done.
    + by apply Permutation_nil_r in Hp as ->.
    + by apply Permutation_singleton_r in Hp as ->.
    + symmetry in Hp. apply Permutation_length_2_inv in Hp as [->| ->]; [done|].
      destruct IH; auto.
Qed.

Lemma filter_zeros l :
  (∀ j y, l !! j = Some y → is_zero y = true) →
  filter (λ x, is_zero x = false) l = [].
Proof.
  induction l as [|u l IH]; intros Hz; [done|].
  rewrite filter_cons_False.
  - apply IH. intros j y Hj. apply (Hz (S j) y Hj).
  - by rewrite (Hz 0%nat u eq_refl).
Qed.

Lemma filter_single l (i : nat) x :
  l !! i = Some x →
  (∀ j y, l !! j = Some y → j ≠ i → is_zero y = true) →
  filter (λ x, is_zero x = false) l = if is_zero x then [] else [x].
Proof.
  revert i. induction l as [|u l IH]; intros i Hi Hz; [done|].
  destruct i as [|i]; simpl in Hi.
  - simplify_eq.
    assert (filter (λ x, is_zero x = false) l = []) as Hnil.
    { apply filter_zeros. intros j y Hj. apply (Hz (S j) y Hj). lia. }
    destruct (is_zero x) eqn:Hx.
    + rewrite filter_cons_False by congruence. done.
    + rewrite filter_cons_True by done. by rewrite Hnil.
  - rewrite filter_cons_False.
    + apply (IH i Hi). intros j y Hj Hne. apply (Hz (S j) y Hj). lia.
    + rewrite (Hz 0%nat u eq_refl); [done|lia].
Qed.

(** One term among zeros: the number that comes out is that term. *)
Lemma sums_single l r (i : nat) x :
  sums_to l r →
  l !! i = Some x →
  (∀ j y, l !! j = Some y → j ≠ i → is_zero y = true) →
  same_number r x.
Proof.
  intros (r1 & Hr1 & Hr)%sums_filter Hi Hz.
  rewrite (filter_single l i x Hi Hz) in Hr1.
  apply sums_small in Hr1. destruct (is_zero x) eqn:Hx.
  - right. split; [|done]. by apply (same_number_zero r r1).
  - by apply (same_number_trans r r1 x).
Qed.

(** Adding in sequence from zero is a reduction. *)
Lemma fold_skipna_sums (col l0 : list A) (acc : A) :
  sums_to l0 acc →
  sums_to (l0 ++ (skipna <$> col))
    (fold_left (λ acc x, f_add acc (skipna x)) col acc).
Proof.
  revert l0 acc. induction col as [|x col IH]; intros l0 acc Hacc; simpl.
  - by rewrite app_nil_r.
  - rewrite (cons_middle (skipna x) l0), app_assoc. apply IH.
    constructor; [done|constructor].
Qed.

Lemma sum_skipna_reduction : reduction sum_skipna.
Proof.
  intros col. apply (fold_skipna_sums col [] f_zero).
  constructor. apply zero_is_zero.
Qed.

Lemma skipna_number x : f_isnan x = false → skipna x = x.
Proof. unfold skipna. by intros ->. Qed.

Lemma skipna_zero x : is_zero x = true → skipna x = x.
Proof. intros Hx. by apply skipna_number, zero_number. Qed.

Lemma skipna_mul_zero x : is_zero (skipna (f_mul x f_zero)) = true.
Proof.
  unfold skipna. destruct (mul_zero x) as [Hn|Hz].
  - rewrite Hn. apply zero_is_zero.
  - by rewrite (zero_number _ Hz).
Qed.

(** The fit between two zero differences is not a number, whatever the
    projected sums, halved or not. *)
Lemma fit_flat (pl pu vl vu : A) :
  is_zero pl = true → is_zero pu = true →
  f_isnan (f_sub vl (f_div (f_mul pl (f_sub vu vl)) (f_sub pu pl))) = true.
Proof.
  intros Hl Hu. apply sub_nan, div_by_zero.
  - by apply zero_mul.
  - by apply sub_zero_zero.
Qed.
End Reductions.

(** ** The reduced sums of a column *)

Section Columns.
Context {A : Type} `{FloatLaws A}.
Variable sum : list A → A.
Hypothesis Hsum : reduction sum.
Implicit Types (ref var sl : list A) (x y z : A).

Lemma skipna_one : skipna f_one = f_one.
Proof. apply skipna_number, one_number. Qed.

Lemma skipna_f_zero : skipna f_zero = f_zero.
Proof. apply skipna_zero, zero_is_zero. Qed.

(** The terms of a reduced sum, slot by slot. *)
Lemma terms_lookup sl (zc : list A) (j : nat) y :
  (skipna <$> zip_with f_mul sl zc) !! j = Some y →
  ∃ x z, sl !! j = Some x ∧ zc !! j = Some z ∧ y = skipna (f_mul x z).
Proof.
  rewrite list_lookup_fmap.
  destruct (zip_with f_mul sl zc !! j) as [t|] eqn:Ht; [|done].
  apply lookup_zip_with_Some in Ht as (x & z & -> & Hx & Hz).
  intros [= <-]. by exists x, z.
Qed.

Lemma zc_terms_lookup ref iso_value (j : nat) y :
  (skipna <$> column_zc ref iso_value) !! j = Some y →
  ∃ rl ru, ref !! j = Some rl ∧ ref !! S j = Some ru ∧
           y = if brackets iso_value rl ru then f_one else f_zero.
Proof.
  rewrite list_lookup_fmap.
  destruct (column_zc ref iso_value !! j) as [z|] eqn:Hz; [|done].
  apply column_zc_lookup_inv in Hz as (rl & ru & Hl & Hu & ->).
  intros [= <-]. exists rl, ru. split; [done|]. split; [done|].
  destruct (brackets iso_value rl ru); [apply skipna_one|apply skipna_f_zero].
Qed.

(** *** A column with no selected slot *)

Lemma no_crossing_reduce ref iso_value sl :
  no_crossing ref iso_value →
  is_zero (sum (zip_with f_mul sl (column_zc ref iso_value))) = true.
Proof.
  intros Hno. apply (sums_zero _ _ (Hsum _)), Forall_lookup.
  intros j y (x & z & _ & Hz & ->)%terms_lookup.
  apply column_zc_lookup_inv in Hz as (rl & ru & Hl & Hu & ->).
  rewrite (Hno j rl ru Hl Hu). apply skipna_mul_zero.
Qed.

Lemma no_crossing_count ref iso_value :
  no_crossing ref iso_value →
  is_zero (sum (column_zc ref iso_value)) = true.
Proof.
  intros Hno. apply (sums_zero _ _ (Hsum _)), Forall_lookup.
  intros j y (rl & ru & Hl & Hu & ->)%zc_terms_lookup.
  rewrite (Hno j rl ru Hl Hu). apply zero_is_zero.
Qed.

Lemma column_flat ref iso_value var :
  is_zero (reduce_lower sum (column_prop ref iso_value)
             (column_zc ref iso_value)) = true →
  is_zero (reduce_upper sum (column_prop ref iso_value)
             (column_zc ref iso_value)) = true →
  f_isnan (column_result sum ref iso_value var) = true.
Proof.
  intros Hl Hu. unfold column_result, linear_fit, halve. cbv zeta.
  destruct (f_eqb _ f_two); [apply div_nan|]; by apply fit_flat.
Qed.

(** *** A column with exactly one selected slot *)

Lemma single_crossing_selected ref iso_value (i : nat) :
  single_crossing ref iso_value i →
  column_zc ref iso_value !! i = Some f_one.
Proof.
  intros [(rl & ru & Hl & Hu & Hb) _].
  by rewrite (column_zc_lookup _ _ _ _ _ Hl Hu), Hb.
Qed.

Lemma single_crossing_others ref iso_value (i j : nat) z :
  single_crossing ref iso_value i → j ≠ i →
  column_zc ref iso_value !! j = Some z → z = f_zero.
Proof.
  intros [_ Honly] Hne (rl & ru & Hl & Hu & ->)%column_zc_lookup_inv.
  destruct (brackets iso_value rl ru) eqn:Hb; [|done].
  by destruct (Hne (Honly j rl ru Hl Hu Hb)).
Qed.

Lemma single_crossing_reduce ref iso_value (i : nat) sl x :
  single_crossing ref iso_value i →
  sl !! i = Some x →
  same_number (sum (zip_with f_mul sl (column_zc ref iso_value))) (skipna x).
Proof.
  intros Hs Hx. apply (sums_single _ _ i _ (Hsum _)).
  - rewrite list_lookup_fmap, lookup_zip_with, Hx,
      (single_crossing_selected _ _ _ Hs). simpl. by rewrite mul_one.
  - intros j y (x' & z & _ & Hz & ->)%terms_lookup Hne.
    rewrite (single_crossing_others _ _ _ _ _ Hs Hne Hz).
    apply skipna_mul_zero.
Qed.

Lemma single_crossing_count ref iso_value (i : nat) :
  single_crossing ref iso_value i →
  sum (column_zc ref iso_value) = f_one.
Proof.
  intros Hs. apply same_number_nonzero; [|apply one_not_zero].
  apply (sums_single _ _ i _ (Hsum _)).
  - rewrite list_lookup_fmap, (single_crossing_selected _ _ _ Hs). simpl.
    by rewrite skipna_one.
  - intros j y Hy Hne. rewrite list_lookup_fmap in Hy.
    destruct (column_zc ref iso_value !! j) as [z|] eqn:Hz; [|done].
    rewrite (single_crossing_others _ _ _ _ _ Hs Hne Hz) in Hy.
    simplify_eq/=. rewrite skipna_f_zero. apply zero_is_zero.
Qed.

Lemma single_crossing_column ref var iso_value (i : nat) (rl ru vl vu : A) :
  single_crossing ref iso_value i →
  ref !! i = Some rl → ref !! S i = Some ru →
  var !! i = Some vl → var !! S i = Some vu →
  ∃ propl propu varl varu : A,
    same_number propl (f_sub rl iso_value) ∧
    same_number propu (f_sub ru iso_value) ∧
    same_number varl (skipna vl) ∧
    same_number varu (skipna vu) ∧
    column_result sum ref iso_value var
    = f_sub varl (f_div (f_mul propl (f_sub varu varl)) (f_sub propu propl)).
Proof.
  intros Hs Hl Hu Hvl Hvu.
  assert (brackets iso_value rl ru = true) as Hb.
  { destruct Hs as [(rl' & ru' & Hl' & Hu' & Hb) _]. by simplify_eq. }
  apply leb_mul_number in Hb as [Hnu Hnl].
  exists (reduce_lower sum (column_prop ref iso_value) (column_zc ref iso_value)),
    (reduce_upper sum (column_prop ref iso_value) (column_zc ref iso_value)),
    (reduce_lower sum var (column_zc ref iso_value)),
    (reduce_upper sum var (column_zc ref iso_value)).
  unfold reduce_lower, reduce_upper. split; [|split; [|split; [|split]]].
  - rewrite <- (skipna_number _ Hnl).
    apply (single_crossing_reduce _ _ i); [done|].
    apply (lslice_lookup _ _ _ (f_sub ru iso_value));
      by rewrite column_prop_lookup, ?Hl, ?Hu.
  - rewrite <- (skipna_number _ Hnu).
    apply (single_crossing_reduce _ _ i); [done|].
    by rewrite uslice_lookup, column_prop_lookup, Hu.
  - apply (single_crossing_reduce _ _ i); [done|].
    by apply (lslice_lookup _ _ _ vu).
  - apply (single_crossing_reduce _ _ i); [done|].
    by rewrite uslice_lookup.
  - unfold column_result. cbv zeta.
    by rewrite (single_crossing_count _ _ _ Hs), one_not_two.
Qed.

(** *** A column whose selected slots are all at the target *)

Lemma at_target_lower ref iso_value :
  crossings_at_target ref iso_value →
  is_zero (reduce_lower sum (column_prop ref iso_value)
             (column_zc ref iso_value)) = true.
Proof.
  intros Hat. apply (sums_zero _ _ (Hsum _)), Forall_lookup.
  intros j y (x & z & Hx & Hz & ->)%terms_lookup.
  apply column_zc_lookup_inv in Hz as (rl & ru & Hl & Hu & ->).
  apply lslice_lookup_inv in Hx as [Hx _].
  rewrite column_prop_lookup, Hl in Hx. simplify_eq/=.
  destruct (brackets iso_value rl ru) eqn:Hb; [|apply skipna_mul_zero].
  destruct (Hat j rl ru Hl Hu Hb) as [Hzl _].
  by rewrite mul_one, skipna_zero.
Qed.

Lemma at_target_upper ref iso_value :
  crossings_at_target ref iso_value →
  is_zero (reduce_upper sum (column_prop ref iso_value)
             (column_zc ref iso_value)) = true.
Proof.
  intros Hat. apply (sums_zero _ _ (Hsum _)), Forall_lookup.
  intros j y (x & z & Hx & Hz & ->)%terms_lookup.
  apply column_zc_lookup_inv in Hz as (rl & ru & Hl & Hu & ->).
  rewrite uslice_lookup, column_prop_lookup, Hu in Hx. simplify_eq/=.
  destruct (brackets iso_value rl ru) eqn:Hb; [|apply skipna_mul_zero].
  destruct (Hat j rl ru Hl Hu Hb) as [_ Hzu].
  by rewrite mul_one, skipna_zero.
Qed.
End Columns.

(** *** A column with exactly two selected slots, next to each other *)

Section Pairs.
Context {A : Type} `{FloatLaws A}.
Implicit Types (x y r : A) (l : list A).

Lemma filter_pair l (j : nat) x y :
  l !! j = Some x → l !! S j = Some y →
  (∀ i u, l !! i = Some u → i ≠ j → i ≠ S j → is_zero u = true) →
  filter (λ x, is_zero x = false) l
  = (if is_zero x then [] else [x]) ++ (if is_zero y then [] else [y]).
Proof.
  revert j. induction l as [|u l IH]; intros j Hx Hy Hz; [done|].
  destruct j as [|j]; simpl in Hx, Hy.
  - simplify_eq.
    rewrite <- (filter_single l 0 y Hy).
    + destruct (is_zero x) eqn:Ex.
      * by rewrite filter_cons_False by congruence.
      * by rewrite filter_cons_True by done.
    + intros i v Hi Hne. apply (Hz (S i) v Hi); lia.
  - rewrite filter_cons_False.
    + apply (IH j Hx Hy). intros i v Hi Hn1 Hn2. apply (Hz (S i) v Hi); lia.
    + rewrite (Hz 0%nat u eq_refl); [done|lia..].
Qed.

(** Two terms among zeros: what comes out is their sum, in one order or
    the other. *)
Lemma sums_pair l r (j : nat) x y :
  sums_to l r →
  l !! j = Some x → l !! S j = Some y →
  (∀ i u, l !! i = Some u → i ≠ j → i ≠ S j → is_zero u = true) →
  sum_of_two x y r.
Proof.
  intros (r1 & Hr1 & Hr)%sums_filter Hx Hy Hz.
  rewrite (filter_pair l j x y Hx Hy Hz) in Hr1.
  apply sums_small in Hr1.
  destruct (is_zero x) eqn:Ex, (is_zero y) eqn:Ey; simpl in Hr1.
  - left. right. split; [by apply (same_number_zero r r1)|].
    by apply add_zero_zero.
  - left. rewrite (add_zero_l x y Ex Ey). by apply (same_number_trans r r1 y).
  - left. rewrite (add_zero_r x y Ex Ey). by apply (same_number_trans r r1 x).
  - destruct Hr1 as [Hr1|Hr1]; [left|right];
      by apply (same_number_trans r r1).
Qed.

Lemma sum_of_two_nonzero x y r v :
  sum_of_two x y r → f_add x y = v → f_add y x = v → is_zero v = false →
  r = v.
Proof.
  intros [Hr|Hr] E1 E2 Hv; rewrite ?E1, ?E2 in Hr;
    by apply same_number_nonzero.
Qed.
End Pairs.

Section DoubleColumn.
Context {A : Type} `{FloatLaws A}.
Variable sum : list A → A.
Hypothesis Hsum : reduction sum.
Variables (ref : list A) (iso_value : A) (j : nat).
Hypothesis Hd : double_crossing ref iso_value j.

Lemma double_crossing_lower : column_zc ref iso_value !! j = Some f_one.
Proof.
  destruct Hd as [(rl & rm & ru & Hl & Hm & Hu & Hb1 & Hb2) _].
  by rewrite (column_zc_lookup _ _ _ _ _ Hl Hm), Hb1.
Qed.

Lemma double_crossing_upper : column_zc ref iso_value !! S j = Some f_one.
Proof.
  destruct Hd as [(rl & rm & ru & Hl & Hm & Hu & Hb1 & Hb2) _].
  by rewrite (column_zc_lookup _ _ _ _ _ Hm Hu), Hb2.
Qed.

Lemma double_crossing_others (i : nat) (z : A) :
  i ≠ j → i ≠ S j → column_zc ref iso_value !! i = Some z → z = f_zero.
Proof.
  intros Hn1 Hn2 (rl & ru & Hl & Hu & ->)%column_zc_lookup_inv.
  destruct (brackets iso_value rl ru) eqn:Hb; [|done].
  destruct Hd as [_ Honly]. destruct (Honly i rl ru Hl Hu Hb); done.
Qed.

Lemma double_crossing_reduce (sl : list A) (x y : A) :
  sl !! j = Some x → sl !! S j = Some y →
  sum_of_two (skipna x) (skipna y)
    (sum (zip_with f_mul sl (column_zc ref iso_value))).
Proof.
  intros Hx Hy. apply (sums_pair _ _ j _ _ (Hsum _)).
  - rewrite list_lookup_fmap, lookup_zip_with, Hx, double_crossing_lower.
    simpl. by rewrite mul_one.
  - rewrite list_lookup_fmap, lookup_zip_with, Hy, double_crossing_upper.
    simpl. by rewrite mul_one.
  - intros i u (x' & z & _ & Hz & ->)%terms_lookup Hn1 Hn2.
    rewrite (double_crossing_others _ _ Hn1 Hn2 Hz). apply skipna_mul_zero.
Qed.

Lemma double_crossing_count : sum (column_zc ref iso_value) = f_two.
Proof.
  apply (sum_of_two_nonzero f_one f_one);
    [|apply one_plus_one|apply one_plus_one|apply two_not_zero].
  apply (sums_pair _ _ j _ _ (Hsum _)).
  - rewrite list_lookup_fmap, double_crossing_lower. simpl.
    by rewrite skipna_one.
  - rewrite list_lookup_fmap, double_crossing_upper. simpl.
    by rewrite skipna_one.
  - intros i u Hu Hn1 Hn2. rewrite list_lookup_fmap in Hu.
    destruct (column_zc ref iso_value !! i) as [z|] eqn:Hz; [|done].
    rewrite (double_crossing_others _ _ Hn1 Hn2 Hz) in Hu.
    simplify_eq/=. rewrite skipna_f_zero. apply zero_is_zero.
Qed.

Lemma double_crossing_column (var : list A) (rl rm ru vl vm vu : A) :
  ref !! j = Some rl → ref !! S j = Some rm → ref !! S (S j) = Some ru →
  var !! j = Some vl → var !! S j = Some vm → var !! S (S j) = Some vu →
  ∃ propl propu varl varu : A,
    sum_of_two (f_sub rl iso_value) (f_sub rm iso_value) propl ∧
    sum_of_two (f_sub rm iso_value) (f_sub ru iso_value) propu ∧
    sum_of_two (skipna vl) (skipna vm) varl ∧
    sum_of_two (skipna vm) (skipna vu) varu ∧
    column_result sum ref iso_value var
    = f_div (f_sub varl (f_div (f_mul propl (f_sub varu varl))
                           (f_sub propu propl))) f_two.
Proof.
  intros Hl Hm Hu Hvl Hvm Hvu.
  assert (f_isnan (f_sub rl iso_value) = false ∧
          f_isnan (f_sub rm iso_value) = false ∧
          f_isnan (f_sub ru iso_value) = false) as (Hnl & Hnm & Hnu).
  { destruct Hd as [(rl' & rm' & ru' & Hl' & Hm' & Hu' & Hb1 & Hb2) _].
    simplify_eq.
    apply leb_mul_number in Hb1 as [? ?], Hb2 as [? ?]. done. }
  exists (reduce_lower sum (column_prop ref iso_value) (column_zc ref iso_value)),
    (reduce_upper sum (column_prop ref iso_value) (column_zc ref iso_value)),
    (reduce_lower sum var (column_zc ref iso_value)),
    (reduce_upper sum var (column_zc ref iso_value)).
  unfold reduce_lower, reduce_upper. split; [|split; [|split; [|split]]].
  - rewrite <- (skipna_number _ Hnl), <- (skipna_number _ Hnm).
    apply double_crossing_reduce.
    + apply (lslice_lookup _ _ _ (f_sub rm iso_value));
        by rewrite column_prop_lookup, ?Hl, ?Hm.
    + apply (lslice_lookup _ _ _ (f_sub ru iso_value));
        by rewrite column_prop_lookup, ?Hm, ?Hu.
  - rewrite <- (skipna_number _ Hnm), <- (skipna_number _ Hnu).
    apply double_crossing_reduce.
    + by rewrite uslice_lookup, column_prop_lookup, Hm.
    + by rewrite uslice_lookup, column_prop_lookup, Hu.
  - apply double_crossing_reduce.
    + by apply (lslice_lookup _ _ _ vm).
    + by apply (lslice_lookup _ _ _ vu).
  - apply double_crossing_reduce; by rewrite uslice_lookup.
  - unfold column_result, linear_fit, halve. cbv zeta.
    by rewrite double_crossing_count, two_is_two.
Qed.
End DoubleColumn.

(** ** Claims about [xisoslice] *)

Lemma only_entry {B : Type} (l : list B) (x : B) :
  length l = 1%nat → l !! 0%nat = Some x → l = [x].
Proof. destruct l as [|y [|z l]]; try done. by intros _ [= ->]. Qed.

Lemma sample_single_crossing :
  single_crossing [10; 8; 6; 4; 2]%float 5%float 2.
Proof.
  split.
  - by exists 6%float, 4%float.
  - intros j rl ru Hl Hu Hb.
    do 4 (destruct j as [|j]; [simplify_eq/=; first [done|by vm_compute in Hb]|]).
    by destruct j.
Qed.

(** C1, amended.  Where exactly one slot [i] of a column has a computed
    [(ru - iso_value) * (rl - iso_value) <= 0], the result at that column
    is [varl - propl*(varu - varl)/(propu - propl)], evaluated in the
    arithmetic of the code, where [propl] and [propu] are the two reference
    samples of the slot minus [iso_value] and [varl], [varu] its two
    projected samples with a missing one counted as zero; a zero among the
    four may have either sign.  This holds for every way of adding the
    terms of the sums, in binary64 as in exact arithmetic, and monotonicity
    of the reference field is not needed beyond the single slot.  For
    reference [10,8,6,4,2], projected field [0,1,2,3,4] and target 5 the
    result is exactly 2.5. *)
Theorem xisoslice_linear_interpolation :
  (∀ (A : Type) (ops : FloatOps A), FloatLaws A →
   ∀ sum : list A → A, reduction sum →
   ∀ (iso_array projected_array : list (list A)) (iso_value : A)
     (k : nat) (ref var : list A) (i : nat) (rl ru vl vu : A),
     iso_array !! k = Some ref → projected_array !! k = Some var →
     single_crossing ref iso_value i →
     ref !! i = Some rl → ref !! S i = Some ru →
     var !! i = Some vl → var !! S i = Some vu →
     ∃ propl propu varl varu : A,
       same_number propl (f_sub rl iso_value) ∧
       same_number propu (f_sub ru iso_value) ∧
       same_number varl (skipna vl) ∧
       same_number varu (skipna vu) ∧
       xisoslice_with sum iso_array iso_value projected_array !! k
       = Some (f_sub varl
                 (f_div (f_mul propl (f_sub varu varl)) (f_sub propu propl)))) ∧
  (∀ sum : list float → float, reduction sum →
     xisoslice_with sum [[10; 8; 6; 4; 2]%float] 5%float
       [[0; 1; 2; 3; 4]%float] = [2.5%float]) ∧
  xisoslice [[int 10; int 8; int 6; int 4; int 2]] (int 5)
    [[int 0; int 1; int 2; int 3; int 4]] = [rat 5 2].
Proof.
  split; [|split].
  - intros A ops laws sum Hsum iso_array projected_array iso_value k ref var i
      rl ru vl vu Hr Hv Hs Hl Hu Hvl Hvu.
    destruct (single_crossing_column sum Hsum ref var iso_value i rl ru vl vu
                Hs Hl Hu Hvl Hvu)
      as (propl & propu & varl & varu & Hpl & Hpu & Hvl' & Hvu' & Hres).
    exists propl, propu, varl, varu. repeat (split; [done|]).
    by rewrite (xisoslice_lookup _ _ _ _ _ _ _ Hr Hv), Hres.
  - intros sum Hsum. pose proof binary64_laws as laws.
    apply only_entry; [by apply xisoslice_length|].
    destruct (single_crossing_column sum Hsum [10; 8; 6; 4; 2]%float
                [0; 1; 2; 3; 4]%float 5%float 2 6%float 4%float 2%float 3%float
                sample_single_crossing eq_refl eq_refl eq_refl eq_refl)
      as (propl & propu & varl & varu & Hpl & Hpu & Hvl & Hvu & Hres).
    apply same_number_nonzero in Hpl; [|reflexivity].
    apply same_number_nonzero in Hpu; [|reflexivity].
    apply same_number_nonzero in Hvl; [|reflexivity].
    apply same_number_nonzero in Hvu; [|reflexivity].
    rewrite (xisoslice_lookup sum [[10; 8; 6; 4; 2]%float]
               [[0; 1; 2; 3; 4]%float] 5%float 0 _ _ eq_refl eq_refl), Hres.
    by subst.
  - apply (bool_decide_unpack _). by vm_compute.
Qed.

Lemma xisoslice_linear_interpolation_witness :
  ∃ propl propu varl varu : float,
    same_number propl (6 - 5)%float ∧
    same_number propu (4 - 5)%float ∧
    same_number varl (skipna 2%float) ∧
    same_number varu (skipna 3%float) ∧
    xisoslice_with sum_skipna [[10; 8; 6; 4; 2]%float] 5%float
      [[0; 1; 2; 3; 4]%float] !! 0%nat
    = Some (varl - propl * (varu - varl) / (propu - propl))%float.
Proof.
  apply (proj1 xisoslice_linear_interpolation float binary64_ops binary64_laws
           sum_skipna (@sum_skipna_reduction float binary64_ops binary64_laws)
           [[10; 8; 6; 4; 2]%float] [[0; 1; 2; 3; 4]%float] 5%float 0%nat
           [10; 8; 6; 4; 2]%float [0; 1; 2; 3; 4]%float 2%nat
           6%float 4%float 2%float 3%float);
    first [reflexivity | exact sample_single_crossing].
Defined.

(** A missing projected sample at the selected slot does not make the
    result missing: it enters the sum as zero. *)
Lemma xisoslice_missing_sample_as_zero :
  xisoslice [[10; 8; 6; 4; 2]%float] 5%float [[0; 1; nan; 3; 4]%float]
  = [1.5%float] ∧
  PrimFloat.is_nan (nan - (6 - 5) * (3 - nan) / ((4 - 5) - (6 - 5)))%float
  = true.
Proof. split; by vm_compute. Qed.

(** C3, amended.  Where every selected slot of a column has both its
    reference samples at the target (both differences from [iso_value] are
    zero, as for a single selected slot on a flat stretch that coincides
    with the target), the result at that column is not a number, and no
    exception is involved; the other columns do not depend on what this
    column holds.  This holds for every way of adding the terms, in binary64
    as in exact arithmetic. *)
Theorem xisoslice_flat_bracket_nan :
  ∀ (A : Type) (ops : FloatOps A), FloatLaws A →
  ∀ sum : list A → A, reduction sum →
  ∀ (iso_array projected_array : list (list A)) (iso_value : A)
    (k : nat) (ref var : list A),
    length iso_array = length projected_array →
    iso_array !! k = Some ref → projected_array !! k = Some var →
    crossings_at_target ref iso_value →
    f_isnan <$> xisoslice_with sum iso_array iso_value projected_array !! k
    = Some true ∧
    ∀ (ref' var' : list A) (k' : nat), k' ≠ k →
      xisoslice_with sum (<[k := ref']> iso_array) iso_value
        (<[k := var']> projected_array) !! k'
      = xisoslice_with sum iso_array iso_value projected_array !! k'.
Proof.
  intros A ops laws sum Hsum iso_array projected_array iso_value k ref var
    Hlen Hr Hv Hat. split.
  - rewrite (xisoslice_lookup _ _ _ _ _ _ _ Hr Hv). simpl. f_equal.
    apply (column_flat sum).
    + by apply at_target_lower.
    + by apply at_target_upper.
  - intros ref' var' k' Hne.
    destruct (iso_array !! k') as [ref0|] eqn:Hr0.
    + destruct (projected_array !! k') as [var0|] eqn:Hv0.
      * rewrite (xisoslice_lookup _ _ _ _ _ _ _ Hr0 Hv0).
        apply xisoslice_lookup; by rewrite list_lookup_insert_ne.
      * apply lookup_lt_Some in Hr0. apply lookup_ge_None in Hv0. lia.
    + apply lookup_ge_None in Hr0.
      rewrite !(proj2 (lookup_ge_None _ _)); [done|..].
      * by rewrite xisoslice_length.
      * rewrite xisoslice_length; rewrite !length_insert; done.
Qed.

Lemma sample_at_target : crossings_at_target [3; 3]%float 3%float.
Proof.
  intros j rl ru Hl Hu Hb.
  destruct j as [|j]; [by simplify_eq/=|]. by destruct j.
Qed.

Lemma xisoslice_flat_bracket_nan_witness :
  f_isnan <$> xisoslice_with sum_skipna [[3; 3]%float] 3%float
                [[0; 1]%float] !! 0%nat
  = Some true ∧
  ∀ (ref' var' : list float) (k' : nat), k' ≠ 0%nat →
    xisoslice_with sum_skipna (<[0%nat := ref']> [[3; 3]%float]) 3%float
      (<[0%nat := var']> [[0; 1]%float]) !! k'
    = xisoslice_with sum_skipna [[3; 3]%float] 3%float [[0; 1]%float] !! k'.
Proof.
  apply (xisoslice_flat_bracket_nan float binary64_ops binary64_laws
           sum_skipna (@sum_skipna_reduction float binary64_ops binary64_laws)
           [[3; 3]%float] [[0; 1]%float] 3%float 0%nat
           [3; 3]%float [0; 1]%float);
    first [reflexivity | exact sample_at_target].
Defined.

(** Equal reference samples on a selected slot are not enough.  In
    binary64 a flat slot off the target is selected when the product of the
    two differences underflows to zero, and the result is infinite; and a
    flat slot at the target inside a longer column is selected together with
    its neighbours, the sums run over all three, and the result is infinite
    or not a number as the projected samples have it. *)
Lemma xisoslice_flat_bracket_infinite :
  brackets 0%float 0x1p-600%float 0x1p-600%float = true ∧
  xisoslice [[0x1p-600; 0x1p-600]%float] 0%float [[0; 1]%float]
  = [neg_infinity] ∧
  xisoslice [[4; 3; 3; 4]%float] 3%float [[0; 1; 2; 3]%float]
  = [neg_infinity] ∧
  xisoslice [[4; 3; 3; 4]%float] 3%float [[5; 5; 5; 5]%float] = [nan].
Proof. repeat split; by vm_compute. Qed.

(** C10, amended.  Where no slot of a column has a computed
    [(ru - iso_value) * (rl - iso_value) <= 0], the four reduced sums are
    zero and the result at that column is not a number, for every way of
    adding the terms, in binary64 as in exact arithmetic. *)
Theorem xisoslice_no_crossing_nan :
  ∀ (A : Type) (ops : FloatOps A), FloatLaws A →
  ∀ sum : list A → A, reduction sum →
  ∀ (iso_array projected_array : list (list A)) (iso_value : A)
    (k : nat) (ref var : list A),
    iso_array !! k = Some ref → projected_array !! k = Some var →
    no_crossing ref iso_value →
    let prop := column_prop ref iso_value in
    let zc := column_zc ref iso_value in
    is_zero (sum (zip_with f_mul (lslice prop) zc)) = true ∧
    is_zero (sum (zip_with f_mul (uslice prop) zc)) = true ∧
    is_zero (sum (zip_with f_mul (lslice var) zc)) = true ∧
    is_zero (sum (zip_with f_mul (uslice var) zc)) = true ∧
    f_isnan <$> xisoslice_with sum iso_array iso_value projected_array !! k
    = Some true.
Proof.
  intros A ops laws sum Hsum iso_array projected_array iso_value k ref var
    Hr Hv Hno prop zc.
  repeat (split; [by apply no_crossing_reduce|]).
  rewrite (xisoslice_lookup _ _ _ _ _ _ _ Hr Hv). simpl. f_equal.
  apply (column_flat sum); by apply no_crossing_reduce.
Qed.

Lemma sample_no_crossing : no_crossing [10; 8; 6; 4; 2]%float 11%float.
Proof.
  intros j rl ru Hl Hu.
  do 4 (destruct j as [|j]; [by simplify_eq/=|]). by destruct j.
Qed.

Lemma xisoslice_no_crossing_nan_witness :
  let prop := column_prop [10; 8; 6; 4; 2]%float 11%float in
  let zc := column_zc [10; 8; 6; 4; 2]%float 11%float in
  is_zero (sum_skipna (zip_with f_mul (lslice prop) zc)) = true ∧
  is_zero (sum_skipna (zip_with f_mul (uslice prop) zc)) = true ∧
  is_zero (sum_skipna (zip_with f_mul (lslice [0; 1; 2; 3; 4]%float) zc))
  = true ∧
  is_zero (sum_skipna (zip_with f_mul (uslice [0; 1; 2; 3; 4]%float) zc))
  = true ∧
  f_isnan <$> xisoslice_with sum_skipna [[10; 8; 6; 4; 2]%float] 11%float
                [[0; 1; 2; 3; 4]%float] !! 0%nat
  = Some true.
Proof.
  apply (xisoslice_no_crossing_nan float binary64_ops binary64_laws
           sum_skipna (@sum_skipna_reduction float binary64_ops binary64_laws)
           [[10; 8; 6; 4; 2]%float] [[0; 1; 2; 3; 4]%float] 11%float 0%nat
           [10; 8; 6; 4; 2]%float [0; 1; 2; 3; 4]%float);
    first [reflexivity | exact sample_no_crossing].
Defined.

(** A target strictly outside the sampled range is not enough in binary64:
    the product of two small differences of one sign underflows to zero, the
    slot is selected, and an extrapolated value comes out. *)
Lemma xisoslice_underflow_extrapolates :
  (PrimFloat.ltb 0 0x1p-600 = true ∧ PrimFloat.ltb 0x1p-600 0x1p-599 = true ∧
   PrimFloat.ltb 0x1p-599 0x1p-598 = true) ∧
  xisoslice [[0x1p-600; 0x1p-599]%float] 0%float [[0; 1]%float]
  = [(-1)%float] ∧
  xisoslice [[0x1p-600; 0x1p-599; 0x1p-598]%float] 0%float [[5; 6; 7]%float]
  = [4.5%float].
Proof. repeat split; by vm_compute. Qed.

Lemma sample_double_crossing :
  double_crossing [0; 1; 2; 3; 4]%float 2%float 1.
Proof.
  split.
  - by exists 1%float, 2%float, 3%float.
  - intros i rl ru Hl Hu Hb.
    do 4 (destruct i as [|i];
          [simplify_eq/=; first [by auto|by vm_compute in Hb]|]).
    by destruct i.
Qed.

(** C2.  At every column the result is the linear fit on the four reduced
    sums, divided by 2 where the indicator of the column sums to 2 and left
    as it is elsewhere, in any arithmetic and for any reduction.  Where
    exactly two slots next to each other are selected, which is what a
    reference sample equal to the target does, the indicator does sum to 2,
    each reduced sum is the sum of the two samples (the double count), and
    the result is the fit on them divided by 2.  For reference [0,1,2,3,4]
    and target 2 the result is exactly 2 when the projected field is the
    reference, and exactly 35 for the projected field [0,10,50,30,40],
    however the terms are added. *)
Theorem xisoslice_halving :
  (∀ (A : Type) (ops : FloatOps A) (sum : list A → A)
     (iso_array projected_array : list (list A)) (iso_value : A)
     (k : nat) (ref var : list A),
     iso_array !! k = Some ref → projected_array !! k = Some var →
     let prop := (λ x, f_sub x iso_value) <$> ref in
     let zc := zip_with crossing (uslice prop) (lslice prop) in
     let propl := sum (zip_with f_mul (lslice prop) zc) in
     let propu := sum (zip_with f_mul (uslice prop) zc) in
     let varl := sum (zip_with f_mul (lslice var) zc) in
     let varu := sum (zip_with f_mul (uslice var) zc) in
     let out :=
       f_sub varl (f_div (f_mul propl (f_sub varu varl)) (f_sub propu propl)) in
     xisoslice_with sum iso_array iso_value projected_array !! k
     = Some (if f_eqb (sum zc) f_two then f_div out f_two else out)) ∧
  (∀ (A : Type) (ops : FloatOps A), FloatLaws A →
   ∀ sum : list A → A, reduction sum →
   ∀ (iso_array projected_array : list (list A)) (iso_value : A)
     (k : nat) (ref var : list A) (j : nat) (rl rm ru vl vm vu : A),
     iso_array !! k = Some ref → projected_array !! k = Some var →
     double_crossing ref iso_value j →
     ref !! j = Some rl → ref !! S j = Some rm → ref !! S (S j) = Some ru →
     var !! j = Some vl → var !! S j = Some vm → var !! S (S j) = Some vu →
     sum (column_zc ref iso_value) = f_two ∧
     ∃ propl propu varl varu : A,
       sum_of_two (f_sub rl iso_value) (f_sub rm iso_value) propl ∧
       sum_of_two (f_sub rm iso_value) (f_sub ru iso_value) propu ∧
       sum_of_two (skipna vl) (skipna vm) varl ∧
       sum_of_two (skipna vm) (skipna vu) varu ∧
       xisoslice_with sum iso_array iso_value projected_array !! k
       = Some (f_div (f_sub varl (f_div (f_mul propl (f_sub varu varl))
                                    (f_sub propu propl))) f_two)) ∧
  (∀ sum : list float → float, reduction sum →
     xisoslice_with sum [[0; 1; 2; 3; 4]%float] 2%float
       [[0; 1; 2; 3; 4]%float] = [2%float] ∧
     xisoslice_with sum [[0; 1; 2; 3; 4]%float] 2%float
       [[0; 10; 50; 30; 40]%float] = [35%float]).
Proof.
  split; [|split].
  - intros A ops sum iso_array projected_array iso_value k ref var Hr Hv.
    by rewrite (xisoslice_lookup _ _ _ _ _ _ _ Hr Hv).
  - intros A ops laws sum Hsum iso_array projected_array iso_value k ref var j
      rl rm ru vl vm vu Hr Hv Hd Hl Hm Hu Hvl Hvm Hvu.
    split; [by apply (double_crossing_count sum Hsum _ _ j)|].
    destruct (double_crossing_column sum Hsum ref iso_value j Hd var
                rl rm ru vl vm vu Hl Hm Hu Hvl Hvm Hvu)
      as (propl & propu & varl & varu & Hpl & Hpu & Hvl' & Hvu' & Hres).
    exists propl, propu, varl, varu. repeat (split; [done|]).
    by rewrite (xisoslice_lookup _ _ _ _ _ _ _ Hr Hv), Hres.
  - intros sum Hsum. pose proof binary64_laws as laws.
    split; (apply only_entry; [by apply xisoslice_length|]).
    + destruct (double_crossing_column sum Hsum _ _ 1 sample_double_crossing
                  [0; 1; 2; 3; 4]%float 1%float 2%float 3%float
                  1%float 2%float 3%float
                  eq_refl eq_refl eq_refl eq_refl eq_refl eq_refl)
        as (propl & propu & varl & varu & Hpl & Hpu & Hvl & Hvu & Hres).
      apply (sum_of_two_nonzero _ _ _ (-1)%float) in Hpl; [|reflexivity..].
      apply (sum_of_two_nonzero _ _ _ 1%float) in Hpu; [|reflexivity..].
      apply (sum_of_two_nonzero _ _ _ 3%float) in Hvl; [|reflexivity..].
      apply (sum_of_two_nonzero _ _ _ 5%float) in Hvu; [|reflexivity..].
      rewrite (xisoslice_lookup sum [[0; 1; 2; 3; 4]%float]
                 [[0; 1; 2; 3; 4]%float] 2%float 0 _ _ eq_refl eq_refl), Hres.
      by subst.
    + destruct (double_crossing_column sum Hsum _ _ 1 sample_double_crossing
                  [0; 10; 50; 30; 40]%float 1%float 2%float 3%float
                  10%float 50%float 30%float
                  eq_refl eq_refl eq_refl eq_refl eq_refl eq_refl)
        as (propl & propu & varl & varu & Hpl & Hpu & Hvl & Hvu & Hres).
      apply (sum_of_two_nonzero _ _ _ (-1)%float) in Hpl; [|reflexivity..].
      apply (sum_of_two_nonzero _ _ _ 1%float) in Hpu; [|reflexivity..].
      apply (sum_of_two_nonzero _ _ _ 60%float) in Hvl; [|reflexivity..].
      apply (sum_of_two_nonzero _ _ _ 80%float) in Hvu; [|reflexivity..].
      rewrite (xisoslice_lookup sum [[0; 1; 2; 3; 4]%float]
                 [[0; 10; 50; 30; 40]%float] 2%float 0 _ _ eq_refl eq_refl), Hres.
      by subst.
Qed.

Lemma xisoslice_halving_witness :
  xisoslice_with sum_skipna [[0; 1; 2; 3; 4]%float] 2%float
    [[0; 1; 2; 3; 4]%float] = [2%float] ∧
  xisoslice_with sum_skipna [[0; 1; 2; 3; 4]%float] 2%float
    [[0; 10; 50; 30; 40]%float] = [35%float].
Proof.
  apply (proj2 (proj2 xisoslice_halving) sum_skipna
           (@sum_skipna_reduction float binary64_ops binary64_laws)).
Defined.

(** ** Running computations on the store *)

Ltac decide_closed := apply (bool_decide_unpack _); vm_compute; exact I.

Section Store.
Implicit Types (σ : store) (l : loc) (da : DataArray).

Lemma bind_inv {A B : Type} (m : M A) (k : A → M B) σ (r : result B) σ' :
  bind m k σ = (r, σ') →
  (∃ a σ1, m σ = (Ok a, σ1) ∧ k a σ1 = (r, σ')) ∨
  (∃ e, m σ = (Raise e, σ') ∧ r = Raise e).
Proof.
  unfold bind. destruct (m σ) as [[a|e] σ1]; intros Hk.
  - left. by exists a, σ1.
  - right. exists e. by simplify_eq.
Qed.

Lemma bind_ok {A B : Type} (m : M A) (k : A → M B) σ (a : A) σ1 :
  m σ = (Ok a, σ1) → bind m k σ = k a σ1.
Proof. unfold bind. by intros ->. Qed.

Lemma bind_raise {A B : Type} (m : M A) (k : A → M B) σ (e : exn) σ1 :
  m σ = (Raise e, σ1) → bind m k σ = (Raise e, σ1).
Proof. unfold bind. by intros ->. Qed.

Lemma load_ok l σ da : heap σ !! l = Some da → load l σ = (Ok da, σ).
Proof. unfold load. by intros ->. Qed.

Lemma modify_ok l (f : DataArray → DataArray) σ da :
  heap σ !! l = Some da →
  modify l f σ = (Ok tt, mkStore (<[l := f da]> (heap σ)) (log σ)).
Proof. unfold modify. by intros ->. Qed.

Lemma store_eta σ : mkStore (heap σ) (log σ) = σ.
Proof. by destruct σ. Qed.

Lemma with_name_id da : with_name (name da) da = da.
Proof. by destruct da. Qed.

(** Assigning an object the name it has changes nothing. *)
Lemma set_name_same l σ da :
  heap σ !! l = Some da → set_name l (name da) σ = (Ok tt, σ).
Proof.
  intros Hl. unfold set_name. rewrite (modify_ok _ _ _ _ Hl).
  by rewrite with_name_id, insert_id, store_eta.
Qed.

Lemma evolves_refl σ : evolves σ σ.
Proof. by intros l da. Qed.

Lemma evolves_trans σ1 σ2 σ3 : evolves σ1 σ2 → evolves σ2 σ3 → evolves σ1 σ3.
Proof. intros H12 H23 l da Hl. by apply H23, H12. Qed.

Lemma evolves_fresh σ σ' l : evolves σ σ' → heap σ' !! l = None → heap σ !! l = None.
Proof.
  intros Hev Hn. destruct (heap σ !! l) as [da|] eqn:E; [|done].
  apply Hev in E. by rewrite Hn in E.
Qed.

Lemma alloc_fresh σ : heap σ !! fresh (dom (heap σ)) = None.
Proof. apply not_elem_of_dom, is_fresh. Qed.

Lemma evolves_alloc σ da (cs : list call) :
  evolves σ (mkStore (<[fresh (dom (heap σ)) := da]> (heap σ)) cs).
Proof.
  intros l da' Hl. simpl. rewrite lookup_insert_ne; [done|].
  intros <-. by rewrite alloc_fresh in Hl.
Qed.

Lemma evolves_log σ (cs : list call) : evolves σ (mkStore (heap σ) cs).
Proof. by intros l da. Qed.
End Store.

(** ** Regridding steps *)

Lemma axes_horizontal : [X; Y] ⊆ [X; Y; Z].
Proof. intros ax. rewrite !elem_of_cons. tauto. Qed.

Lemma axes_vertical : [Z] ⊆ [X; Y; Z].
Proof. intros ax. rewrite !elem_of_cons. tauto. Qed.

Lemma axis_X_horizontal : X ∈ [X; Y].
Proof. rewrite !elem_of_cons. tauto. Qed.

Lemma axis_Y_horizontal : Y ∈ [X; Y].
Proof. rewrite !elem_of_cons. tauto. Qed.

Lemma axis_Z_vertical : Z ∈ [Z].
Proof. rewrite !elem_of_cons. tauto. Qed.

Section Regrid.
Variable grid : Grid.
Implicit Types (σ : store) (l : loc) (da : DataArray) (r : result loc).

(** The three ways a call of [grid.interp] on an existing object ends. *)
Lemma grid_interp_inv l ax to b σ da r σ' :
  heap σ !! l = Some da →
  grid_interp grid l ax to b σ = (r, σ') →
  (∃ e, interp grid da ax to b = Raise e ∧ r = Raise e ∧
        σ' = mkStore (heap σ) (log σ ++ [CInterp ax to b])) ∨
  (∃ da', interp grid da ax to b = Ok da' ∧ r = Ok (fresh (dom (heap σ))) ∧
          σ' = mkStore (<[fresh (dom (heap σ)) := da']> (heap σ))
                 (log σ ++ [CInterp ax to b])).
Proof.
  intros Hl. unfold grid_interp.
  rewrite (bind_ok _ _ _ _ _ (load_ok _ _ _ Hl)).
  unfold bind, record, lift, alloc. simpl.
  destruct (interp grid da ax to b) as [da'|e]; intros ?; simplify_eq.
  - right. by exists da'.
  - left. by exists e.
Qed.

Lemma interp_unless_noop d l ax to b σ da :
  heap σ !! l = Some da → d ∈ dims da →
  interp_unless d l grid ax to b σ = (Ok l, σ).
Proof.
  intros Hl Hd. unfold interp_unless.
  rewrite (bind_ok _ _ _ _ _ (load_ok _ _ _ Hl)).
  by rewrite bool_decide_eq_true_2.
Qed.

Lemma interp_unless_inv d l ax to b σ da r σ' :
  heap σ !! l = Some da →
  interp_unless d l grid ax to b σ = (r, σ') →
  (d ∈ dims da ∧ r = Ok l ∧ σ' = σ) ∨
  ((d ∉ dims da) ∧ grid_interp grid l ax to b σ = (r, σ')).
Proof.
  intros Hl. unfold interp_unless.
  rewrite (bind_ok _ _ _ _ _ (load_ok _ _ _ Hl)).
  destruct (decide (d ∈ dims da)) as [Hd|Hd].
  - rewrite bool_decide_eq_true_2 by done. simpl. unfold ret.
    intros ?; simplify_eq. by left.
  - rewrite bool_decide_eq_false_2 by done. simpl. by right.
Qed.

Lemma regrid_run_refl axs l σ : regrid_run grid axs l σ (Ok l) σ.
Proof.
  split; [apply evolves_refl|]. split; [|by left].
  exists []. by rewrite app_nil_r.
Qed.

Lemma regrid_run_trans axs l σ l1 σ1 r σ2 :
  regrid_run grid axs l σ (Ok l1) σ1 →
  regrid_run grid axs l1 σ1 r σ2 →
  regrid_run grid axs l σ r σ2.
Proof.
  intros (Hev1 & (cs1 & Hlog1 & Hcs1) & Hr1) (Hev2 & (cs2 & Hlog2 & Hcs2) & Hr2).
  split; [by eapply evolves_trans|]. split.
  - exists (cs1 ++ cs2). split; [|by apply Forall_app].
    by rewrite Hlog2, Hlog1, (assoc_L (++)).
  - destruct r as [l2|e]; [|done].
    destruct Hr2 as [[-> ->]|[Hnew Hex]]; [done|]. right. split; [|done].
    by eapply evolves_fresh.
Qed.

Lemma regrid_run_weaken axs axs' l σ r σ' :
  axs ⊆ axs' → regrid_run grid axs l σ r σ' → regrid_run grid axs' l σ r σ'.
Proof.
  intros Hsub (Hev & (cs & Hlog & Hcs) & Hr). split; [done|]. split; [|done].
  exists cs. split; [done|]. revert Hcs. apply Forall_impl.
  intros [ax ? ?|]; simpl; [|done]. intros Hin. by apply (Hsub ax).
Qed.

Lemma regrid_run_exists axs l σ l' σ' :
  is_Some (heap σ !! l) → regrid_run grid axs l σ (Ok l') σ' →
  is_Some (heap σ' !! l').
Proof. intros Hl (_ & _ & [[-> ->]|[_ Hex]]); done. Qed.

Lemma interp_unless_run d l ax to b axs σ r σ' :
  ax ∈ axs → is_Some (heap σ !! l) →
  interp_unless d l grid ax to b σ = (r, σ') →
  regrid_run grid axs l σ r σ'.
Proof.
  intros Hax [da Hl] Hrun.
  destruct (interp_unless_inv _ _ _ _ _ _ _ _ _ Hl Hrun)
    as [(_ & -> & ->)|[_ Hint]]; [apply regrid_run_refl|].
  destruct (grid_interp_inv _ _ _ _ _ _ _ _ Hl Hint)
    as [(e & He & -> & ->)|(da' & Hda' & -> & ->)].
  - split; [apply evolves_log|]. split; [|by exists da, ax, to, b].
    exists [CInterp ax to b]. split; [done|]. by apply Forall_singleton.
  - split; [apply evolves_alloc|]. split.
    + exists [CInterp ax to b]. split; [done|]. by apply Forall_singleton.
    + right. split; [apply alloc_fresh|]. simpl. by rewrite lookup_insert_eq.
Qed.

(** Two steps, one along X and one along Y: the shape of [to_rho],
    [to_psi], [to_u] and [to_v]. *)
Lemma two_step_run dx px dy py b l σ r σ' :
  is_Some (heap σ !! l) →
  (let* var := interp_unless dx l grid X px b in
   let* var := interp_unless dy var grid Y py b in
   ret var) σ = (r, σ') →
  regrid_run grid [X; Y] l σ r σ'.
Proof.
  intros Hl Hrun.
  apply bind_inv in Hrun as [(l1 & σ1 & H1 & Hrun)|(e & H1 & ->)].
  2: { exact (interp_unless_run _ _ _ _ _ _ _ _ _ axis_X_horizontal Hl H1). }
  apply (interp_unless_run _ _ _ _ _ _ _ _ _ axis_X_horizontal Hl) in H1.
  eapply regrid_run_trans; [done|].
  pose proof (regrid_run_exists _ _ _ _ _ Hl H1) as Hl1.
  apply bind_inv in Hrun as [(l2 & σ2 & H2 & Hrun)|(e & H2 & ->)].
  - unfold ret in Hrun. simplify_eq.
    exact (interp_unless_run _ _ _ _ _ _ _ _ _ axis_Y_horizontal Hl1 H2).
  - exact (interp_unless_run _ _ _ _ _ _ _ _ _ axis_Y_horizontal Hl1 H2).
Qed.

Lemma one_step_run d p b l σ r σ' :
  is_Some (heap σ !! l) →
  (let* var := interp_unless d l grid Z p b in ret var) σ = (r, σ') →
  regrid_run grid [Z] l σ r σ'.
Proof.
  intros Hl Hrun.
  apply bind_inv in Hrun as [(l1 & σ1 & H1 & Hrun)|(e & H1 & ->)].
  - unfold ret in Hrun. simplify_eq.
    exact (interp_unless_run _ _ _ _ _ _ _ _ _ axis_Z_vertical Hl H1).
  - exact (interp_unless_run _ _ _ _ _ _ _ _ _ axis_Z_vertical Hl H1).
Qed.

Lemma assert_true (P : Prop) `{Decision P} (msg : string) σ :
  P → assert (bool_decide P) msg σ = (Ok tt, σ).
Proof. intros HP. by rewrite bool_decide_eq_true_2. Qed.

Lemma assert_false (P : Prop) `{Decision P} (msg : string) σ :
  ¬ P → assert (bool_decide P) msg σ = (Raise (AssertionError msg), σ).
Proof. intros HP. by rewrite bool_decide_eq_false_2. Qed.

Lemma to_grid_h_run hcoord l σ r σ' :
  valid_hcoord hcoord → is_Some (heap σ !! l) →
  to_grid_h l grid hcoord σ = (r, σ') →
  regrid_run grid [X; Y] l σ r σ'.
Proof.
  intros Hv Hl. destruct hcoord as [h|]; simpl.
  2: { unfold ret. intros [= <- <-]. apply regrid_run_refl. }
  rewrite (bind_ok _ _ _ _ _ (assert_true _ _ _ Hv)).
  repeat (destruct (bool_decide _)); try (by apply two_step_run).
  unfold ret. intros [= <- <-]. apply regrid_run_refl.
Qed.

Lemma to_grid_s_run scoord l σ r σ' :
  valid_scoord scoord → is_Some (heap σ !! l) →
  to_grid_s l grid scoord σ = (r, σ') →
  regrid_run grid [Z] l σ r σ'.
Proof.
  intros Hv Hl. destruct scoord as [s|]; simpl.
  2: { unfold ret. intros [= <- <-]. apply regrid_run_refl. }
  rewrite (bind_ok _ _ _ _ _ (assert_true _ _ _ Hv)).
  repeat (destruct (bool_decide _)); try (by apply one_step_run).
  unfold ret. intros [= <- <-]. apply regrid_run_refl.
Qed.

Lemma to_grid_h_invalid h l σ :
  h ∉ hcoords →
  to_grid_h l grid (Some h) σ = (Raise (AssertionError (hcoord_message h)), σ).
Proof.
  intros Hh. simpl. by rewrite (bind_raise _ _ _ _ _ (assert_false _ _ _ Hh)).
Qed.

Lemma to_grid_s_invalid s l σ :
  s ∉ scoords →
  to_grid_s l grid (Some s) σ = (Raise (AssertionError (scoord_message s)), σ).
Proof.
  intros Hs. simpl. by rewrite (bind_raise _ _ _ _ _ (assert_false _ _ _ Hs)).
Qed.

(** *** [to_grid] as a whole *)

Lemma to_grid_unbound hcoord scoord l σ :
  heap σ !! l = None →
  to_grid l grid hcoord scoord σ = (Raise (NameError "unbound reference"), σ).
Proof. intros Hl. unfold to_grid, bind, load. by rewrite Hl. Qed.

(** The last step, [var.name = name], after a chain of regridding steps. *)
Lemma rename_after_run axs l σ da l2 σ2 r σ' :
  heap σ !! l = Some da →
  regrid_run grid axs l σ (Ok l2) σ2 →
  (set_name l2 (name da) ;;; ret l2) σ2 = (r, σ') →
  r = Ok l2 ∧ regrid_run grid axs l σ (Ok l2) σ' ∧
  ∃ da2, heap σ2 !! l2 = Some da2 ∧
         heap σ' !! l2 = Some (with_name (name da) da2).
Proof.
  intros Hl Hrun Hset.
  destruct (regrid_run_exists _ _ _ _ _ (mk_is_Some _ _ Hl) Hrun) as [da2 Hl2].
  unfold set_name in Hset.
  rewrite (bind_ok _ _ _ _ _ (modify_ok _ _ _ _ Hl2)) in Hset.
  unfold ret in Hset. simplify_eq. split; [done|].
  split; [|exists da2; split; [done|]; simpl; by rewrite lookup_insert_eq].
  destruct Hrun as (Hev & Hlog & [[-> ->]|[Hnew Hex]]).
  - simplify_eq. rewrite with_name_id, insert_id, store_eta by done.
    apply regrid_run_refl.
  - split; [|split; [done|]].
    + intros l0 da0 Hl0. simpl. rewrite lookup_insert_ne; [by apply Hev|].
      intros <-. by rewrite Hnew in Hl0.
    + right. split; [done|]. simpl. by rewrite lookup_insert_eq.
Qed.

Lemma to_grid_run hcoord scoord l σ da r σ' :
  valid_hcoord hcoord → valid_scoord scoord →
  heap σ !! l = Some da →
  to_grid l grid hcoord scoord σ = (r, σ') →
  regrid_run grid [X; Y; Z] l σ r σ' ∧
  ∀ l', r = Ok l' → ∃ da', heap σ' !! l' = Some da' ∧ name da' = name da.
Proof.
  intros Hvh Hvs Hl. unfold to_grid.
  rewrite (bind_ok _ _ _ _ _ (load_ok _ _ _ Hl)).
  intros [(l1 & σ1 & H1 & Hrun)|(e & H1 & ->)]%bind_inv.
  2: { apply to_grid_h_run in H1; [|done..]. split; [|done].
       by apply (regrid_run_weaken _ _ _ _ _ _ axes_horizontal). }
  apply to_grid_h_run in H1; [|done..].
  pose proof (regrid_run_exists _ _ _ _ _ (mk_is_Some _ _ Hl) H1) as Hl1.
  apply (regrid_run_weaken _ _ _ _ _ _ axes_horizontal) in H1.
  apply bind_inv in Hrun as [(l2 & σ2 & H2 & Hrun)|(e & H2 & ->)].
  2: { apply to_grid_s_run in H2; [|done..]. split; [|done].
       eapply regrid_run_trans; [done|].
       by apply (regrid_run_weaken _ _ _ _ _ _ axes_vertical). }
  apply to_grid_s_run in H2; [|done..].
  apply (regrid_run_weaken _ _ _ _ _ _ axes_vertical) in H2.
  pose proof (regrid_run_trans _ _ _ _ _ _ _ H1 H2) as H12.
  destruct (rename_after_run _ _ _ _ _ _ _ _ Hl H12 Hrun)
    as (-> & Hfin & da2 & _ & Hl2).
  split; [done|]. intros l' ?; simplify_eq. by eexists.
Qed.

(** Whatever the arguments, [to_grid] leaves every existing object as it
    was, and what it returns is its argument or a new object. *)
Lemma to_grid_evolves hcoord scoord l σ r σ' :
  to_grid l grid hcoord scoord σ = (r, σ') →
  evolves σ σ' ∧ ∀ l', r = Ok l' → l' = l ∨ heap σ !! l' = None.
Proof.
  destruct (heap σ !! l) as [da|] eqn:Hl.
  2: { rewrite (to_grid_unbound _ _ _ _ Hl). intros ?; simplify_eq.
       split; [apply evolves_refl|done]. }
  destruct (decide (valid_hcoord hcoord)) as [Hvh|Hvh].
  2: { destruct hcoord as [h|]; [|by destruct Hvh].
       unfold to_grid. rewrite (bind_ok _ _ _ _ _ (load_ok _ _ _ Hl)).
       rewrite (bind_raise _ _ _ _ _ (to_grid_h_invalid _ _ _ Hvh)).
       intros ?; simplify_eq. split; [apply evolves_refl|done]. }
  destruct (decide (valid_scoord scoord)) as [Hvs|Hvs].
  - intros Hrun.
    destruct (to_grid_run _ _ _ _ _ _ _ Hvh Hvs Hl Hrun) as [(Hev & _ & Hr) _].
    split; [done|]. intros l' ->. destruct Hr as [[-> _]|[Hnew _]]; auto.
  - destruct scoord as [s|]; [|by destruct Hvs].
    unfold to_grid. rewrite (bind_ok _ _ _ _ _ (load_ok _ _ _ Hl)).
    intros [(l1 & σ1 & H1 & Hrun)|(e & H1 & ->)]%bind_inv.
    + rewrite (bind_raise _ _ _ _ _ (to_grid_s_invalid _ _ _ Hvs)) in Hrun.
      simplify_eq. apply to_grid_h_run in H1 as (Hev & _); done.
    + apply to_grid_h_run in H1 as (Hev & _); done.
Qed.

(** *** Where the steps land, for a grid that regrids *)

Lemma interp_unless_lands d l ax to b σ da l1 σ1 :
  regrids grid → coord_name ax to = Some d →
  heap σ !! l = Some da →
  interp_unless d l grid ax to b σ = (Ok l1, σ1) →
  ∃ da1, heap σ1 !! l1 = Some da1 ∧ d ∈ dims da1 ∧
         ∀ d0, d0 ∈ dims da → d0 ∉ axis_dims ax → d0 ∈ dims da1.
Proof.
  intros Hgrid Hd Hl Hrun.
  destruct (interp_unless_inv _ _ _ _ _ _ _ _ _ Hl Hrun)
    as [(Hin & ? & ->)|[_ Hint]]; simplify_eq.
  { exists da. by repeat split. }
  destruct (grid_interp_inv _ _ _ _ _ _ _ _ Hl Hint)
    as [(e & _ & ? & _)|(da' & Hda' & ? & ->)]; simplify_eq.
  exists da'. simpl. rewrite lookup_insert_eq. split; [done|].
  destruct (Hgrid _ _ _ _ _ Hda') as [(d' & Hd' & Hin) Hkeep].
  rewrite Hd in Hd'. by simplify_eq.
Qed.

Lemma two_step_lands dx px dy py b l σ da l2 σ2 :
  regrids grid →
  coord_name X px = Some dx → coord_name Y py = Some dy →
  dx ∉ axis_dims Y →
  heap σ !! l = Some da →
  (let* var := interp_unless dx l grid X px b in
   let* var := interp_unless dy var grid Y py b in
   ret var) σ = (Ok l2, σ2) →
  ∃ da2, heap σ2 !! l2 = Some da2 ∧ dx ∈ dims da2 ∧ dy ∈ dims da2.
Proof.
  intros Hgrid Hdx Hdy Hne Hl Hrun.
  apply bind_inv in Hrun as [(l1 & σ1 & H1 & Hrun)|(e & _ & ?)]; [|done].
  destruct (interp_unless_lands _ _ _ _ _ _ _ _ _ Hgrid Hdx Hl H1)
    as (da1 & Hl1 & Hin1 & _).
  apply bind_inv in Hrun as [(l2' & σ2' & H2 & Hrun)|(e & _ & ?)]; [|done].
  unfold ret in Hrun. simplify_eq.
  destruct (interp_unless_lands _ _ _ _ _ _ _ _ _ Hgrid Hdy Hl1 H2)
    as (da2 & Hl2 & Hin2 & Hkeep).
  exists da2. auto.
Qed.

Lemma two_step_noop dx px dy py b l σ da :
  heap σ !! l = Some da → dx ∈ dims da → dy ∈ dims da →
  (let* var := interp_unless dx l grid X px b in
   let* var := interp_unless dy var grid Y py b in
   ret var) σ = (Ok l, σ).
Proof.
  intros Hl Hx Hy.
  rewrite (bind_ok _ _ _ _ _ (interp_unless_noop _ _ _ _ _ _ _ Hl Hx)).
  by rewrite (bind_ok _ _ _ _ _ (interp_unless_noop _ _ _ _ _ _ _ Hl Hy)).
Qed.

Lemma one_step_noop d p b l σ da :
  heap σ !! l = Some da → d ∈ dims da →
  (let* var := interp_unless d l grid Z p b in ret var) σ = (Ok l, σ).
Proof.
  intros Hl Hd.
  by rewrite (bind_ok _ _ _ _ _ (interp_unless_noop _ _ _ _ _ _ _ Hl Hd)).
Qed.

Lemma to_grid_h_lands hcoord l σ da l1 σ1 :
  regrids grid → heap σ !! l = Some da →
  to_grid_h l grid hcoord σ = (Ok l1, σ1) →
  ∃ da1, heap σ1 !! l1 = Some da1 ∧ ∀ d, d ∈ h_targets hcoord → d ∈ dims da1.
Proof.
  intros Hgrid Hl. unfold to_grid_h, h_targets.
  destruct hcoord as [h|].
  2: { unfold ret. intros [= <- <-]. exists da. split; [done|].
       by intros d ?%elem_of_nil. }
  intros [([] & σ0 & Ha & Hrun)|(e & _ & ?)]%bind_inv; [|done].
  assert (σ0 = σ) as Hσ.
  { unfold assert in Ha. destruct (bool_decide (h ∈ hcoords));
      unfold ret, raise in Ha; by simplify_eq. }
  subst σ0. clear Ha.
  repeat (destruct (bool_decide (h = _)));
    try (eapply two_step_lands in Hrun as (da1 & Hl1 & Hx & Hy);
         [exists da1; split; [done|];
          intros d; rewrite !elem_of_cons, elem_of_nil; by intros [->|[->|[]]]
         |done|done|done
         |unfold axis_dims; rewrite !elem_of_cons, elem_of_nil; by intros [|[|[]]]
         |done]).
  unfold ret in Hrun. simplify_eq. exists da. split; [done|].
  by intros d ?%elem_of_nil.
Qed.

Lemma to_grid_h_noop hcoord l σ da :
  valid_hcoord hcoord → heap σ !! l = Some da →
  (∀ d, d ∈ h_targets hcoord → d ∈ dims da) →
  to_grid_h l grid hcoord σ = (Ok l, σ).
Proof.
  intros Hv Hl Hin. unfold to_grid_h, h_targets in *.
  destruct hcoord as [h|]; [|done].
  rewrite (bind_ok _ _ _ _ _ (assert_true _ _ _ Hv)).
  repeat (destruct (bool_decide (h = _)));
    try (apply (two_step_noop _ _ _ _ _ _ _ _ Hl);
         apply Hin; rewrite !elem_of_cons; tauto).
  done.
Qed.

Lemma to_grid_s_lands scoord l σ da l1 σ1 :
  regrids grid → heap σ !! l = Some da →
  to_grid_s l grid scoord σ = (Ok l1, σ1) →
  ∃ da1, heap σ1 !! l1 = Some da1 ∧
         (∀ d, d ∈ s_targets scoord → d ∈ dims da1) ∧
         (∀ d, d ∈ dims da → d ∉ axis_dims Z → d ∈ dims da1).
Proof.
  intros Hgrid Hl. unfold to_grid_s, s_targets.
  destruct scoord as [s|].
  2: { unfold ret. intros [= <- <-]. exists da. split; [done|].
       split; [by intros d ?%elem_of_nil|done]. }
  intros [([] & σ0 & Ha & Hrun)|(e & _ & ?)]%bind_inv; [|done].
  assert (σ0 = σ) as Hσ.
  { unfold assert in Ha. destruct (bool_decide (s ∈ scoords));
      unfold ret, raise in Ha; by simplify_eq. }
  subst σ0. clear Ha.
  repeat (destruct (bool_decide (s ∈ _ :: _)));
    try (apply bind_inv in Hrun as [(l' & σ' & H1 & Hrun)|(e & _ & ?)]; [|done];
         unfold ret in Hrun; simplify_eq;
         eapply interp_unless_lands in H1 as (da1 & Hl1 & Hd & Hkeep);
         [exists da1; split; [done|]; split; [|done];
          intros d; rewrite !elem_of_cons, elem_of_nil; by intros [->|[]]
         |done|done|done]).
  unfold ret in Hrun. simplify_eq. exists da. split; [done|].
  split; [by intros d ?%elem_of_nil|done].
Qed.

Lemma to_grid_s_noop scoord l σ da :
  valid_scoord scoord → heap σ !! l = Some da →
  (∀ d, d ∈ s_targets scoord → d ∈ dims da) →
  to_grid_s l grid scoord σ = (Ok l, σ).
Proof.
  intros Hv Hl Hin. unfold to_grid_s, s_targets in *.
  destruct scoord as [s|]; [|done].
  rewrite (bind_ok _ _ _ _ _ (assert_true _ _ _ Hv)).
  repeat (destruct (bool_decide (s ∈ _ :: _)));
    try (apply (one_step_noop _ _ _ _ _ _ Hl);
         apply Hin; rewrite !elem_of_cons; tauto).
  done.
Qed.

Lemma h_targets_not_vertical hcoord d :
  d ∈ h_targets hcoord → d ∉ axis_dims Z.
Proof.
  unfold h_targets. destruct hcoord as [h|]; [|by intros ?%elem_of_nil].
  repeat (destruct (bool_decide (h = _)));
    try (by intros ?%elem_of_nil);
    unfold axis_dims; rewrite !elem_of_cons, !elem_of_nil;
    by intros [->|[->|[]]] [?|[?|[]]].
Qed.

(** Where [to_grid] lands: on an object that carries the dimension names
    of both arguments. *)
Lemma to_grid_lands hcoord scoord l σ l' σ' :
  regrids grid →
  to_grid l grid hcoord scoord σ = (Ok l', σ') →
  ∃ da', heap σ' !! l' = Some da' ∧
         (∀ d, d ∈ h_targets hcoord → d ∈ dims da') ∧
         (∀ d, d ∈ s_targets scoord → d ∈ dims da').
Proof.
  intros Hgrid Hrun.
  destruct (heap σ !! l) as [da|] eqn:Hl.
  2: { by rewrite (to_grid_unbound _ _ _ _ Hl) in Hrun. }
  unfold to_grid in Hrun.
  rewrite (bind_ok _ _ _ _ _ (load_ok _ _ _ Hl)) in Hrun.
  apply bind_inv in Hrun as [(l1 & σ1 & H1 & Hrun)|(e & _ & ?)]; [|done].
  apply bind_inv in Hrun as [(l2 & σ2 & H2 & Hrun)|(e & _ & ?)]; [|done].
  destruct (to_grid_h_lands _ _ _ _ _ _ Hgrid Hl H1) as (da1 & Hl1 & Hh).
  destruct (to_grid_s_lands _ _ _ _ _ _ Hgrid Hl1 H2) as (da2 & Hl2 & Hs & Hkeep).
  unfold set_name in Hrun.
  rewrite (bind_ok _ _ _ _ _ (modify_ok _ _ _ _ Hl2)) in Hrun.
  unfold ret in Hrun. simplify_eq.
  exists (with_name (name da) da2). simpl. rewrite lookup_insert_eq.
  split; [done|]. split; [|done].
  intros d Hd. apply Hkeep; [by apply Hh|by eapply h_targets_not_vertical].
Qed.

Lemma h_targets_carries (ds : list string) (h : string) :
  h ∈ hcoords → (∀ d, d ∈ h_targets (Some h) → d ∈ ds) → carries ds h.
Proof.
  unfold hcoords. rewrite !elem_of_cons, elem_of_nil.
  intros [->|[->|[->|[->|[]]]]] Hin.
  - exists ("eta_rho", "xi_rho").
    split; [decide_closed|]. split; apply Hin; decide_closed.
  - exists ("eta_v", "xi_u").
    split; [decide_closed|]. split; apply Hin; decide_closed.
  - exists ("eta_rho", "xi_u").
    split; [decide_closed|]. split; apply Hin; decide_closed.
  - exists ("eta_v", "xi_rho").
    split; [decide_closed|]. split; apply Hin; decide_closed.
Qed.

(** A second [to_grid] with the same arguments finds nothing to do. *)
Lemma to_grid_again hcoord scoord l σ l' σ' :
  regrids grid →
  to_grid l grid hcoord scoord σ = (Ok l', σ') →
  to_grid l' grid hcoord scoord σ' = (Ok l', σ').
Proof.
  intros Hgrid Hrun.
  destruct (heap σ !! l) as [da|] eqn:Hl.
  2: { by rewrite (to_grid_unbound _ _ _ _ Hl) in Hrun. }
  assert (valid_hcoord hcoord) as Hvh.
  { destruct (decide (valid_hcoord hcoord)) as [|Hvh]; [done|]. exfalso.
    destruct hcoord as [h|]; [|by destruct Hvh].
    unfold to_grid in Hrun.
    rewrite (bind_ok _ _ _ _ _ (load_ok _ _ _ Hl)) in Hrun.
    by rewrite (bind_raise _ _ _ _ _ (to_grid_h_invalid _ _ _ Hvh)) in Hrun. }
  unfold to_grid in Hrun.
  rewrite (bind_ok _ _ _ _ _ (load_ok _ _ _ Hl)) in Hrun.
  apply bind_inv in Hrun as [(l1 & σ1 & H1 & Hrun)|(e & _ & ?)]; [|done].
  assert (valid_scoord scoord) as Hvs.
  { destruct (decide (valid_scoord scoord)) as [|Hvs]; [done|]. exfalso.
    destruct scoord as [s|]; [|by destruct Hvs].
    by rewrite (bind_raise _ _ _ _ _ (to_grid_s_invalid _ _ _ Hvs)) in Hrun. }
  apply bind_inv in Hrun as [(l2 & σ2 & H2 & Hrun)|(e & _ & ?)]; [|done].
  destruct (to_grid_h_lands _ _ _ _ _ _ Hgrid Hl H1) as (da1 & Hl1 & Hh).
  destruct (to_grid_s_lands _ _ _ _ _ _ Hgrid Hl1 H2) as (da2 & Hl2 & Hs & Hkeep).
  unfold set_name in Hrun.
  rewrite (bind_ok _ _ _ _ _ (modify_ok _ _ _ _ Hl2)) in Hrun.
  unfold ret in Hrun. simplify_eq.
  set (da' := with_name (name da) da2).
  set (σ' := mkStore (<[l' := da']> (heap σ2)) (log σ2)).
  assert (heap σ' !! l' = Some da') as Hl' by apply lookup_insert_eq.
  unfold to_grid.
  rewrite (bind_ok _ _ _ _ _ (load_ok _ _ _ Hl')).
  rewrite (bind_ok _ _ _ _ _ (to_grid_h_noop _ _ _ _ Hvh Hl'
             (λ d Hd, Hkeep d (Hh d Hd) (h_targets_not_vertical _ _ Hd)))).
  rewrite (bind_ok _ _ _ _ _ (to_grid_s_noop _ _ _ _ Hvs Hl' Hs)).
  by rewrite (bind_ok _ _ _ _ _ (set_name_same _ _ _ Hl')).
Qed.
End Regrid.

Lemma sample_grid_regrids : regrids sample_grid.
Proof.
  intros da ax to boundary da'. simpl. unfold sample_interp.
  destruct (coord_name ax to) as [d|] eqn:Hd; [|done].
  destruct (on_axis ax (dims da)) eqn:Hon; [|done].
  intros [= <-]. simpl. split.
  - exists d. split; [done|].
    apply existsb_exists in Hon as (x & Hx%list_elem_of_In & Hax%bool_decide_eq_true).
    unfold relabel. apply list_elem_of_fmap. exists x.
    by rewrite bool_decide_eq_true_2.
  - intros d0 Hin Hnot. unfold relabel. apply list_elem_of_fmap. exists d0.
    by rewrite bool_decide_eq_false_2.
Defined.

(** ** Derivatives *)

Section Derivatives.
Variable grid : Grid.
Implicit Types (σ : store) (l : loc) (da : DataArray) (r : result loc).

Lemma with_attrs_id da : with_attrs (attrs da) da = da.
Proof. by destruct da. Qed.

Lemma fill_default_run l key value σ da :
  heap σ !! l = Some da →
  fill_default l key value σ
  = (Ok tt, mkStore (<[l := with_attrs (setdefault key value (attrs da)) da]> (heap σ))
              (log σ)).
Proof.
  intros Hl. unfold fill_default, setdefault.
  rewrite (bind_ok _ _ _ _ _ (load_ok _ _ _ Hl)).
  destruct (bool_decide (key ∈ dom (attrs da))); simpl.
  - by rewrite with_attrs_id, insert_id, store_eta.
  - unfold set_attr_item. by rewrite (modify_ok _ _ _ _ Hl).
Qed.

Lemma documented_lookup (a : gmap string string) (key value : string) :
  setdefault key value a !! key = Some (default value (a !! key)).
Proof.
  unfold setdefault. case_bool_decide as Hk.
  - apply elem_of_dom in Hk as [v Hv]. by rewrite Hv.
  - apply not_elem_of_dom in Hk. by rewrite Hk, lookup_insert_eq.
Qed.

Lemma setdefault_other (a : gmap string string) (key value key' : string) :
  key ≠ key' → setdefault key value a !! key' = a !! key'.
Proof.
  intros Hne. unfold setdefault. case_bool_decide; [done|].
  by rewrite lookup_insert_ne.
Qed.

Lemma setdefault_present (a : gmap string string) (key value : string) :
  key ∈ dom a → setdefault key value a = a.
Proof. intros Hk. unfold setdefault. by rewrite bool_decide_eq_true_2. Qed.

Lemma documented_present (a : gmap string string) :
  "name" ∈ dom a → "long_name" ∈ dom a → "units" ∈ dom a → documented a = a.
Proof.
  intros Hn Hl Hu. unfold documented.
  by rewrite (setdefault_present a "name"), (setdefault_present a "long_name"),
    (setdefault_present a "units").
Qed.

Lemma getattr_ok l key σ da (v : string) :
  heap σ !! l = Some da → attrs da !! key = Some v →
  getattr l key σ = (Ok v, σ).
Proof.
  intros Hl Hk. unfold getattr.
  rewrite (bind_ok _ _ _ _ _ (load_ok _ _ _ Hl)). by rewrite Hk.
Qed.

(** The defaults are written into the object [var] itself; the
    concatenation with [var.name] then raises for an unnamed object. *)
Lemma default_attrs_run l suffix long_prefix σ da :
  heap σ !! l = Some da →
  default_attrs l suffix long_prefix σ
  = (match name da with
     | Some n => Ok (derivative_attrs n suffix long_prefix (attrs da))
     | None => Raise (TypeError concat_none_message)
     end,
     mkStore (<[l := with_attrs (documented (attrs da)) da]> (heap σ)) (log σ)).
Proof.
  intros Hl. unfold default_attrs.
  rewrite (bind_ok _ _ _ _ _ (fill_default_run _ "name" "var" _ _ Hl)).
  set (da1 := with_attrs (setdefault "name" "var" (attrs da)) da).
  assert (heap (mkStore (<[l := da1]> (heap σ)) (log σ)) !! l = Some da1) as H1
    by apply lookup_insert_eq.
  rewrite (bind_ok _ _ _ _ _ (fill_default_run _ "long_name" "var" _ _ H1)).
  simpl. rewrite insert_insert_eq.
  set (da2 := with_attrs (setdefault "long_name" "var" (attrs da1)) da1).
  assert (heap (mkStore (<[l := da2]> (heap σ)) (log σ)) !! l = Some da2) as H2
    by apply lookup_insert_eq.
  rewrite (bind_ok _ _ _ _ _ (fill_default_run _ "units" "units" _ _ H2)).
  simpl. rewrite insert_insert_eq.
  change (setdefault "units" "units" _) with (documented (attrs da)).
  set (σ1 := mkStore _ _).
  assert (heap σ1 !! l = Some (with_attrs (documented (attrs da)) da)) as Hl1
    by apply lookup_insert_eq.
  rewrite (bind_ok _ _ _ _ _ (load_ok _ _ _ Hl1)). simpl.
  destruct (name da) as [n|]; [|done]. simpl.
  assert (documented (attrs da) !! "long_name"
          = Some (default "var" (attrs da !! "long_name"))) as Hlong.
  { unfold documented. by rewrite setdefault_other, documented_lookup,
      setdefault_other. }
  assert (documented (attrs da) !! "units"
          = Some (default "units" (attrs da !! "units"))) as Hunits.
  { unfold documented. by rewrite documented_lookup, !setdefault_other. }
  rewrite (bind_ok _ _ _ _ _ (eq_refl : ret n σ1 = (Ok n, σ1))).
  rewrite (bind_ok _ _ _ _ _ (getattr_ok _ _ _ _ _ Hl1 Hlong)).
  by rewrite (bind_ok _ _ _ _ _ (getattr_ok _ _ _ _ _ Hl1 Hunits)).
Qed.

Lemma grid_derivative_new l ax b fill σ r σ' :
  grid_derivative grid l ax b fill σ = (r, σ') →
  evolves σ σ' ∧ ∀ l', r = Ok l' → heap σ !! l' = None.
Proof.
  unfold grid_derivative, bind, load, record, lift, alloc.
  destruct (heap σ !! l) as [da|]; simpl.
  2: { intros [= <- <-]. split; [apply evolves_refl|done]. }
  destruct (derivative grid da ax b fill) as [da'|e]; intros [= <- <-].
  - split; [apply evolves_alloc|]. intros l' [= <-]. apply alloc_fresh.
  - split; [apply evolves_log|done].
Qed.

(** After the derivative: regrid, then [var.attrs = attrs].  Neither
    touches an object that existed before the derivative was taken. *)
Lemma derivative_tail (m : M loc) (a : gmap string string)
    (hcoord scoord : option string) σ r σ' :
  (∀ r1 σ1, m σ = (r1, σ1) →
     evolves σ σ1 ∧ ∀ l1, r1 = Ok l1 → heap σ !! l1 = None) →
  (let* var := m in
   let* var := to_grid var grid hcoord scoord in
   set_attrs var a ;;; ret var) σ = (r, σ') →
  evolves σ σ' ∧
  ∀ l', r = Ok l' → heap σ !! l' = None ∧
                    ∃ da', heap σ' !! l' = Some da' ∧ attrs da' = a.
Proof.
  intros Hm [(l1 & σ1 & H1 & Hrun)|(e & H1 & ->)]%bind_inv.
  2: { by destruct (Hm _ _ H1). }
  destruct (Hm _ _ H1) as [Hev1 Hnew1]. specialize (Hnew1 l1 eq_refl).
  apply bind_inv in Hrun as [(l2 & σ2 & H2 & Hrun)|(e & H2 & ->)].
  2: { apply to_grid_evolves in H2 as [Hev2 _]. split; [|done].
       by eapply evolves_trans. }
  apply to_grid_evolves in H2 as [Hev2 Hnew2]. specialize (Hnew2 l2 eq_refl).
  assert (heap σ !! l2 = None) as Hnew.
  { destruct Hnew2 as [->|Hn]; [done|]. by eapply evolves_fresh. }
  unfold set_attrs, modify, bind, ret in Hrun.
  destruct (heap σ2 !! l2) as [da2|] eqn:Hl2; simplify_eq.
  2: { split; [|done]. by eapply evolves_trans. }
  split.
  - intros l0 da0 Hl0. simpl. rewrite lookup_insert_ne.
    + by apply Hev2, Hev1.
    + intros <-. by rewrite Hnew in Hl0.
  - intros l' [= <-]. split; [done|]. eexists. simpl.
    by rewrite lookup_insert_eq.
Qed.

(** What a derivative leaves of its argument, and what it returns. *)
Lemma derivative_run (m : M loc) (suffix long_prefix : string)
    (given : option (gmap string string)) (hcoord scoord : option string)
    l σ da r σ' :
  heap σ !! l = Some da →
  (∀ σ0 r1 σ1, m σ0 = (r1, σ1) →
     evolves σ0 σ1 ∧ ∀ l1, r1 = Ok l1 → heap σ0 !! l1 = None) →
  (let* a :=
     match given with
     | None => default_attrs l suffix long_prefix
     | Some a => ret a
     end in
   let* var := m in
   let* var := to_grid var grid hcoord scoord in
   set_attrs var a ;;; ret var) σ = (r, σ') →
  heap σ' !! l
  = Some (match given with
          | Some _ => da
          | None => with_attrs (documented (attrs da)) da
          end) ∧
  ∀ l', r = Ok l' →
    ∃ da', heap σ' !! l' = Some da' ∧
      match given with
      | Some a => attrs da' = a
      | None => ∃ n, name da = Some n ∧
                     attrs da'
                     = derivative_attrs n suffix long_prefix (attrs da)
      end.
Proof.
  intros Hl Hm. destruct given as [a|].
  - rewrite (bind_ok _ _ _ _ _ (eq_refl : ret a σ = (Ok a, σ))).
    intros [Hev Hr]%(derivative_tail _ _ _ _ _ _ _ (Hm σ)).
    split; [by apply Hev|]. intros l' ->.
    by destruct (Hr l' eq_refl) as [_ Hda'].
  - pose proof (default_attrs_run l suffix long_prefix σ da Hl) as Hdef.
    set (σ0 := mkStore _ _) in Hdef.
    assert (heap σ0 !! l = Some (with_attrs (documented (attrs da)) da))
      as Hl0 by apply lookup_insert_eq.
    destruct (name da) as [n|].
    + rewrite (bind_ok _ _ _ _ _ Hdef).
      intros [Hev Hr]%(derivative_tail _ _ _ _ _ _ _ (Hm σ0)).
      split; [by apply Hev|]. intros l' ->.
      destruct (Hr l' eq_refl) as [_ (da' & Hl' & Ha)]. exists da'.
      split; [done|]. by exists n.
    + rewrite (bind_raise _ _ _ _ _ Hdef). intros [= <- <-]. by split.
Qed.

Lemma ddz_run (given : option (gmap string string))
    (hcoord scoord sboundary : option string) (sfill_value : xreal)
    l σ da r σ' :
  heap σ !! l = Some da →
  ddz l grid given hcoord scoord sboundary sfill_value σ = (r, σ') →
  heap σ' !! l
  = Some (match given with
          | Some _ => da
          | None => with_attrs (documented (attrs da)) da
          end) ∧
  ∀ l', r = Ok l' →
    ∃ da', heap σ' !! l' = Some da' ∧
      match given with
      | Some a => attrs da' = a
      | None => ∃ n, name da = Some n ∧
                     attrs da'
                     = derivative_attrs n "dz" "vertical derivative of "
                         (attrs da)
      end.
Proof.
  intros Hl. apply derivative_run; [done|].
  intros σ0 r1 σ1. apply grid_derivative_new.
Qed.

Lemma ddz_unnamed (hcoord scoord sboundary : option string)
    (sfill_value : xreal) l σ da :
  heap σ !! l = Some da → name da = None →
  run_result (ddz l grid None hcoord scoord sboundary sfill_value) σ
  = Raise (TypeError concat_none_message).
Proof.
  intros Hl Hn. unfold run_result, ddz.
  pose proof (default_attrs_run l "dz" "vertical derivative of " σ da Hl) as Hdef.
  rewrite Hn in Hdef. by rewrite (bind_raise _ _ _ _ _ Hdef).
Qed.

Lemma ddxi_run (hgrad : HGrad) (given : option (gmap string string))
    (hcoord scoord hboundary sboundary : option string)
    (hfill_value sfill_value : xreal) (z : option loc) l σ da r σ' :
  returns_new hgrad →
  heap σ !! l = Some da →
  ddxi hgrad l grid given hcoord scoord hboundary hfill_value sboundary
    sfill_value z σ = (r, σ') →
  heap σ' !! l
  = Some (match given with
          | Some _ => da
          | None => with_attrs (documented (attrs da)) da
          end).
Proof.
  intros Hnew Hl Hrun.
  eapply (derivative_run _ "dxi" "horizontal xi derivative of "); [done| |done].
  intros σ0 r1 σ1 Hh. exact (Hnew _ _ _ _ _ _ _ _ _ _ _ Hh).
Qed.

Lemma ddeta_run (hgrad : HGrad) (given : option (gmap string string))
    (hcoord scoord hboundary sboundary : option string)
    (hfill_value sfill_value : xreal) (z : option loc) l σ da r σ' :
  returns_new hgrad →
  heap σ !! l = Some da →
  ddeta hgrad l grid given hcoord scoord hboundary hfill_value sboundary
    sfill_value z σ = (r, σ') →
  heap σ' !! l
  = Some (match given with
          | Some _ => da
          | None => with_attrs (documented (attrs da)) da
          end).
Proof.
  intros Hnew Hl Hrun.
  eapply (derivative_run _ "deta" "horizontal eta derivative of "); [done| |done].
  intros σ0 r1 σ1 Hh. exact (Hnew _ _ _ _ _ _ _ _ _ _ _ Hh).
Qed.
End Derivatives.

Lemma sample_hgrad_returns_new : returns_new sample_hgrad.
Proof.
  intros var grid which z hb hf sb sf σ r σ' Hrun.
  by apply grid_derivative_new in Hrun.
Defined.

(** ** Grid identification *)

Ltac eval_grid_pairs :=
  repeat match goal with
    | |- context [grid_pairs ?g] =>
        let v := eval vm_compute in (grid_pairs g) in
        progress change (grid_pairs g) with v
    | H : context [grid_pairs ?g] |- _ =>
        let v := eval vm_compute in (grid_pairs g) in
        progress change (grid_pairs g) with v in H
    end.

Section IdGrid.
Implicit Types (ds : list string) (d g : string).

Lemma count_NoDup ds d :
  NoDup ds → count ds d = if bool_decide (d ∈ ds) then 1%nat else 0%nat.
Proof.
  intros Hnd. unfold count. case_bool_decide as Hin.
  - apply list_elem_of_In in Hin.
    apply NoDup_ListNoDup in Hnd. by apply NoDup_count_occ'.
  - apply count_occ_not_In. by rewrite <-list_elem_of_In.
Qed.

Lemma count_pair ds (a b : string) :
  NoDup ds →
  (count ds a + count ds b =? 2)%nat = bool_decide (a ∈ ds) && bool_decide (b ∈ ds).
Proof.
  intros Hnd. rewrite !count_NoDup by done.
  by destruct (bool_decide (a ∈ ds)), (bool_decide (b ∈ ds)).
Qed.

(** With distinct dimension names, [id_grid] returns the first position, in
    the order rho, u, v, psi, vert, one of whose pairs the field carries. *)
Lemma id_grid_find da :
  NoDup (dims da) → id_grid da = List.find (carriesb (dims da)) grids.
Proof.
  intros Hnd. unfold id_grid. rewrite !count_pair by done.
  unfold grids, carriesb. cbn [List.find].
  eval_grid_pairs. cbn. by rewrite !orb_false_r.
Qed.

Lemma carriesb_carries ds g : carriesb ds g = true ↔ carries ds g.
Proof.
  unfold carriesb, carries. rewrite existsb_exists. split.
  - intros (p & Hp%list_elem_of_In & [H1%bool_decide_eq_true H2%bool_decide_eq_true]%andb_prop).
    by exists p.
  - intros (p & Hp%list_elem_of_In & H1 & H2). exists p. split; [done|].
    by rewrite !bool_decide_eq_true_2.
Qed.

(** The eight pairs of names, each under its position. *)
Lemma grid_pairs_table (p : string * string) g :
  p ∈ grid_pairs g →
  (g, p) ∈ [("rho", ("eta_rho", "xi_rho")); ("u", ("eta_rho", "xi_u"));
            ("u", ("eta_u", "xi_u")); ("v", ("eta_v", "xi_rho"));
            ("v", ("eta_v", "xi_v")); ("psi", ("eta_v", "xi_u"));
            ("psi", ("eta_psi", "xi_psi")); ("vert", ("eta_vert", "xi_vert"))].
Proof.
  unfold grid_pairs.
  repeat case_bool_decide; subst; try (by intros ?%elem_of_nil);
    rewrite ?(elem_of_cons (_ :: _)), ?(elem_of_cons []), elem_of_nil;
    intros Hp; destruct_or?; try done; subst p; decide_closed.
Qed.

Lemma carries_grids ds g : carries ds g → g ∈ grids.
Proof.
  intros (p & Hp%grid_pairs_table & _). unfold grids.
  rewrite !elem_of_cons, elem_of_nil in Hp.
  destruct_or?; try done; simplify_eq; decide_closed.
Qed.

(** One name per horizontal axis leaves room for one position only. *)
Lemma carries_unique ds g g' :
  single_horizontal ds → carries ds g → carries ds g' → g = g'.
Proof.
  intros [Hxi Heta] ([e x] & Hp%grid_pairs_table & He & Hx)
    ([e' x'] & Hp'%grid_pairs_table & He' & Hx').
  simpl in *.
  rewrite !elem_of_cons, elem_of_nil in Hp, Hp'.
  destruct_or?; try done; simplify_eq; try done; exfalso;
    pose proof (λ H1 H2, Hxi _ _ H1 H2 Hx Hx') as Hcx;
    pose proof (λ H1 H2, Heta _ _ H1 H2 He He') as Hce;
    first [ discriminate (Hcx ltac:(decide_closed) ltac:(decide_closed))
          | discriminate (Hce ltac:(decide_closed) ltac:(decide_closed)) ].
Qed.
End IdGrid.
Section IdGridPositions.
Implicit Types (ds : list string) (d g : string).

(** What [id_grid] returns, by the pairs of names that the field carries. *)
Lemma id_grid_positions (da : DataArray) :
  NoDup (dims da) →
  (∀ g, id_grid da = Some g → g ∈ grids ∧ carries (dims da) g) ∧
  (id_grid da = None ↔ ∀ g, ¬ carries (dims da) g) ∧
  (single_horizontal (dims da) →
   ∀ g, carries (dims da) g → id_grid da = Some g).
Proof.
  intros Hnd. rewrite (id_grid_find _ Hnd).
  assert (∀ g, List.find (carriesb (dims da)) grids = Some g →
               g ∈ grids ∧ carries (dims da) g) as Hsome.
  { intros g [Hin Hc]%find_some. split; [by apply list_elem_of_In|].
    by apply carriesb_carries. }
  split; [done|]. split; [split|].
  - intros Hnone g Hc.
    pose proof (carries_grids _ _ Hc) as Hin%list_elem_of_In.
    apply carriesb_carries in Hc.
    by rewrite (find_none _ _ Hnone g Hin) in Hc.
  - intros Hno. destruct (List.find _ _) as [g|] eqn:Hf; [|done].
    destruct (Hsome g eq_refl) as [_ Hc]. by destruct (Hno g).
  - intros Hone g Hc.
    destruct (List.find _ _) as [g'|] eqn:Hf.
    + destruct (Hsome g' eq_refl) as [_ Hc'].
      by rewrite (carries_unique _ _ _ Hone Hc Hc').
    + pose proof (carries_grids _ _ Hc) as Hin%list_elem_of_In.
      apply carriesb_carries in Hc.
      by rewrite (find_none _ _ Hf g Hin) in Hc.
Qed.
End IdGridPositions.

(** ** The calls that regridding makes on the grid *)

Section Calls.
Variable grid : Grid.
Implicit Types (σ : store) (l : loc) (da : DataArray) (r : result loc)
  (plan : list call).

Lemma log_same σ (cs : list call) : log σ ++ cs = log σ ↔ cs = [].
Proof.
  split; [|intros ->; apply app_nil_r].
  intros Hcs. apply (app_inv_head (log σ)). by rewrite app_nil_r.
Qed.

Lemma calls_run_refl plan l σ : calls_run plan l σ (Ok l) σ.
Proof.
  split; [apply evolves_refl|]. exists []. rewrite app_nil_r.
  split; [done|]. split; [apply sublist_nil_l|]. by left.
Qed.

Lemma calls_run_raise plan l σ (e : exn) : calls_run plan l σ (Raise e) σ.
Proof.
  split; [apply evolves_refl|]. exists []. rewrite app_nil_r.
  split; [done|]. split; [apply sublist_nil_l|done].
Qed.

Lemma calls_run_app p1 p2 l σ l1 σ1 r σ2 :
  calls_run p1 l σ (Ok l1) σ1 →
  calls_run p2 l1 σ1 r σ2 →
  calls_run (p1 ++ p2) l σ r σ2.
Proof.
  intros (He1 & cs1 & Hlog1 & Hsub1 & H1) (He2 & cs2 & Hlog2 & Hsub2 & H2).
  split; [by eapply evolves_trans|]. exists (cs1 ++ cs2).
  split; [by rewrite Hlog2, Hlog1, app_assoc|].
  split; [by apply sublist_app|].
  destruct r as [l2|e]; [|done].
  destruct H2 as [(-> & -> & ->)|(Hne & Hnew & Hex)].
  - rewrite app_nil_r. done.
  - right. split; [by intros [_ ?]%app_eq_nil|].
    split; [by eapply evolves_fresh|done].
Qed.

Lemma calls_run_stop p1 p2 l σ (e : exn) σ1 :
  calls_run p1 l σ (Raise e) σ1 → calls_run (p1 ++ p2) l σ (Raise e) σ1.
Proof.
  intros (He1 & cs1 & Hlog1 & Hsub1 & _). split; [done|].
  exists cs1. split; [done|]. split; [by apply sublist_inserts_r|done].
Qed.

Lemma calls_run_exists plan l σ l' σ' :
  is_Some (heap σ !! l) → calls_run plan l σ (Ok l') σ' →
  is_Some (heap σ' !! l').
Proof. by intros Hl (_ & cs & _ & _ & [(_ & -> & ->)|(_ & _ & ?)]). Qed.

Lemma calls_run_log plan l σ r σ' :
  calls_run plan l σ r σ' → ∃ cs, log σ' = log σ ++ cs.
Proof. intros (_ & cs & Hlog & _). by exists cs. Qed.

Lemma interp_unless_calls d l ax to b σ r σ' :
  is_Some (heap σ !! l) →
  interp_unless d l grid ax to b σ = (r, σ') →
  calls_run [CInterp ax to b] l σ r σ'.
Proof.
  intros [da Hl] Hrun.
  destruct (interp_unless_inv _ _ _ _ _ _ _ _ _ _ Hl Hrun)
    as [(_ & -> & ->)|[_ Hint]]; [apply calls_run_refl|].
  destruct (grid_interp_inv _ _ _ _ _ _ _ _ _ Hl Hint)
    as [(e & He & -> & ->)|(da' & Hda' & -> & ->)].
  - split; [apply evolves_log|]. by exists [CInterp ax to b].
  - split; [apply evolves_alloc|]. exists [CInterp ax to b].
    split; [done|]. split; [done|]. right. split; [done|].
    split; [apply alloc_fresh|]. simpl. by rewrite lookup_insert_eq.
Qed.

(** No call is logged exactly when the dimension tested for is there. *)
Lemma interp_unless_silent d l ax to b σ da r σ' :
  heap σ !! l = Some da →
  interp_unless d l grid ax to b σ = (r, σ') →
  (log σ' = log σ ↔ d ∈ dims da).
Proof.
  intros Hl Hrun.
  destruct (interp_unless_inv _ _ _ _ _ _ _ _ _ _ Hl Hrun)
    as [(Hd & -> & ->)|[Hd Hint]]; [done|].
  split; [|done]. intros Hlog. exfalso.
  destruct (grid_interp_inv _ _ _ _ _ _ _ _ _ Hl Hint)
    as [(e & He & -> & ->)|(da' & Hda' & -> & ->)];
    simpl in Hlog; by apply log_same in Hlog.
Qed.

Lemma two_step_calls dx px dy py b l σ r σ' :
  is_Some (heap σ !! l) →
  (let* var := interp_unless dx l grid X px b in
   let* var := interp_unless dy var grid Y py b in
   ret var) σ = (r, σ') →
  calls_run [CInterp X px b; CInterp Y py b] l σ r σ'.
Proof.
  intros Hl Hrun.
  change [CInterp X px b; CInterp Y py b]
    with ([CInterp X px b] ++ [CInterp Y py b]).
  apply bind_inv in Hrun as [(l1 & σ1 & H1 & Hrun)|(e & H1 & ->)].
  2: { by apply calls_run_stop, (interp_unless_calls dx). }
  apply (interp_unless_calls _ _ _ _ _ _ _ _ Hl) in H1.
  eapply calls_run_app; [done|].
  pose proof (calls_run_exists _ _ _ _ _ Hl H1) as Hl1.
  apply bind_inv in Hrun as [(l2 & σ2 & H2 & Hrun)|(e & H2 & ->)].
  - unfold ret in Hrun. simplify_eq. by apply (interp_unless_calls dy).
  - by apply (interp_unless_calls dy).
Qed.

Lemma one_step_calls d p b l σ r σ' :
  is_Some (heap σ !! l) →
  (let* var := interp_unless d l grid Z p b in ret var) σ = (r, σ') →
  calls_run [CInterp Z p b] l σ r σ'.
Proof.
  intros Hl Hrun.
  apply bind_inv in Hrun as [(l1 & σ1 & H1 & Hrun)|(e & H1 & ->)].
  - unfold ret in Hrun. simplify_eq. by apply (interp_unless_calls d).
  - by apply (interp_unless_calls d).
Qed.

Lemma two_step_silent dx px dy py b l σ da r σ' :
  heap σ !! l = Some da →
  (let* var := interp_unless dx l grid X px b in
   let* var := interp_unless dy var grid Y py b in
   ret var) σ = (r, σ') →
  (log σ' = log σ ↔ dx ∈ dims da ∧ dy ∈ dims da).
Proof.
  intros Hl Hrun. split.
  2: { intros [Hx Hy].
       rewrite (two_step_noop grid dx px dy py b l σ da Hl Hx Hy) in Hrun.
       by simplify_eq. }
  intros Hlog.
  assert (dx ∈ dims da) as Hx.
  { apply bind_inv in Hrun as [(l1 & σ1 & H1 & Hrun)|(e & H1 & ->)].
    2: { by apply (interp_unless_silent _ _ _ _ _ _ _ _ _ Hl H1). }
    apply (interp_unless_silent _ _ _ _ _ _ _ _ _ Hl H1).
    pose proof (interp_unless_calls _ _ _ _ _ _ _ _ (mk_is_Some _ _ Hl) H1)
      as Hc1.
    pose proof (calls_run_exists _ _ _ _ _ (mk_is_Some _ _ Hl) Hc1) as Hl1.
    destruct (calls_run_log _ _ _ _ _ Hc1) as [cs1 Hlog1].
    assert (∃ cs2, log σ' = log σ1 ++ cs2) as [cs2 Hlog2].
    { apply bind_inv in Hrun as [(l2 & σ2 & H2 & Hrun)|(e & H2 & ->)].
      - unfold ret in Hrun. simplify_eq.
        by apply (calls_run_log _ _ _ _ _
                    (interp_unless_calls _ _ _ _ _ _ _ _ Hl1 H2)).
      - by apply (calls_run_log _ _ _ _ _
                    (interp_unless_calls _ _ _ _ _ _ _ _ Hl1 H2)). }
    rewrite Hlog2, Hlog1, <- app_assoc in Hlog.
    apply log_same, app_eq_nil in Hlog as [-> _].
    by rewrite Hlog1, app_nil_r. }
  split; [done|].
  rewrite (bind_ok _ _ _ _ _ (interp_unless_noop grid dx l X px b σ da Hl Hx))
    in Hrun.
  apply bind_inv in Hrun as [(l2 & σ2 & H2 & Hrun)|(e & H2 & ->)].
  - unfold ret in Hrun. simplify_eq.
    by apply (interp_unless_silent _ _ _ _ _ _ _ _ _ Hl H2).
  - by apply (interp_unless_silent _ _ _ _ _ _ _ _ _ Hl H2).
Qed.

Lemma one_step_silent d p b l σ da r σ' :
  heap σ !! l = Some da →
  (let* var := interp_unless d l grid Z p b in ret var) σ = (r, σ') →
  (log σ' = log σ ↔ d ∈ dims da).
Proof.
  intros Hl Hrun.
  apply bind_inv in Hrun as [(l1 & σ1 & H1 & Hrun)|(e & H1 & ->)].
  - unfold ret in Hrun. simplify_eq.
    by apply (interp_unless_silent _ _ _ _ _ _ _ _ _ Hl H1).
  - by apply (interp_unless_silent _ _ _ _ _ _ _ _ _ Hl H1).
Qed.

Lemma to_grid_h_calls hcoord l σ r σ' :
  is_Some (heap σ !! l) →
  to_grid_h l grid hcoord σ = (r, σ') →
  calls_run (h_calls hcoord) l σ r σ'.
Proof.
  intros Hl. destruct hcoord as [h|]; simpl.
  2: { unfold ret. intros [= <- <-]. apply calls_run_refl. }
  destruct (decide (h ∈ hcoords)) as [Hv|Hv].
  - rewrite (bind_ok _ _ _ _ _ (assert_true _ _ _ Hv)).
    repeat (destruct (bool_decide _)); try (by apply two_step_calls).
    unfold ret. intros [= <- <-]. apply calls_run_refl.
  - rewrite (bind_raise _ _ _ _ _ (assert_false _ _ _ Hv)).
    intros [= <- <-]. apply calls_run_raise.
Qed.

Lemma to_grid_s_calls scoord l σ r σ' :
  is_Some (heap σ !! l) →
  to_grid_s l grid scoord σ = (r, σ') →
  calls_run (s_calls scoord) l σ r σ'.
Proof.
  intros Hl. destruct scoord as [s|]; simpl.
  2: { unfold ret. intros [= <- <-]. apply calls_run_refl. }
  destruct (decide (s ∈ scoords)) as [Hv|Hv].
  - rewrite (bind_ok _ _ _ _ _ (assert_true _ _ _ Hv)).
    repeat (destruct (bool_decide _)); try (by apply one_step_calls).
    unfold ret. intros [= <- <-]. apply calls_run_refl.
  - rewrite (bind_raise _ _ _ _ _ (assert_false _ _ _ Hv)).
    intros [= <- <-]. apply calls_run_raise.
Qed.
End Calls.

Section CallsToGrid.
Variable grid : Grid.
Implicit Types (σ : store) (l : loc) (da : DataArray) (r : result loc).

Lemma to_grid_h_silent hcoord l σ da r σ' :
  valid_hcoord hcoord → heap σ !! l = Some da →
  to_grid_h l grid hcoord σ = (r, σ') →
  (log σ' = log σ ↔ ∀ d, d ∈ h_targets hcoord → d ∈ dims da).
Proof.
  intros Hv Hl. destruct hcoord as [h|]; simpl.
  2: { unfold ret. intros [= <- <-]. split; [|done]. by intros _ d ?%elem_of_nil. }
  rewrite (bind_ok _ _ _ _ _ (assert_true _ _ _ Hv)).
  repeat (destruct (bool_decide (h = _)));
    try (intros Hrun;
         rewrite (two_step_silent grid _ _ _ _ _ _ _ _ _ _ Hl Hrun);
         split; [intros [??] d; rewrite !elem_of_cons, elem_of_nil;
                 intros [->|[->|[]]]; done
                |intros Hin; split; apply Hin; rewrite !elem_of_cons; tauto]).
  unfold ret. intros [= <- <-]. split; [|done]. by intros _ d ?%elem_of_nil.
Qed.

Lemma to_grid_s_silent scoord l σ da r σ' :
  valid_scoord scoord → heap σ !! l = Some da →
  to_grid_s l grid scoord σ = (r, σ') →
  (log σ' = log σ ↔ ∀ d, d ∈ s_targets scoord → d ∈ dims da).
Proof.
  intros Hv Hl. destruct scoord as [s|]; simpl.
  2: { unfold ret. intros [= <- <-]. split; [|done]. by intros _ d ?%elem_of_nil. }
  rewrite (bind_ok _ _ _ _ _ (assert_true _ _ _ Hv)).
  repeat (destruct (bool_decide (s ∈ _)));
    try (intros Hrun;
         rewrite (one_step_silent grid _ _ _ _ _ _ _ _ Hl Hrun);
         split; [intros ? d; rewrite !elem_of_cons, elem_of_nil;
                 intros [->|[]]; done
                |intros Hin; apply Hin; rewrite !elem_of_cons; tauto]).
  unfold ret. intros [= <- <-]. split; [|done]. by intros _ d ?%elem_of_nil.
Qed.

(** The last step, [var.name = name], after the calls. *)
Lemma rename_after_calls plan l σ da l2 σ2 r σ' :
  heap σ !! l = Some da →
  calls_run plan l σ (Ok l2) σ2 →
  (set_name l2 (name da) ;;; ret l2) σ2 = (r, σ') →
  calls_run plan l σ r σ' ∧ log σ' = log σ2.
Proof.
  intros Hl Hrun Hset.
  destruct (calls_run_exists _ _ _ _ _ (mk_is_Some _ _ Hl) Hrun) as [da2 Hl2].
  unfold set_name in Hset.
  rewrite (bind_ok _ _ _ _ _ (modify_ok _ _ _ _ Hl2)) in Hset.
  unfold ret in Hset. simplify_eq. split; [|done].
  destruct Hrun as (Hev & cs & Hlog & Hsub & [(-> & -> & ->)|(Hne & Hnew & Hex)]).
  - simplify_eq. rewrite with_name_id, insert_id, store_eta by done.
    apply calls_run_refl.
  - split.
    + intros l0 da0 Hl0. simpl. rewrite lookup_insert_ne; [by apply Hev|].
      intros <-. by rewrite Hnew in Hl0.
    + exists cs. split; [done|]. split; [done|]. right. split; [done|].
      split; [done|]. simpl. by rewrite lookup_insert_eq.
Qed.

Lemma to_grid_calls_run hcoord scoord l σ da r σ' :
  heap σ !! l = Some da →
  to_grid l grid hcoord scoord σ = (r, σ') →
  calls_run (h_calls hcoord ++ s_calls scoord) l σ r σ'.
Proof.
  intros Hl. unfold to_grid.
  rewrite (bind_ok _ _ _ _ _ (load_ok _ _ _ Hl)).
  intros [(l1 & σ1 & H1 & Hrun)|(e & H1 & ->)]%bind_inv.
  2: { by apply calls_run_stop, (to_grid_h_calls grid). }
  apply (to_grid_h_calls grid) in H1; [|done].
  pose proof (calls_run_exists _ _ _ _ _ (mk_is_Some _ _ Hl) H1) as Hl1.
  apply bind_inv in Hrun as [(l2 & σ2 & H2 & Hrun)|(e & H2 & ->)].
  2: { eapply calls_run_app; [done|]. by apply (to_grid_s_calls grid). }
  apply (to_grid_s_calls grid) in H2; [|done].
  pose proof (calls_run_app _ _ _ _ _ _ _ _ H1 H2) as H12.
  by destruct (rename_after_calls _ _ _ _ _ _ _ _ Hl H12 Hrun).
Qed.

Lemma to_grid_silent hcoord scoord l σ da r σ' :
  valid_hcoord hcoord → valid_scoord scoord →
  heap σ !! l = Some da →
  to_grid l grid hcoord scoord σ = (r, σ') →
  (log σ' = log σ ↔
   ∀ d, d ∈ h_targets hcoord ++ s_targets scoord → d ∈ dims da).
Proof.
  intros Hvh Hvs Hl Hrun. split.
  2: { intros Hin. revert Hrun. unfold to_grid.
       rewrite (bind_ok _ _ _ _ _ (load_ok _ _ _ Hl)).
       rewrite (bind_ok _ _ _ _ _ (to_grid_h_noop grid hcoord l σ da Hvh Hl
                  (λ d Hd, Hin d (proj2 (elem_of_app _ _ _) (or_introl Hd))))).
       rewrite (bind_ok _ _ _ _ _ (to_grid_s_noop grid scoord l σ da Hvs Hl
                  (λ d Hd, Hin d (proj2 (elem_of_app _ _ _) (or_intror Hd))))).
       rewrite (bind_ok _ _ _ _ _ (set_name_same _ _ _ Hl)).
       unfold ret. by intros [= <- <-]. }
  intros Hlog. revert Hrun. unfold to_grid.
  rewrite (bind_ok _ _ _ _ _ (load_ok _ _ _ Hl)).
  intros Hrun.
  assert (∀ d, d ∈ h_targets hcoord → d ∈ dims da) as Hh.
  { apply bind_inv in Hrun as [(l1 & σ1 & H1 & Hrun)|(e & H1 & ->)].
    2: { by apply (to_grid_h_silent _ _ _ _ _ _ Hvh Hl H1). }
    apply (to_grid_h_silent _ _ _ _ _ _ Hvh Hl H1).
    pose proof (to_grid_h_calls _ _ _ _ _ _ (mk_is_Some _ _ Hl) H1) as Hc1.
    pose proof (calls_run_exists _ _ _ _ _ (mk_is_Some _ _ Hl) Hc1) as Hl1.
    destruct (calls_run_log _ _ _ _ _ Hc1) as [cs1 Hlog1].
    assert (∃ cs2, log σ' = log σ1 ++ cs2) as [cs2 Hlog2].
    { apply bind_inv in Hrun as [(l2 & σ2 & H2 & Hrun)|(e & H2 & ->)].
      2: { by apply (calls_run_log _ _ _ _ _ (to_grid_s_calls _ _ _ _ _ _ Hl1 H2)). }
      pose proof (to_grid_s_calls _ _ _ _ _ _ Hl1 H2) as Hc2.
      destruct (calls_run_exists _ _ _ _ _ Hl1 Hc2) as [da2 Hl2].
      unfold set_name in Hrun.
      rewrite (bind_ok _ _ _ _ _ (modify_ok _ _ _ _ Hl2)) in Hrun.
      unfold ret in Hrun. simplify_eq. simpl.
      by apply (calls_run_log _ _ _ _ _ Hc2). }
    rewrite Hlog2, Hlog1, <- app_assoc in Hlog.
    apply log_same, app_eq_nil in Hlog as [-> _].
    by rewrite Hlog1, app_nil_r. }
  assert (∀ d, d ∈ s_targets scoord → d ∈ dims da) as Hs.
  { rewrite (bind_ok _ _ _ _ _ (to_grid_h_noop grid hcoord l σ da Hvh Hl Hh))
      in Hrun.
    apply bind_inv in Hrun as [(l2 & σ2 & H2 & Hrun)|(e & H2 & ->)].
    2: { by apply (to_grid_s_silent _ _ _ _ _ _ Hvs Hl H2). }
    apply (to_grid_s_silent _ _ _ _ _ _ Hvs Hl H2).
    pose proof (to_grid_s_calls _ _ _ _ _ _ (mk_is_Some _ _ Hl) H2) as Hc2.
    destruct (calls_run_exists _ _ _ _ _ (mk_is_Some _ _ Hl) Hc2) as [da2 Hl2].
    unfold set_name in Hrun.
    rewrite (bind_ok _ _ _ _ _ (modify_ok _ _ _ _ Hl2)) in Hrun.
    unfold ret in Hrun. by simplify_eq. }
  intros d [?|?]%elem_of_app; auto.
Qed.
End CallsToGrid.

(** ** What [to_grid] and the derivatives return, and when arguments are
    checked *)

Section Returned.
Variable grid : Grid.
Implicit Types (σ : store) (l : loc) (da : DataArray) (r : result loc).

(** The first call of a horizontal converter. *)
Lemma two_step_first dx px dy py b l σ da r σ' :
  heap σ !! l = Some da →
  (let* var := interp_unless dx l grid X px b in
   let* var := interp_unless dy var grid Y py b in
   ret var) σ = (r, σ') →
  (dx ∉ dims da → ∃ cs, log σ' = log σ ++ CInterp X px b :: cs) ∧
  (dx ∈ dims da → dy ∉ dims da → log σ' = log σ ++ [CInterp Y py b]).
Proof.
  intros Hl Hrun. split.
  - intros Hdx.
    apply bind_inv in Hrun as [(l1 & σ1 & H1 & Hrun)|(e & H1 & ->)].
    + destruct (interp_unless_inv _ _ _ _ _ _ _ _ _ _ Hl H1)
        as [(? & _)|[_ Hint]]; [done|].
      destruct (grid_interp_inv _ _ _ _ _ _ _ _ _ Hl Hint)
        as [(e & _ & ? & _)|(da' & _ & ? & ->)]; [done|]. simplify_eq.
      set (σ1 := mkStore _ _) in *.
      assert (is_Some (heap σ1 !! fresh (dom (heap σ)))) as Hl1.
      { exists da'. apply lookup_insert_eq. }
      assert (∃ cs, log σ' = log σ1 ++ cs) as [cs Hlog].
      { apply bind_inv in Hrun as [(l2 & σ2 & H2 & Hrun)|(e & H2 & ->)].
        - unfold ret in Hrun. simplify_eq.
          by apply (calls_run_log _ _ _ _ _
                      (interp_unless_calls grid _ _ _ _ _ _ _ _ Hl1 H2)).
        - by apply (calls_run_log _ _ _ _ _
                      (interp_unless_calls grid _ _ _ _ _ _ _ _ Hl1 H2)). }
      exists cs. rewrite Hlog. simpl. by rewrite <- app_assoc.
    + destruct (interp_unless_inv _ _ _ _ _ _ _ _ _ _ Hl H1)
        as [(? & _)|[_ Hint]]; [done|].
      destruct (grid_interp_inv _ _ _ _ _ _ _ _ _ Hl Hint)
        as [(e' & _ & _ & ->)|(da' & _ & ? & _)]; [|done].
      by exists [].
  - intros Hdx Hdy.
    rewrite (bind_ok _ _ _ _ _ (interp_unless_noop grid dx l X px b σ da Hl Hdx))
      in Hrun.
    assert (∀ r2 σ2, interp_unless dy l grid Y py b σ = (r2, σ2) →
                     log σ2 = log σ ++ [CInterp Y py b]) as Hstep.
    { intros r2 σ2 H2.
      destruct (interp_unless_inv _ _ _ _ _ _ _ _ _ _ Hl H2)
        as [(? & _)|[_ Hint]]; [done|].
      by destruct (grid_interp_inv _ _ _ _ _ _ _ _ _ Hl Hint)
        as [(e' & _ & _ & ->)|(da' & _ & _ & ->)]. }
    apply bind_inv in Hrun as [(l2 & σ2 & H2 & Hrun)|(e & H2 & ->)].
    + unfold ret in Hrun. simplify_eq. by apply (Hstep (Ok l2)).
    + by apply (Hstep (Raise e)).
Qed.

Lemma to_grid_h_first hcoord l σ da r σ1 dx px dy py :
  valid_hcoord hcoord → heap σ !! l = Some da →
  to_grid_h l grid hcoord σ = (r, σ1) →
  h_calls hcoord = [CInterp X px extend; CInterp Y py extend] →
  h_targets hcoord = [dx; dy] →
  (dx ∉ dims da → ∃ cs, log σ1 = log σ ++ CInterp X px extend :: cs) ∧
  (dx ∈ dims da → dy ∉ dims da → log σ1 = log σ ++ [CInterp Y py extend]).
Proof.
  intros Hv Hl. destruct hcoord as [h|]; simpl; [|done].
  rewrite (bind_ok _ _ _ _ _ (assert_true _ _ _ Hv)).
  repeat (destruct (bool_decide (h = _))); try done;
    intros Hrun [= <- <-] [= <- <-];
    exact (two_step_first _ _ _ _ _ _ _ _ _ _ Hl Hrun).
Qed.

(** An [scoord] that is not accepted is found only when the horizontal
    block is over. *)
Lemma to_grid_bad_scoord hcoord s l σ da :
  heap σ !! l = Some da → s ∉ scoords →
  to_grid l grid hcoord (Some s) σ
  = match to_grid_h l grid hcoord σ with
    | (Ok _, σ1) => (Raise (AssertionError (scoord_message s)), σ1)
    | (Raise e, σ1) => (Raise e, σ1)
    end.
Proof.
  intros Hl Hs. unfold to_grid.
  rewrite (bind_ok _ _ _ _ _ (load_ok _ _ _ Hl)).
  destruct (to_grid_h l grid hcoord σ) as [[l1|e] σ1] eqn:H1.
  - rewrite (bind_ok _ _ _ _ _ H1).
    by rewrite (bind_raise _ _ _ _ _ (to_grid_s_invalid grid _ _ _ Hs)).
  - by rewrite (bind_raise _ _ _ _ _ H1).
Qed.

(** [to_grid] returns its argument itself, the store untouched, or an
    object that did not exist; for valid arguments the first exactly when
    the field has every dimension asked for. *)
Lemma to_grid_returned hcoord scoord l σ da l' σ' :
  heap σ !! l = Some da →
  to_grid l grid hcoord scoord σ = (Ok l', σ') →
  ((l' = l ∧ σ' = σ) ∨ (l' ≠ l ∧ heap σ !! l' = None)) ∧
  (valid_hcoord hcoord → valid_scoord scoord →
   (l' = l ↔ ∀ d, d ∈ h_targets hcoord ++ s_targets scoord → d ∈ dims da)).
Proof.
  intros Hl Hrun.
  destruct (to_grid_calls_run grid _ _ _ _ _ _ _ Hl Hrun)
    as (_ & cs & Hlog & _ & Hres).
  split.
  - destruct Hres as [(_ & -> & ->)|(_ & Hnew & _)]; [by left|right].
    split; [|done]. intros ->. by rewrite Hl in Hnew.
  - intros Hvh Hvs.
    rewrite <- (to_grid_silent grid _ _ _ _ _ _ _ Hvh Hvs Hl Hrun). split.
    + intros ->. destruct Hres as [(_ & _ & ->)|(_ & Hnew & _)]; [done|].
      by rewrite Hl in Hnew.
    + intros Hsame. rewrite Hlog in Hsame. apply log_same in Hsame.
      by destruct Hres as [(_ & -> & _)|(Hne & _)].
Qed.

(** What a derivative returns did not exist before the call. *)
Lemma derivative_new (m : M loc) (suffix long_prefix : string)
    (given : option (gmap string string)) (hcoord scoord : option string)
    l σ da l' σ' :
  heap σ !! l = Some da →
  (∀ σ0 r1 σ1, m σ0 = (r1, σ1) →
     evolves σ0 σ1 ∧ ∀ l1, r1 = Ok l1 → heap σ0 !! l1 = None) →
  (let* a :=
     match given with
     | None => default_attrs l suffix long_prefix
     | Some a => ret a
     end in
   let* var := m in
   let* var := to_grid var grid hcoord scoord in
   set_attrs var a ;;; ret var) σ = (Ok l', σ') →
  heap σ !! l' = None ∧ l' ≠ l.
Proof.
  intros Hl Hm Hrun.
  assert (heap σ !! l' = None) as Hnew; [|split; [done|]].
  2: { intros ->. by rewrite Hl in Hnew. }
  destruct given as [a|].
  - rewrite (bind_ok _ _ _ _ _ (eq_refl : ret a σ = (Ok a, σ))) in Hrun.
    apply (derivative_tail grid _ _ _ _ _ _ _ (Hm σ)) in Hrun as [_ Hr].
    by destruct (Hr l' eq_refl).
  - pose proof (default_attrs_run l suffix long_prefix σ da Hl) as Hdef.
    set (σ0 := mkStore _ _) in Hdef.
    destruct (name da) as [n|].
    + rewrite (bind_ok _ _ _ _ _ Hdef) in Hrun.
      apply (derivative_tail grid _ _ _ _ _ _ _ (Hm σ0)) in Hrun as [_ Hr].
      destruct (Hr l' eq_refl) as [Hnone _]. simpl in Hnone.
      by apply lookup_insert_None in Hnone as [? _].
    + by rewrite (bind_raise _ _ _ _ _ Hdef) in Hrun.
Qed.
End Returned.

(** ** Claims about regridding, derivatives and grid identification *)

(** C4, amended.  An [hcoord] outside rho, psi, u, v makes [to_grid] fail with the
    assertion error whose message names [hcoord] and the accepted values,
    and the store is as before the call: no call of [grid.interp] was made.
    An [scoord] outside s_rho, rho, s_w, w is found only when the
    horizontal block is over: [to_grid] then fails with the assertion error
    whose message names [scoord] and the accepted values, in the store that
    the horizontal block left, or with the exception of [grid.interp] if
    that block raised; no call along Z is made.  For a valid [hcoord] the
    horizontal block has by then called [grid.interp] along X if the field
    lacks the xi dimension that [hcoord] names, and otherwise along Y if it
    lacks the eta dimension; it has made no call exactly when the field has
    both. *)
Theorem to_grid_invalid_argument :
  (∀ (grid : Grid) (l : loc) (σ : store) (da : DataArray) (h : string)
     (scoord : option string),
     heap σ !! l = Some da → h ∉ hcoords →
     to_grid l grid (Some h) scoord σ
     = (Raise (AssertionError (hcoord_message h)), σ)) ∧
  (∀ (grid : Grid) (l : loc) (σ : store) (da : DataArray)
     (hcoord : option string) (s : string) (r : result loc) (σ' : store),
     heap σ !! l = Some da → valid_hcoord hcoord → s ∉ scoords →
     to_grid l grid hcoord (Some s) σ = (r, σ') →
     (r = Raise (AssertionError (scoord_message s)) ∨
      ∃ e da0 ax to b, r = Raise e ∧ interp grid da0 ax to b = Raise e) ∧
     (∃ cs, log σ' = log σ ++ cs ∧ Forall (on_axes [X; Y]) cs) ∧
     (hcoord = None → r = Raise (AssertionError (scoord_message s)) ∧ σ' = σ)) ∧
  (∀ (grid : Grid) (l : loc) (σ : store) (da : DataArray)
     (hcoord : option string) (s : string),
     heap σ !! l = Some da → s ∉ scoords →
     to_grid l grid hcoord (Some s) σ
     = match to_grid_h l grid hcoord σ with
       | (Ok _, σ1) => (Raise (AssertionError (scoord_message s)), σ1)
       | (Raise e, σ1) => (Raise e, σ1)
       end) ∧
  (∀ (grid : Grid) (l : loc) (σ : store) (da : DataArray)
     (hcoord : option string) (r : result loc) (σ1 : store),
     heap σ !! l = Some da → valid_hcoord hcoord →
     to_grid_h l grid hcoord σ = (r, σ1) →
     calls_run (h_calls hcoord) l σ r σ1 ∧
     (log σ1 = log σ ↔ ∀ d, d ∈ h_targets hcoord → d ∈ dims da) ∧
     ∀ dx px dy py,
       h_calls hcoord = [CInterp X px extend; CInterp Y py extend] →
       h_targets hcoord = [dx; dy] →
       (dx ∉ dims da → ∃ cs, log σ1 = log σ ++ CInterp X px extend :: cs) ∧
       (dx ∈ dims da → dy ∉ dims da →
        log σ1 = log σ ++ [CInterp Y py extend])).
Proof.
  split; [|split; [|split]].
  - intros grid l σ da h scoord Hl Hh. unfold to_grid.
    rewrite (bind_ok _ _ _ _ _ (load_ok _ _ _ Hl)).
    by rewrite (bind_raise _ _ _ _ _ (to_grid_h_invalid _ _ _ _ Hh)).
  - intros grid l σ da hcoord s r σ' Hl Hv Hs. unfold to_grid.
    rewrite (bind_ok _ _ _ _ _ (load_ok _ _ _ Hl)).
    intros [(l1 & σ1 & H1 & Hrun)|(e & H1 & ->)]%bind_inv.
    + rewrite (bind_raise _ _ _ _ _ (to_grid_s_invalid _ _ _ _ Hs)) in Hrun.
      simplify_eq. split; [by left|].
      pose proof (to_grid_h_run _ _ _ _ _ _ Hv (mk_is_Some _ _ Hl) H1)
        as (_ & Hlog & _).
      split; [done|]. intros ->. unfold to_grid_h, ret in H1. by simplify_eq.
    + pose proof (to_grid_h_run _ _ _ _ _ _ Hv (mk_is_Some _ _ Hl) H1)
        as (_ & Hlog & (da0 & ax & to & b & He)).
      split; [right; by exists e, da0, ax, to, b|]. split; [done|].
      intros ->. by unfold to_grid_h, ret in H1.
  - intros grid l σ da hcoord s Hl Hs. by apply (to_grid_bad_scoord grid _ _ _ _ da).
  - intros grid l σ da hcoord r σ1 Hl Hv Hrun. split; [|split].
    + by apply (to_grid_h_calls grid).
    + exact (to_grid_h_silent grid _ _ _ _ _ _ Hv Hl Hrun).
    + intros dx px dy py Hcalls Htargets.
      exact (to_grid_h_first grid hcoord l σ da r σ1 dx px dy py Hv Hl Hrun
               Hcalls Htargets).
Qed.

Lemma to_grid_invalid_argument_witness :
  to_grid 0%nat sample_grid (Some "bad") (Some "w") (store_of u_field)
  = (Raise (AssertionError (hcoord_message "bad")), store_of u_field).
Proof.
  apply (proj1 to_grid_invalid_argument sample_grid 0%nat (store_of u_field)
           u_field "bad" (Some "w")).
  - reflexivity.
  - decide_closed.
Defined.

(** The claim C4 as it is worded fails for [scoord]: on a field on the u
    grid, with [hcoord = "rho"] and an invalid [scoord], [grid.interp] has
    been called along X by the time the assertion fails. *)
Lemma to_grid_bad_scoord_after_interp :
  run_result (to_grid 0%nat sample_grid (Some "rho") (Some "bad")) (store_of u_field)
  = Raise (AssertionError (scoord_message "bad")) ∧
  log (run_store (to_grid 0%nat sample_grid (Some "rho") (Some "bad"))
         (store_of u_field))
  = [CInterp X center extend].
Proof. by vm_compute. Qed.

(** C5. A regridding step along one axis returns its argument, and leaves
    the store as it is, when the field already carries the dimension name it
    tests for; so does each of [to_rho], [to_psi], [to_u], [to_v],
    [to_s_rho], [to_s_w] when the field carries the names it tests for.  For a grid that
    regrids, [to_grid] applied to the result of [to_grid] with the same
    arguments is [to_grid] applied once: same outcome, same store. *)
Theorem to_grid_idempotent :
  (∀ (grid : Grid) (l : loc) (σ : store) (da : DataArray) (b : option string),
     heap σ !! l = Some da →
     (∀ d ax to, d ∈ dims da → interp_unless d l grid ax to b σ = (Ok l, σ)) ∧
     ("xi_rho" ∈ dims da → "eta_rho" ∈ dims da → to_rho l grid b σ = (Ok l, σ)) ∧
     ("xi_u" ∈ dims da → "eta_v" ∈ dims da → to_psi l grid b σ = (Ok l, σ)) ∧
     ("xi_u" ∈ dims da → "eta_rho" ∈ dims da → to_u l grid b σ = (Ok l, σ)) ∧
     ("xi_rho" ∈ dims da → "eta_v" ∈ dims da → to_v l grid b σ = (Ok l, σ)) ∧
     ("s_rho" ∈ dims da → to_s_rho l grid b σ = (Ok l, σ)) ∧
     ("s_w" ∈ dims da → to_s_w l grid b σ = (Ok l, σ))) ∧
  (∀ (grid : Grid) (l : loc) (σ : store) (hcoord scoord : option string),
     regrids grid →
     (let* var := to_grid l grid hcoord scoord in
      to_grid var grid hcoord scoord) σ
     = to_grid l grid hcoord scoord σ).
Proof.
  split.
  - intros grid l σ da b Hl. split.
    { intros d ax to Hd. by eapply interp_unless_noop. }
    repeat split; intros; by (eapply two_step_noop || eapply one_step_noop).
  - intros grid l σ hcoord scoord Hgrid.
    destruct (to_grid l grid hcoord scoord σ) as [[l'|e] σ'] eqn:Hrun.
    + rewrite (bind_ok _ _ _ _ _ Hrun). by eapply to_grid_again.
    + by rewrite (bind_raise _ _ _ _ _ Hrun).
Qed.

Lemma to_grid_idempotent_witness :
  (let* var := to_grid 0%nat sample_grid (Some "rho") (Some "w") in
   to_grid var sample_grid (Some "rho") (Some "w")) (store_of u_field)
  = to_grid 0%nat sample_grid (Some "rho") (Some "w") (store_of u_field).
Proof.
  exact (proj2 to_grid_idempotent sample_grid 0%nat (store_of u_field)
           (Some "rho") (Some "w") sample_grid_regrids).
Defined.

(** C6, amended.  [to_grid] leaves the object it is given as it was, whatever the
    arguments.  [ddz], and [ddxi] and [ddeta] for an [hgrad] that returns a
    new object, leave it as it was when the caller passes [attrs]; called
    without [attrs] they leave its name, dimensions and values, and write
    the defaults "var", "var", "units" for those of name, long_name, units
    that its attribute dictionary lacks: the dictionary is unchanged exactly
    when it has all three.  What a derivative returns is an object that did
    not exist before the call.  What [to_grid] returns is its argument
    itself, the store untouched, or an object that did not exist before; for
    valid arguments it is the argument itself exactly when the field has
    every dimension asked for. *)
Theorem input_field_after_call :
  (∀ (grid : Grid) (l : loc) (σ : store) (da : DataArray)
     (hcoord scoord : option string) (r : result loc) (σ' : store),
     heap σ !! l = Some da →
     to_grid l grid hcoord scoord σ = (r, σ') →
     heap σ' !! l = Some da) ∧
  (∀ (grid : Grid) (l : loc) (σ : store) (da : DataArray)
     (given : option (gmap string string))
     (hcoord scoord sboundary : option string) (sfill_value : xreal)
     (r : result loc) (σ' : store),
     heap σ !! l = Some da →
     ddz l grid given hcoord scoord sboundary sfill_value σ = (r, σ') →
     heap σ' !! l
     = Some (match given with
             | Some _ => da
             | None => with_attrs (documented (attrs da)) da
             end)) ∧
  (∀ (hgrad : HGrad) (grid : Grid) (l : loc) (σ : store) (da : DataArray)
     (given : option (gmap string string))
     (hcoord scoord hboundary sboundary : option string)
     (hfill_value sfill_value : xreal) (z : option loc)
     (r : result loc) (σ' : store),
     returns_new hgrad → heap σ !! l = Some da →
     (ddxi hgrad l grid given hcoord scoord hboundary hfill_value sboundary
        sfill_value z σ = (r, σ') ∨
      ddeta hgrad l grid given hcoord scoord hboundary hfill_value sboundary
        sfill_value z σ = (r, σ')) →
     heap σ' !! l
     = Some (match given with
             | Some _ => da
             | None => with_attrs (documented (attrs da)) da
             end)) ∧
  (∀ (da : DataArray) (a : gmap string string),
     name (with_attrs a da) = name da ∧ dims (with_attrs a da) = dims da ∧
     values (with_attrs a da) = values da) ∧
  (∀ a : gmap string string,
     documented a = a ↔ "name" ∈ dom a ∧ "long_name" ∈ dom a ∧ "units" ∈ dom a) ∧
  (∀ (grid : Grid) (l : loc) (σ : store) (da : DataArray)
     (given : option (gmap string string))
     (hcoord scoord sboundary : option string) (sfill_value : xreal)
     (l' : loc) (σ' : store),
     heap σ !! l = Some da →
     ddz l grid given hcoord scoord sboundary sfill_value σ = (Ok l', σ') →
     heap σ !! l' = None ∧ l' ≠ l) ∧
  (∀ (hgrad : HGrad) (grid : Grid) (l : loc) (σ : store) (da : DataArray)
     (given : option (gmap string string))
     (hcoord scoord hboundary sboundary : option string)
     (hfill_value sfill_value : xreal) (z : option loc)
     (l' : loc) (σ' : store),
     returns_new hgrad → heap σ !! l = Some da →
     (ddxi hgrad l grid given hcoord scoord hboundary hfill_value sboundary
        sfill_value z σ = (Ok l', σ') ∨
      ddeta hgrad l grid given hcoord scoord hboundary hfill_value sboundary
        sfill_value z σ = (Ok l', σ')) →
     heap σ !! l' = None ∧ l' ≠ l) ∧
  (∀ (grid : Grid) (l : loc) (σ : store) (da : DataArray)
     (hcoord scoord : option string) (l' : loc) (σ' : store),
     heap σ !! l = Some da →
     to_grid l grid hcoord scoord σ = (Ok l', σ') →
     ((l' = l ∧ σ' = σ) ∨ (l' ≠ l ∧ heap σ !! l' = None)) ∧
     (valid_hcoord hcoord → valid_scoord scoord →
      (l' = l ↔
       ∀ d, d ∈ h_targets hcoord ++ s_targets scoord → d ∈ dims da))).
Proof.
  split; [|split; [|split; [|split; [|split; [|split; [|split]]]]]].
  - intros grid l σ da hcoord scoord r σ' Hl Hrun.
    apply to_grid_evolves in Hrun as [Hev _]. by apply Hev.
  - intros grid l σ da given hcoord scoord sboundary sfill_value r σ' Hl Hrun.
    by destruct (ddz_run _ _ _ _ _ _ _ _ _ _ _ Hl Hrun).
  - intros hgrad grid l σ da given hcoord scoord hboundary sboundary
      hfill_value sfill_value z r σ' Hnew Hl [Hrun|Hrun].
    + by eapply ddxi_run.
    + by eapply ddeta_run.
  - done.
  - intros a. split.
    + intros Ha. rewrite <-Ha. unfold documented.
      repeat split; apply elem_of_dom.
      * rewrite !setdefault_other by done.
        rewrite documented_lookup. by eexists.
      * rewrite setdefault_other by done.
        rewrite documented_lookup. by eexists.
      * rewrite documented_lookup. by eexists.
    + intros (Hn & Hl & Hu). by apply documented_present.
  - intros grid l σ da given hcoord scoord sboundary sfill_value l' σ' Hl Hrun.
    eapply (derivative_new grid _ "dz" "vertical derivative of "); [done| |done].
    intros σ0 r1 σ1. apply grid_derivative_new.
  - intros hgrad grid l σ da given hcoord scoord hboundary sboundary
      hfill_value sfill_value z l' σ' Hnew Hl [Hrun|Hrun].
    + eapply (derivative_new grid _ "dxi" "horizontal xi derivative of ");
        [done| |done].
      intros σ0 r1 σ1 Hh. exact (Hnew _ _ _ _ _ _ _ _ _ _ _ Hh).
    + eapply (derivative_new grid _ "deta" "horizontal eta derivative of ");
        [done| |done].
      intros σ0 r1 σ1 Hh. exact (Hnew _ _ _ _ _ _ _ _ _ _ _ Hh).
  - intros grid l σ da hcoord scoord l' σ' Hl Hrun.
    by apply (to_grid_returned grid hcoord scoord l σ da).
Qed.

Lemma input_field_after_call_witness :
  heap (run_store (to_grid 0%nat sample_grid (Some "rho") (Some "w"))
          (store_of u_field)) !! 0%nat
  = Some u_field.
Proof.
  apply (proj1 input_field_after_call sample_grid 0%nat (store_of u_field)
           u_field (Some "rho") (Some "w")
           (run_result (to_grid 0%nat sample_grid (Some "rho") (Some "w"))
              (store_of u_field))).
  - reflexivity.
  - apply surjective_pairing.
Defined.

(** The claim C6 as it is worded fails twice.  [ddz] called without
    [attrs] on a field that has no attributes leaves the three defaults in
    the attribute dictionary of the field it was given.  And [to_grid] on a
    field that is already where it is asked to be returns that field itself,
    not a new one. *)
Lemma ddz_writes_input_attrs :
  attrs bare_field = ∅ ∧
  attrs <$> heap (run_store (ddz 0%nat sample_grid None None None extend NaN)
                    (store_of bare_field)) !! 0%nat
  = Some ({[ "name" := "var"; "long_name" := "var"; "units" := "units" ]}
            : gmap string string) ∧
  to_grid 0%nat sample_grid (Some "u") (Some "s_rho") (store_of u_field)
  = (Ok 0%nat, store_of u_field).
Proof. split; [done|]. split; by vm_compute. Qed.

(** C7. For valid [hcoord] and [scoord], [to_grid] either returns an
    object whose name is the name its argument had, or fails with an
    exception raised by [grid.interp]. *)
Theorem to_grid_preserves_name :
  ∀ (grid : Grid) (l : loc) (σ : store) (da : DataArray)
    (hcoord scoord : option string) (r : result loc) (σ' : store),
    heap σ !! l = Some da →
    valid_hcoord hcoord → valid_scoord scoord →
    to_grid l grid hcoord scoord σ = (r, σ') →
    match r with
    | Ok l' => ∃ da', heap σ' !! l' = Some da' ∧ name da' = name da
    | Raise e => ∃ da0 ax to b, interp grid da0 ax to b = Raise e
    end.
Proof.
  intros grid l σ da hcoord scoord r σ' Hl Hvh Hvs Hrun.
  destruct (to_grid_run _ _ _ _ _ _ _ _ Hvh Hvs Hl Hrun) as [(_ & _ & Hr) Hname].
  destruct r as [l'|e]; [by apply Hname|done].
Qed.

Lemma to_grid_preserves_name_witness :
  match run_result (to_grid 0%nat sample_grid (Some "rho") (Some "w"))
          (store_of u_field) with
  | Ok l' =>
      ∃ da', heap (run_store (to_grid 0%nat sample_grid (Some "rho") (Some "w"))
                     (store_of u_field)) !! l' = Some da' ∧
             name da' = name u_field
  | Raise e => ∃ da0 ax to b, interp sample_grid da0 ax to b = Raise e
  end.
Proof.
  apply (to_grid_preserves_name sample_grid 0%nat (store_of u_field) u_field
           (Some "rho") (Some "w")).
  - reflexivity.
  - decide_closed.
  - decide_closed.
  - apply surjective_pairing.
Defined.

(** C8. On an unnamed field, [ddz] called without [attrs] raises a
    [TypeError] at ['d' + var.name]: the default "var" was written to
    [var.attrs['name']], and the name is read from [var.name].  Whenever
    [ddz] returns, the attributes of its result are the caller's [attrs] if
    given, and otherwise [name: "d" + name + "dz"], [long_name: "vertical
    derivative of " + long_name], [units: "1/m * " + units], with "var" and
    "units" for a missing long_name and units. *)
Theorem ddz_default_attrs :
  (∀ (grid : Grid) (l : loc) (σ : store) (da : DataArray)
     (hcoord scoord sboundary : option string) (sfill_value : xreal),
     heap σ !! l = Some da → name da = None →
     run_result (ddz l grid None hcoord scoord sboundary sfill_value) σ
     = Raise (TypeError concat_none_message)) ∧
  run_result (ddz 0%nat sample_grid None None None extend NaN)
    (store_of unnamed_field)
  = Raise (TypeError concat_none_message) ∧
  (∀ (grid : Grid) (l : loc) (σ : store) (da : DataArray)
     (given : option (gmap string string))
     (hcoord scoord sboundary : option string) (sfill_value : xreal)
     (l' : loc) (σ' : store),
     heap σ !! l = Some da →
     ddz l grid given hcoord scoord sboundary sfill_value σ = (Ok l', σ') →
     ∃ da', heap σ' !! l' = Some da' ∧
       match given with
       | Some a => attrs da' = a
       | None =>
           ∃ n, name da = Some n ∧
                attrs da' = {[ "name" := "d" +:+ n +:+ "dz";
                               "long_name" := "vertical derivative of "
                                 +:+ default "var" (attrs da !! "long_name");
                               "units" := "1/m * "
                                 +:+ default "units" (attrs da !! "units") ]}
       end).
Proof.
  split; [|split].
  - intros grid l σ da hcoord scoord sboundary sfill_value Hl Hn.
    by apply (ddz_unnamed _ _ _ _ _ _ _ da).
  - by vm_compute.
  - intros grid l σ da given hcoord scoord sboundary sfill_value l' σ' Hl Hrun.
    destruct (ddz_run _ _ _ _ _ _ _ _ _ _ _ Hl Hrun) as [_ Hr].
    by apply Hr.
Qed.

(** C9, amended.  For a field with distinct dimension names: a position
    returned by [id_grid] is one of rho, u, v, psi, vert and the field
    carries one of its pairs of names; [id_grid] returns no position exactly
    when the field carries none of the known pairs; and with one name per
    horizontal axis the field carries the pairs of at most one position,
    which [id_grid] returns.  A field that [to_grid] returns for a given
    [hcoord], on a grid that regrids, carries the pair of [hcoord]: [id_grid]
    returns a position for it, and that position is [hcoord] when the field
    has one name per horizontal axis.  A field that the core operations
    return need not have a position at all. *)
Theorem id_grid_exact_total :
  (∀ da : DataArray,
     NoDup (dims da) →
     (∀ g, id_grid da = Some g → g ∈ grids ∧ carries (dims da) g) ∧
     (id_grid da = None ↔ ∀ g, ¬ carries (dims da) g) ∧
     (single_horizontal (dims da) →
      ∀ g, carries (dims da) g → id_grid da = Some g)) ∧
  (∀ (grid : Grid) (l : loc) (σ : store) (h : string) (scoord : option string)
     (l' : loc) (σ' : store) (da' : DataArray),
     regrids grid → h ∈ hcoords →
     to_grid l grid (Some h) scoord σ = (Ok l', σ') →
     heap σ' !! l' = Some da' →
     carries (dims da') h ∧
     (NoDup (dims da') →
      ∃ g, id_grid da' = Some g ∧ g ∈ grids ∧ carries (dims da') g ∧
           (single_horizontal (dims da') → g = h))).
Proof.
  split; [apply id_grid_positions|].
  intros grid l σ h scoord l' σ' da' Hgrid Hh Hrun Hl'.
  destruct (to_grid_lands _ _ _ _ _ _ _ Hgrid Hrun) as (da'' & Hl'' & Hin & _).
  simplify_eq.
  assert (carries (dims da') h) as Hc by by apply h_targets_carries.
  split; [done|]. intros Hnd.
  destruct (id_grid_positions da' Hnd) as (Hsome & Hnone & Hone).
  destruct (id_grid da') as [g|] eqn:Hg.
  - destruct (Hsome g eq_refl) as [Hin' Hc']. exists g.
    repeat (split; [done|]). intros Hsingle.
    by apply (carries_unique (dims da')).
  - by destruct (proj1 Hnone eq_refl h).
Qed.

Lemma u_field_single_horizontal : single_horizontal (dims u_field).
Proof.
  unfold single_horizontal, xi_names, eta_names, u_field. simpl.
  split; intros a b; rewrite !elem_of_cons, !elem_of_nil; intros;
    destruct_or?; try done; by simplify_eq.
Defined.

Lemma id_grid_exact_total_witness : id_grid u_field = Some "u".
Proof.
  destruct (proj1 id_grid_exact_total u_field) as (_ & _ & Hone).
  - decide_closed.
  - apply Hone; [exact u_field_single_horizontal|].
    exists ("eta_rho", "xi_u"). repeat split; decide_closed.
Defined.

(** The claim C9 as it is worded fails: [to_grid] with [scoord = "w"] on a
    profile, a field with a time and a vertical dimension only, returns a
    field for which [id_grid] has no position. *)
Lemma to_grid_profile_no_position :
  run_result (to_grid 0%nat sample_grid None (Some "w")) (store_of profile_field)
  = Ok 1%nat ∧
  dims <$> heap (run_store (to_grid 0%nat sample_grid None (Some "w"))
                   (store_of profile_field)) !! 1%nat
  = Some ["ocean_time"; "s_w"] ∧
  id_grid <$> heap (run_store (to_grid 0%nat sample_grid None (Some "w"))
                      (store_of profile_field)) !! 1%nat
  = Some None.
Proof. repeat split; by vm_compute. Qed.

(** * Further properties of the code *)

(** ** Indexers *)

Section Indexer.
Context {V : Type}.
Implicit Types (ds : list string) (m : gmap string V) (v : V).

Lemma dim_where_find (test : string → bool) ds :
  dim_where test ds = List.find test ds.
Proof.
  unfold dim_where. induction ds as [|d ds IH]; [done|].
  rewrite fmap_cons. cbn [index_true List.find].
  destruct (test d); [done|].
  destruct (index_true (test <$> ds)) as [i|]; by rewrite <-IH.
Qed.

Lemma find_elem_of (test : string → bool) ds (k : string) :
  List.find test ds = Some k → k ∈ ds ∧ test k = true.
Proof. intros [Hin Ht]%find_some. by rewrite list_elem_of_In. Qed.

Lemma find_None_all (test : string → bool) ds :
  List.find test ds = None ↔ ∀ d, d ∈ ds → test d = false.
Proof.
  split.
  - intros Hn d Hd%list_elem_of_In. by apply (find_none _ _ Hn).
  - intros Hall. destruct (List.find test ds) as [k|] eqn:Hf; [|done].
    apply find_elem_of in Hf as [Hin Ht]. by rewrite (Hall k Hin) in Ht.
Qed.

Lemma set_item_inv (test : string → bool) ds (value : option V) m m' :
  set_item test ds value m = Indexer m' →
  match value with
  | None => m' = m
  | Some v => ∃ k, List.find test ds = Some k ∧ m' = <[k := v]> m
  end.
Proof.
  unfold set_item. destruct value as [v|]; [|by intros [= <-]].
  rewrite dim_where_find. destruct (List.find test ds) as [k|]; [|done].
  intros [= <-]. by exists k.
Qed.

Lemma set_item_error (test : string → bool) ds (value : option V) m msg :
  set_item test ds value m = ValueError msg ↔
  is_Some value ∧ (∀ d, d ∈ ds → test d = false) ∧ msg = "True is not in list".
Proof.
  unfold set_item. rewrite dim_where_find, <-find_None_all.
  destruct value as [v|].
  - destruct (List.find test ds) as [k|]; split.
    + done.
    + by intros (_ & ? & _).
    + intros [= <-]. by repeat split.
    + by intros (_ & _ & ->).
  - split; [done|]. by intros ([? ?] & _).
Qed.

(** The first letter tells the axes apart. *)
Lemma slice_first_letter (n : nat) (p k : string) :
  (0 < n)%nat → String.eqb (slice_to n k) p = true →
  String.get 0 k = String.get 0 p.
Proof.
  intros Hn <-%String.eqb_eq. unfold slice_to.
  by rewrite (String.substring_correct1 k 0 n 0 Hn).
Qed.

Lemma kinds_apart (k : string) :
  (is_xi k = true → is_eta k = false ∧ is_s k = false) ∧
  (is_eta k = true → is_s k = false).
Proof.
  unfold is_xi, is_eta, is_s. split.
  - intros Hx%slice_first_letter; [|lia]. split.
    + destruct (String.eqb (slice_to 3 k) "eta") eqn:He; [|done].
      apply slice_first_letter in He; [|lia]. by rewrite Hx in He.
    + destruct (String.eqb (slice_to 2 k) "s_") eqn:Hs; [|done].
      apply slice_first_letter in Hs; [|lia]. by rewrite Hx in Hs.
  - intros He%slice_first_letter; [|lia].
    destruct (String.eqb (slice_to 2 k) "s_") eqn:Hs; [|done].
    apply slice_first_letter in Hs; [|lia]. by rewrite He in Hs.
Qed.

End Indexer.

(** ** Properties of [build_indexer] *)

(** X1. [build_indexer] raises [ValueError] exactly when an index is given
    for an axis of which the array has no dimension: no name starting with
    "xi" for [xi], with "eta" for [eta], with "s_" for [s], none containing
    "time" for [t].  With no index given it returns the empty dictionary. *)
Theorem build_indexer_raises :
  ∀ (V : Type) (da : DataArray) (xi eta s t : option V),
    ((∃ msg, build_indexer da xi eta s t = ValueError msg) ↔
     (is_Some xi ∧ ∀ d, d ∈ dims da → is_xi d = false) ∨
     (is_Some eta ∧ ∀ d, d ∈ dims da → is_eta d = false) ∨
     (is_Some s ∧ ∀ d, d ∈ dims da → is_s d = false) ∨
     (is_Some t ∧ ∀ d, d ∈ dims da → is_time d = false)) ∧
    build_indexer da (None : option V) None None None = Indexer ∅.
Proof.
  intros V da xi eta s t. split; [|done]. unfold build_indexer.
  destruct (set_item is_xi (dims da) xi ∅) as [m1|msg1] eqn:H1; simpl.
  2: { apply set_item_error in H1 as (Hx & Hall & _). split; eauto. }
  destruct (set_item is_eta (dims da) eta m1) as [m2|msg2] eqn:H2; simpl.
  2: { apply set_item_error in H2 as (Hx & Hall & _). split; eauto. }
  destruct (set_item is_s (dims da) s m2) as [m3|msg3] eqn:H3; simpl.
  2: { apply set_item_error in H3 as (Hx & Hall & _). split; eauto 6. }
  assert (∀ (test : string → bool) (value : option V) m m',
            set_item test (dims da) value m = Indexer m' →
            ¬ (is_Some value ∧ ∀ d, d ∈ dims da → test d = false)) as Hok.
  { intros test value m m' Hset [Hv Hall].
    assert (set_item test (dims da) value m = ValueError "True is not in list")
      as Herr by by apply set_item_error.
    by rewrite Hset in Herr. }
  split.
  - intros [msg (Ht & Hall & _)%set_item_error]. auto 6.
  - intros [Hx|[He|[Hs|[Ht Hall]]]].
    + by destruct (Hok _ _ _ _ H1).
    + by destruct (Hok _ _ _ _ H2).
    + by destruct (Hok _ _ _ _ H3).
    + exists "True is not in list". by apply set_item_error.
Qed.

(** X2. In the dictionary that [build_indexer] returns every key is a
    dimension of the array; the index given for [t] is found under the first
    dimension whose name contains "time", and the index given for [xi],
    [eta] or [s] under the first dimension whose name starts with "xi",
    "eta" or "s_", unless that name contains "time" as well. *)
Theorem build_indexer_entries :
  ∀ (V : Type) (da : DataArray) (xi eta s t : option V) (m : gmap string V),
    build_indexer da xi eta s t = Indexer m →
    (∀ k, k ∈ dom m → k ∈ dims da) ∧
    (∀ v, t = Some v →
       ∃ k, List.find is_time (dims da) = Some k ∧ m !! k = Some v) ∧
    (∀ v, s = Some v →
       ∃ k, List.find is_s (dims da) = Some k ∧
            (is_time k = false → m !! k = Some v)) ∧
    (∀ v, eta = Some v →
       ∃ k, List.find is_eta (dims da) = Some k ∧
            (is_time k = false → m !! k = Some v)) ∧
    (∀ v, xi = Some v →
       ∃ k, List.find is_xi (dims da) = Some k ∧
            (is_time k = false → m !! k = Some v)).
Proof.
  intros V da xi eta s t m. unfold build_indexer.
  destruct (set_item is_xi (dims da) xi ∅) as [m1|] eqn:H1; [simpl|done].
  destruct (set_item is_eta (dims da) eta m1) as [m2|] eqn:H2; [simpl|done].
  destruct (set_item is_s (dims da) s m2) as [m3|] eqn:H3; [simpl|done].
  intros H4.
  apply set_item_inv in H1, H2, H3, H4.
  assert (∀ (test : string → bool) k, List.find test (dims da) = Some k →
            k ∈ dims da ∧ test k = true) as Hfind.
  { intros test k. apply find_elem_of. }
  (* what may sit on a key after the later assignments *)
  assert (∀ k v, m3 !! k = Some v → is_time k = false → m !! k = Some v) as Hm3.
  { intros k v Hk Hnt. destruct t as [vt|]; [|by subst].
    destruct H4 as (kt & Hkt & ->). destruct (Hfind _ _ Hkt) as [_ Ht].
    rewrite lookup_insert_ne; [done|]. intros ->. by rewrite Ht in Hnt. }
  assert (∀ k v, m2 !! k = Some v → is_s k = false → m3 !! k = Some v) as Hm2.
  { intros k v Hk Hns. destruct s as [vs|]; [|by subst].
    destruct H3 as (ks & Hks & ->). destruct (Hfind _ _ Hks) as [_ Hs].
    rewrite lookup_insert_ne; [done|]. intros ->. by rewrite Hs in Hns. }
  assert (∀ k v, m1 !! k = Some v → is_eta k = false → m2 !! k = Some v) as Hm1.
  { intros k v Hk Hne. destruct eta as [ve|]; [|by subst].
    destruct H2 as (ke & Hke & ->). destruct (Hfind _ _ Hke) as [_ He].
    rewrite lookup_insert_ne; [done|]. intros ->. by rewrite He in Hne. }
  split; [|split; [|split; [|split]]].
  - assert (∀ (test : string → bool) (value : option V) (m0 m0' : gmap string V),
              match value with
              | None => m0' = m0
              | Some v => ∃ k, List.find test (dims da) = Some k ∧ m0' = <[k := v]> m0
              end →
              (∀ k, k ∈ dom m0 → k ∈ dims da) → ∀ k, k ∈ dom m0' → k ∈ dims da)
      as Hdom.
    { intros test [v|] m0 m0'; [|by intros ->].
      intros (k0 & Hk0 & ->) Hsub k. rewrite dom_insert, elem_of_union, elem_of_singleton.
      intros [->|Hk]; [by apply (Hfind test)|by apply Hsub]. }
    eapply Hdom; [exact H4|]. eapply Hdom; [exact H3|].
    eapply Hdom; [exact H2|]. eapply Hdom; [exact H1|].
    intros k. by rewrite dom_empty, elem_of_empty.
  - intros v ->. destruct H4 as (k & Hk & ->). exists k.
    by rewrite lookup_insert_eq.
  - intros v ->. destruct H3 as (k & Hk & ->). exists k. split; [done|].
    intros Hnt. apply Hm3; [|done]. by rewrite lookup_insert_eq.
  - intros v ->. destruct H2 as (k & Hk & ->). exists k. split; [done|].
    intros Hnt. destruct (Hfind _ _ Hk) as [_ He].
    apply Hm3; [|done]. apply Hm2; [by rewrite lookup_insert_eq|].
    by apply (proj2 (kinds_apart k)).
  - intros v ->. destruct H1 as (k & Hk & ->). exists k. split; [done|].
    intros Hnt. destruct (Hfind _ _ Hk) as [_ Hx].
    destruct (proj1 (kinds_apart k) Hx) as [He Hs].
    apply Hm3; [|done]. apply Hm2; [|done]. apply Hm1; [|done].
    by rewrite lookup_insert_eq.
Qed.

Lemma build_indexer_entries_witness :
  ∃ k, List.find is_xi (dims u_field) = Some k ∧
       (is_time k = false →
        ({[ "xi_u" := 3%nat; "s_rho" := 0%nat; "ocean_time" := 1%nat ]}
           : gmap string nat) !! k = Some 3%nat).
Proof.
  destruct (build_indexer_entries nat u_field (Some 3%nat) None (Some 0%nat)
              (Some 1%nat)
              {[ "xi_u" := 3%nat; "s_rho" := 0%nat; "ocean_time" := 1%nat ]})
    as (_ & _ & _ & _ & Hxi).
  - by vm_compute.
  - exact (Hxi 3%nat eq_refl).
Defined.

(** ** Further properties of [xisoslice] *)

Section IsosliceShape.
Context {A : Type} `{FloatOps A}.

Lemma short_column_zc (ref : list A) (iso_value : A) :
  (length ref ≤ 1)%nat → column_zc ref iso_value = [].
Proof.
  intros Hlen. unfold column_zc, column_prop, uslice.
  destruct ref as [|x [|y ref]]; [done|done|]. simpl in Hlen. lia.
Qed.

Lemma short_column_result (ref var : list A) (iso_value : A) :
  (length ref ≤ 1)%nat →
  column_result sum_skipna ref iso_value var
  = if f_eqb f_zero f_two
    then halve (linear_fit f_zero f_zero f_zero f_zero)
    else linear_fit f_zero f_zero f_zero f_zero.
Proof.
  intros Hlen. unfold column_result, reduce_lower, reduce_upper.
  rewrite (short_column_zc _ _ Hlen).
  assert (∀ xs : list A, zip_with f_mul xs [] = []) as Hnil
    by by intros [|??].
  by rewrite !Hnil.
Qed.
End IsosliceShape.

(** X3. [xisoslice] works column by column, in any arithmetic: the result
    has one value for each column, the coordinate being collapsed, and the
    value at a column depends on the samples of that column alone.  The
    test [check.sum() > 0], taken over the whole array, lets no other column
    in: changing the other columns does not change the value. *)
Theorem xisoslice_columnwise :
  ∀ (A : Type) (ops : FloatOps A) (iso_array projected_array : list (list A))
    (iso_value : A),
    length iso_array = length projected_array →
    length (xisoslice iso_array iso_value projected_array) = length iso_array ∧
    ∀ (iso_array' projected_array' : list (list A)) (k : nat),
      length iso_array' = length projected_array' →
      iso_array !! k = iso_array' !! k →
      projected_array !! k = projected_array' !! k →
      xisoslice iso_array iso_value projected_array !! k
      = xisoslice iso_array' iso_value projected_array' !! k.
Proof.
  intros A ops iso_array projected_array iso_value Hlen. unfold xisoslice.
  split; [by apply xisoslice_length|].
  intros iso_array' projected_array' k Hlen' Hiso Hproj.
  destruct (iso_array !! k) as [ref|] eqn:Hr.
  - destruct (projected_array !! k) as [var|] eqn:Hv.
    + by rewrite (xisoslice_lookup _ _ _ _ _ _ _ Hr Hv),
        (xisoslice_lookup _ iso_array' projected_array' _ _ ref var).
    + apply lookup_lt_Some in Hr. apply lookup_ge_None in Hv. lia.
  - symmetry in Hiso.
    rewrite !(proj2 (lookup_ge_None _ _)); [done|..].
    + rewrite xisoslice_length by done. by apply lookup_ge_None.
    + rewrite xisoslice_length by done. by apply lookup_ge_None.
Qed.

Lemma xisoslice_columnwise_witness :
  length (xisoslice [[0; 1; 2]; [0; 1; 2]]%float 1%float
            [[3; 4; 5]; [6; 7; 8]]%float) = 2%nat ∧
  ∀ (iso_array' projected_array' : list (list float)) (k : nat),
    length iso_array' = length projected_array' →
    [[0; 1; 2]; [0; 1; 2]]%float !! k = iso_array' !! k →
    [[3; 4; 5]; [6; 7; 8]]%float !! k = projected_array' !! k →
    xisoslice [[0; 1; 2]; [0; 1; 2]]%float 1%float
      [[3; 4; 5]; [6; 7; 8]]%float !! k
    = xisoslice iso_array' 1%float projected_array' !! k.
Proof.
  apply (xisoslice_columnwise float binary64_ops [[0; 1; 2]; [0; 1; 2]]%float
           [[3; 4; 5]; [6; 7; 8]]%float 1%float).
  reflexivity.
Defined.

(** X4. A column with fewer than two samples along the coordinate has no
    slot to select: the result there is not-a-number, in exact and in
    binary64 arithmetic, whatever the samples and the target. *)
Theorem xisoslice_short_column :
  (∀ (iso_array projected_array : list (list xreal)) (iso_value : xreal)
     (k : nat) (ref var : list xreal),
     iso_array !! k = Some ref → projected_array !! k = Some var →
     (length ref ≤ 1)%nat →
     xisoslice iso_array iso_value projected_array !! k = Some NaN) ∧
  (∀ (iso_array projected_array : list (list float)) (iso_value : float)
     (k : nat) (ref var : list float),
     iso_array !! k = Some ref → projected_array !! k = Some var →
     (length ref ≤ 1)%nat →
     f_isnan <$> xisoslice iso_array iso_value projected_array !! k = Some true).
Proof.
  split; intros iso_array projected_array iso_value k ref var Hr Hv Hlen;
    unfold xisoslice;
    rewrite (xisoslice_lookup _ _ _ _ _ _ _ Hr Hv),
      (short_column_result _ _ _ Hlen); by vm_compute.
Qed.

Lemma xisoslice_short_column_witness :
  xisoslice [[int 7]] (int 7) [[int 1]] !! 0%nat = Some NaN.
Proof.
  apply (proj1 xisoslice_short_column [[int 7]] [[int 1]] (int 7) 0%nat
           [int 7] [int 1]); [reflexivity..|simpl; lia].
Defined.

(** X10. Whatever the grid and the arguments, [to_grid] calls
    [grid.interp] at most once along each of X, Y and Z, in that order, at
    the positions that [hcoord] and [scoord] name and always with
    [boundary='extend'], and calls nothing else.  What it returns is its
    argument itself, with the store untouched, when it made no call, and an
    object that did not exist before otherwise.  For valid arguments it makes
    no call exactly when the field already has every dimension asked for. *)
Theorem to_grid_calls :
  ∀ (grid : Grid) (l : loc) (σ : store) (da : DataArray)
    (hcoord scoord : option string) (r : result loc) (σ' : store),
    heap σ !! l = Some da →
    to_grid l grid hcoord scoord σ = (r, σ') →
    calls_run (h_calls hcoord ++ s_calls scoord) l σ r σ' ∧
    (valid_hcoord hcoord → valid_scoord scoord →
     (log σ' = log σ ↔
      ∀ d, d ∈ h_targets hcoord ++ s_targets scoord → d ∈ dims da)).
Proof.
  intros grid l σ da hcoord scoord r σ' Hl Hrun. split.
  - by apply (to_grid_calls_run grid hcoord scoord l σ da).
  - intros Hvh Hvs. by apply (to_grid_silent grid hcoord scoord l σ da r σ').
Qed.

Lemma to_grid_calls_witness :
  log (run_store (to_grid 0%nat sample_grid (Some "rho") (Some "w"))
         (store_of u_field))
  = [CInterp X center extend; CInterp Z outer extend] ∧
  calls_run (h_calls (Some "rho") ++ s_calls (Some "w")) 0%nat
    (store_of u_field)
    (run_result (to_grid 0%nat sample_grid (Some "rho") (Some "w"))
       (store_of u_field))
    (run_store (to_grid 0%nat sample_grid (Some "rho") (Some "w"))
       (store_of u_field)).
Proof.
  split; [by vm_compute|].
  apply (to_grid_calls sample_grid 0%nat (store_of u_field) u_field
           (Some "rho") (Some "w")); [reflexivity|].
  unfold run_result, run_store.
  by destruct (to_grid 0%nat sample_grid (Some "rho") (Some "w")
                 (store_of u_field)).
Defined.

(** X11. Each of [to_rho], [to_psi], [to_u], [to_v], [to_s_rho] and
    [to_s_w] calls [grid.interp] only along its own axes, at its own
    positions and with the [boundary] it was given; it returns its argument
    itself when it made no call and a new object otherwise.  The two-axis
    converters make no call exactly when both dimensions they test for are
    there. *)
Theorem converters_calls :
  ∀ (grid : Grid) (l : loc) (σ : store) (da : DataArray) (b : option string)
    (r : result loc) (σ' : store),
    heap σ !! l = Some da →
    (to_rho l grid b σ = (r, σ') →
     calls_run [CInterp X center b; CInterp Y center b] l σ r σ' ∧
     (log σ' = log σ ↔ "xi_rho" ∈ dims da ∧ "eta_rho" ∈ dims da)) ∧
    (to_psi l grid b σ = (r, σ') →
     calls_run [CInterp X inner b; CInterp Y inner b] l σ r σ' ∧
     (log σ' = log σ ↔ "xi_u" ∈ dims da ∧ "eta_v" ∈ dims da)) ∧
    (to_u l grid b σ = (r, σ') →
     calls_run [CInterp X inner b; CInterp Y center b] l σ r σ' ∧
     (log σ' = log σ ↔ "xi_u" ∈ dims da ∧ "eta_rho" ∈ dims da)) ∧
    (to_v l grid b σ = (r, σ') →
     calls_run [CInterp X center b; CInterp Y inner b] l σ r σ' ∧
     (log σ' = log σ ↔ "xi_rho" ∈ dims da ∧ "eta_v" ∈ dims da)) ∧
    (to_s_rho l grid b σ = (r, σ') →
     calls_run [CInterp Z center b] l σ r σ' ∧
     (log σ' = log σ ↔ "s_rho" ∈ dims da)) ∧
    (to_s_w l grid b σ = (r, σ') →
     calls_run [CInterp Z outer b] l σ r σ' ∧
     (log σ' = log σ ↔ "s_w" ∈ dims da)).
Proof.
  intros grid l σ da b r σ' Hl.
  pose proof (mk_is_Some _ _ Hl) as Hs.
  split; [|split; [|split; [|split; [|split]]]]; intros Hrun; split;
    first [ exact (two_step_calls grid _ _ _ _ _ _ _ _ _ Hs Hrun)
          | exact (one_step_calls grid _ _ _ _ _ _ _ Hs Hrun)
          | exact (two_step_silent grid _ _ _ _ _ _ _ _ _ _ Hl Hrun)
          | exact (one_step_silent grid _ _ _ _ _ _ _ _ Hl Hrun) ].
Qed.

Lemma converters_calls_witness :
  calls_run [CInterp X inner None; CInterp Y inner None] 0%nat
    (store_of u_field)
    (run_result (to_psi 0%nat sample_grid None) (store_of u_field))
    (run_store (to_psi 0%nat sample_grid None) (store_of u_field)) ∧
  (log (run_store (to_psi 0%nat sample_grid None) (store_of u_field))
   = log (store_of u_field) ↔
   "xi_u" ∈ dims u_field ∧ "eta_v" ∈ dims u_field).
Proof.
  destruct (converters_calls sample_grid 0%nat (store_of u_field) u_field None
              (run_result (to_psi 0%nat sample_grid None) (store_of u_field))
              (run_store (to_psi 0%nat sample_grid None) (store_of u_field))
              eq_refl) as (_ & Hpsi & _).
  apply Hpsi. unfold run_result, run_store.
  by destruct (to_psi 0%nat sample_grid None (store_of u_field)).
Defined.

(** ** The calls and the failures of the derivatives *)

Section DerivativeCalls.
Variable grid : Grid.
Implicit Types (σ : store) (l : loc) (da : DataArray) (r : result loc).

Lemma grid_derivative_inv l ax b fill σ da r σ' :
  heap σ !! l = Some da →
  grid_derivative grid l ax b fill σ = (r, σ') →
  (∃ e, derivative grid da ax b fill = Raise e ∧ r = Raise e ∧
        σ' = mkStore (heap σ) (log σ ++ [CDerivative ax b fill])) ∨
  (∃ da', derivative grid da ax b fill = Ok da' ∧
          r = Ok (fresh (dom (heap σ))) ∧
          σ' = mkStore (<[fresh (dom (heap σ)) := da']> (heap σ))
                 (log σ ++ [CDerivative ax b fill])).
Proof.
  intros Hl. unfold grid_derivative.
  rewrite (bind_ok _ _ _ _ _ (load_ok _ _ _ Hl)).
  unfold bind, record, lift, alloc. simpl.
  destruct (derivative grid da ax b fill) as [da'|e]; intros ?; simplify_eq.
  - right. by exists da'.
  - left. by exists e.
Qed.

(** What [to_grid] returns carries the name of what it was given. *)
Lemma to_grid_name hcoord scoord l σ da l' σ' :
  heap σ !! l = Some da →
  to_grid l grid hcoord scoord σ = (Ok l', σ') →
  ∃ da', heap σ' !! l' = Some da' ∧ name da' = name da.
Proof.
  intros Hl. unfold to_grid.
  rewrite (bind_ok _ _ _ _ _ (load_ok _ _ _ Hl)).
  intros [(l1 & σ1 & H1 & Hrun)|(e & _ & ?)]%bind_inv; [|done].
  apply bind_inv in Hrun as [(l2 & σ2 & H2 & Hrun)|(e & _ & ?)]; [|done].
  unfold set_name, modify, bind, ret in Hrun.
  destruct (heap σ2 !! l2) as [da2|]; [|done]. simplify_eq.
  exists (with_name (name da) da2). split; [|done].
  simpl. by rewrite lookup_insert_eq.
Qed.

(** After the attributes are settled: the derivative, the regridding and
    the assignment of [attrs]. *)
Lemma ddz_tail (a : gmap string string) (hcoord scoord sb : option string)
    (sf : xreal) l σ da r σ' :
  heap σ !! l = Some da →
  (let* var := grid_derivative grid l Z sb sf in
   let* var := to_grid var grid hcoord scoord in
   set_attrs var a ;;; ret var) σ = (r, σ') →
  (∃ cs, log σ' = log σ ++ CDerivative Z sb sf :: cs ∧
         sublist cs (h_calls hcoord ++ s_calls scoord)) ∧
  (∀ l', r = Ok l' →
     ∃ d' da', derivative grid da Z sb sf = Ok d' ∧
               heap σ' !! l' = Some da' ∧ name da' = name d').
Proof.
  intros Hl Hrun.
  apply bind_inv in Hrun as [(l1 & σ1 & H1 & Hrun)|(e & H1 & ->)].
  2: { destruct (grid_derivative_inv _ _ _ _ _ _ _ _ Hl H1)
         as [(e' & He & ? & ->)|(da' & _ & ? & _)]; [|done].
       split; [|done]. exists []. split; [done|apply sublist_nil_l]. }
  destruct (grid_derivative_inv _ _ _ _ _ _ _ _ Hl H1)
    as [(e' & _ & ? & _)|(d' & Hd' & ? & ->)]; [done|]. simplify_eq.
  set (σ1 := mkStore _ _) in *.
  assert (heap σ1 !! fresh (dom (heap σ)) = Some d') as Hl1
    by apply lookup_insert_eq.
  apply bind_inv in Hrun as [(l2 & σ2 & H2 & Hrun)|(e & H2 & ->)].
  2: { split; [|done].
       destruct (to_grid_calls_run grid _ _ _ _ _ _ _ Hl1 H2)
         as (_ & cs & Hlog & Hsub & _).
       exists cs. split; [|done]. rewrite Hlog. simpl. by rewrite <- app_assoc. }
  destruct (to_grid_calls_run grid _ _ _ _ _ _ _ Hl1 H2)
    as (_ & cs & Hlog & Hsub & _).
  destruct (to_grid_name _ _ _ _ _ _ _ Hl1 H2) as (da2 & Hl2 & Hname).
  unfold set_attrs in Hrun.
  rewrite (bind_ok _ _ _ _ _ (modify_ok _ _ _ _ Hl2)) in Hrun.
  unfold ret in Hrun. simplify_eq. split.
  - exists cs. split; [|done]. simpl. rewrite Hlog. simpl.
    by rewrite <- app_assoc.
  - intros l' [= <-]. exists d', (with_attrs a da2).
    split; [done|]. split; [|done]. simpl. by rewrite lookup_insert_eq.
Qed.

Lemma ddz_tail_invalid (a : gmap string string) (h : string)
    (scoord sb : option string) (sf : xreal) l σ da :
  heap σ !! l = Some da → h ∉ hcoords →
  (let* var := grid_derivative grid l Z sb sf in
   let* var := to_grid var grid (Some h) scoord in
   set_attrs var a ;;; ret var) σ
  = match derivative grid da Z sb sf with
    | Ok d' =>
        (Raise (AssertionError (hcoord_message h)),
         mkStore (<[fresh (dom (heap σ)) := d']> (heap σ))
           (log σ ++ [CDerivative Z sb sf]))
    | Raise e => (Raise e, mkStore (heap σ) (log σ ++ [CDerivative Z sb sf]))
    end.
Proof.
  intros Hl Hh.
  destruct (grid_derivative grid l Z sb sf σ) as [r1 σ1] eqn:H1.
  destruct (grid_derivative_inv _ _ _ _ _ _ _ _ Hl H1)
    as [(e & -> & -> & ->)|(d' & -> & -> & ->)].
  - by rewrite (bind_raise _ _ _ _ _ H1).
  - rewrite (bind_ok _ _ _ _ _ H1).
    set (σ1 := mkStore (<[_ := d']> _) _).
    assert (heap σ1 !! fresh (dom (heap σ)) = Some d') as Hl1
      by apply lookup_insert_eq.
    assert (to_grid (fresh (dom (heap σ))) grid (Some h) scoord σ1
            = (Raise (AssertionError (hcoord_message h)), σ1)) as H2.
    { unfold to_grid.
      rewrite (bind_ok _ _ _ _ _ (load_ok _ _ _ Hl1)).
      by rewrite (bind_raise _ _ _ _ _ (to_grid_h_invalid grid _ _ _ Hh)). }
    by rewrite (bind_raise _ _ _ _ _ H2).
Qed.
End DerivativeCalls.

(** X12. [ddz] calls [grid.derivative] once, along Z, with the [sboundary]
    and [sfill_value] it was given, before any other call on the grid; the
    regridding that follows calls [grid.interp] with [boundary='extend']
    whatever [sboundary] is.  The one run without any call on the grid is the
    one where the default attributes cannot be built because the field has
    no name.  The array returned carries the name of what [grid.derivative]
    returned: the name built for the derivative is in [attrs] only. *)
Theorem ddz_calls :
  ∀ (grid : Grid) (l : loc) (σ : store) (da : DataArray)
    (given : option (gmap string string))
    (hcoord scoord sboundary : option string) (sfill_value : xreal)
    (r : result loc) (σ' : store),
    heap σ !! l = Some da →
    ddz l grid given hcoord scoord sboundary sfill_value σ = (r, σ') →
    ((given = None ∧ name da = None ∧ log σ' = log σ ∧
      r = Raise (TypeError concat_none_message)) ∨
     (∃ cs, log σ' = log σ ++ CDerivative Z sboundary sfill_value :: cs ∧
            sublist cs (h_calls hcoord ++ s_calls scoord))) ∧
    (∀ l', r = Ok l' →
       ∃ d' da',
         derivative grid
           (match given with
            | Some _ => da
            | None => with_attrs (documented (attrs da)) da
            end) Z sboundary sfill_value = Ok d' ∧
         heap σ' !! l' = Some da' ∧ name da' = name d').
Proof.
  intros grid l σ da given hcoord scoord sb sf r σ' Hl. unfold ddz.
  destruct given as [a|].
  - rewrite (bind_ok _ _ _ _ _ (eq_refl : ret a σ = (Ok a, σ))).
    intros [Hcalls Hres]%(ddz_tail grid _ _ _ _ _ _ _ _ _ _ Hl).
    split; [by right|done].
  - pose proof (default_attrs_run l "dz" "vertical derivative of " σ da Hl)
      as Hdef.
    set (σ0 := mkStore _ _) in Hdef.
    assert (heap σ0 !! l = Some (with_attrs (documented (attrs da)) da))
      as Hl0 by apply lookup_insert_eq.
    destruct (name da) as [n|].
    + rewrite (bind_ok _ _ _ _ _ Hdef).
      intros [Hcalls Hres]%(ddz_tail grid _ _ _ _ _ _ _ _ _ _ Hl0).
      split; [by right|done].
    + rewrite (bind_raise _ _ _ _ _ Hdef). intros [= <- <-].
      split; [by left|done].
Qed.

Lemma ddz_calls_witness :
  log (run_store (ddz 0%nat sample_grid None (Some "rho") None None NaN)
         (store_of u_field))
  = [CDerivative Z None NaN; CInterp X center extend] ∧
  ∀ l', run_result (ddz 0%nat sample_grid None (Some "rho") None None NaN)
          (store_of u_field) = Ok l' →
    ∃ d' da',
      sample_derivative (with_attrs (documented (attrs u_field)) u_field)
        Z None NaN = Ok d' ∧
      heap (run_store (ddz 0%nat sample_grid None (Some "rho") None None NaN)
              (store_of u_field)) !! l' = Some da' ∧
      name da' = name d'.
Proof.
  split; [by vm_compute|].
  apply (ddz_calls sample_grid 0%nat (store_of u_field) u_field None
           (Some "rho") None None NaN); [reflexivity|].
  unfold run_result, run_store.
  by destruct (ddz 0%nat sample_grid None (Some "rho") None None NaN
                 (store_of u_field)).
Defined.

(** X13. [ddz] checks [hcoord] only after the derivative.  With an
    [hcoord] outside rho, psi, u, v, and attributes that are given or can be
    built, the call of [grid.derivative] has been made and logged, its
    result exists as a new object and the default attributes have been
    written into the argument by the time the assertion error is raised; if
    [grid.derivative] raises, that exception is the outcome and the
    argument check is never reached. *)
Theorem ddz_validates_late :
  ∀ (grid : Grid) (l : loc) (σ : store) (da : DataArray)
    (given : option (gmap string string)) (h : string)
    (scoord sboundary : option string) (sfill_value : xreal),
    heap σ !! l = Some da → h ∉ hcoords →
    (given = None → is_Some (name da)) →
    let da1 := match given with
               | Some _ => da
               | None => with_attrs (documented (attrs da)) da
               end in
    ddz l grid given (Some h) scoord sboundary sfill_value σ
    = match derivative grid da1 Z sboundary sfill_value with
      | Ok d' =>
          (Raise (AssertionError (hcoord_message h)),
           mkStore (<[fresh (dom (heap σ)) := d']> (<[l := da1]> (heap σ)))
             (log σ ++ [CDerivative Z sboundary sfill_value]))
      | Raise e =>
          (Raise e,
           mkStore (<[l := da1]> (heap σ))
             (log σ ++ [CDerivative Z sboundary sfill_value]))
      end.
Proof.
  intros grid l σ da given h scoord sb sf Hl Hh Hnamed da1. unfold ddz.
  destruct given as [a|].
  - rewrite (bind_ok _ _ _ _ _ (eq_refl : ret a σ = (Ok a, σ))).
    rewrite (ddz_tail_invalid grid a h scoord sb sf l σ da Hl Hh).
    subst da1. by rewrite (insert_id _ _ _ Hl).
  - pose proof (default_attrs_run l "dz" "vertical derivative of " σ da Hl)
      as Hdef.
    set (σ0 := mkStore _ _) in Hdef.
    assert (heap σ0 !! l = Some da1) as Hl0 by apply lookup_insert_eq.
    destruct (Hnamed eq_refl) as [n Hn]. rewrite Hn in Hdef.
    rewrite (bind_ok _ _ _ _ _ Hdef).
    rewrite (ddz_tail_invalid grid _ h scoord sb sf l σ0 da1 Hl0 Hh).
    assert (dom (heap σ0) = dom (heap σ)) as ->; [|done].
    simpl. rewrite dom_insert_L.
    apply subseteq_union_1_L, singleton_subseteq_l. by apply elem_of_dom_2 in Hl.
Qed.

Lemma ddz_validates_late_witness :
  run_result (ddz 0%nat sample_grid None (Some "bad") None None NaN)
    (store_of bare_field)
  = Raise (AssertionError (hcoord_message "bad")) ∧
  log (run_store (ddz 0%nat sample_grid None (Some "bad") None None NaN)
         (store_of bare_field))
  = [CDerivative Z None NaN].
Proof.
  assert ("bad" ∉ hcoords) as Hbad
    by (apply (bool_decide_unpack _); by vm_compute).
  unfold run_result, run_store.
  rewrite (ddz_validates_late sample_grid 0%nat (store_of bare_field)
             bare_field None "bad" None None NaN eq_refl Hbad
             (λ _, mk_is_Some _ _ eq_refl)).
  by vm_compute.
Defined.

(** X14. [ddxi] and [ddeta] give their result the attributes passed in,
    or else the name [d<name>dxi] / [d<name>deta], the long name prefixed
    with the kind of derivative and the units prefixed with [1/m * ], the
    missing ones read as [var] and [units]; this holds for any gradient
    that returns a new object.  On a field without a name and without
    [attrs] they raise the [TypeError] of the concatenation before the
    gradient is called at all: whatever it would have done, the store then
    differs only by the three defaults written into the argument. *)
Theorem ddxi_ddeta_attrs :
  (∀ (hgrad : HGrad) (grid : Grid) (l : loc) (σ : store) (da : DataArray)
     (given : option (gmap string string))
     (hcoord scoord hboundary sboundary : option string)
     (hfill_value sfill_value : xreal) (z : option loc)
     (l' : loc) (σ' : store),
     returns_new hgrad → heap σ !! l = Some da →
     (ddxi hgrad l grid given hcoord scoord hboundary hfill_value sboundary
        sfill_value z σ = (Ok l', σ') →
      ∃ da', heap σ' !! l' = Some da' ∧
        match given with
        | Some a => attrs da' = a
        | None =>
            ∃ n, name da = Some n ∧
                 attrs da' = {[ "name" := "d" +:+ n +:+ "dxi";
                                "long_name" := "horizontal xi derivative of "
                                  +:+ default "var" (attrs da !! "long_name");
                                "units" := "1/m * "
                                  +:+ default "units" (attrs da !! "units") ]}
        end) ∧
     (ddeta hgrad l grid given hcoord scoord hboundary hfill_value sboundary
        sfill_value z σ = (Ok l', σ') →
      ∃ da', heap σ' !! l' = Some da' ∧
        match given with
        | Some a => attrs da' = a
        | None =>
            ∃ n, name da = Some n ∧
                 attrs da' = {[ "name" := "d" +:+ n +:+ "deta";
                                "long_name" := "horizontal eta derivative of "
                                  +:+ default "var" (attrs da !! "long_name");
                                "units" := "1/m * "
                                  +:+ default "units" (attrs da !! "units") ]}
        end)) ∧
  (∀ (hgrad : HGrad) (grid : Grid) (l : loc) (σ : store) (da : DataArray)
     (hcoord scoord hboundary sboundary : option string)
     (hfill_value sfill_value : xreal) (z : option loc),
     heap σ !! l = Some da → name da = None →
     ddxi hgrad l grid None hcoord scoord hboundary hfill_value sboundary
       sfill_value z σ
     = (Raise (TypeError concat_none_message),
        mkStore (<[l := with_attrs (documented (attrs da)) da]> (heap σ))
          (log σ)) ∧
     ddeta hgrad l grid None hcoord scoord hboundary hfill_value sboundary
       sfill_value z σ
     = (Raise (TypeError concat_none_message),
        mkStore (<[l := with_attrs (documented (attrs da)) da]> (heap σ))
          (log σ))).
Proof.
  split.
  - intros hgrad grid l σ da given hcoord scoord hb sb hf sf z l' σ' Hnew Hl.
    split; intros Hrun.
    + eapply (derivative_run grid _ "dxi" "horizontal xi derivative of ");
        [done| |done|done].
      intros σ0 r1 σ1 Hh. exact (Hnew _ _ _ _ _ _ _ _ _ _ _ Hh).
    + eapply (derivative_run grid _ "deta" "horizontal eta derivative of ");
        [done| |done|done].
      intros σ0 r1 σ1 Hh. exact (Hnew _ _ _ _ _ _ _ _ _ _ _ Hh).
  - intros hgrad grid l σ da hcoord scoord hb sb hf sf z Hl Hn.
    unfold ddxi, ddeta. split.
    + pose proof (default_attrs_run l "dxi" "horizontal xi derivative of "
                    σ da Hl) as Hdef.
      rewrite Hn in Hdef. by rewrite (bind_raise _ _ _ _ _ Hdef).
    + pose proof (default_attrs_run l "deta" "horizontal eta derivative of "
                    σ da Hl) as Hdef.
      rewrite Hn in Hdef. by rewrite (bind_raise _ _ _ _ _ Hdef).
Qed.

Lemma ddxi_ddeta_attrs_witness :
  ∃ da',
    heap (run_store (ddxi sample_hgrad 0%nat sample_grid None None None
                       extend NaN extend NaN None) (store_of u_field))
      !! 1%nat = Some da' ∧
    ∃ n, name u_field = Some n ∧
         attrs da' = {[ "name" := "d" +:+ n +:+ "dxi";
                        "long_name" := "horizontal xi derivative of "
                          +:+ default "var" (attrs u_field !! "long_name");
                        "units" := "1/m * "
                          +:+ default "units" (attrs u_field !! "units") ]}.
Proof.
  apply (proj1 (proj1 ddxi_ddeta_attrs sample_hgrad sample_grid 0%nat
                  (store_of u_field) u_field None None None extend extend NaN NaN
                  None 1%nat _ sample_hgrad_returns_new eq_refl)).
  by vm_compute.
Defined.

Section IdGridFrame.
Implicit Types (ds : list string) (d : string).

Lemma count_Permutation ds ds' d : ds ≡ₚ ds' → count ds d = count ds' d.
Proof.
  intros Hp. unfold count.
  induction Hp as [|x l1 l2 _ IH|x y l0|l1 l2 l3 _ IH1 _ IH2]; simpl.
  - done.
  - by rewrite IH.
  - by destruct (String.string_dec x d), (String.string_dec y d).
  - by rewrite IH1.
Qed.

Lemma count_filter_keep (keep : string → bool) ds d :
  keep d = true → count (List.filter keep ds) d = count ds d.
Proof.
  intros Hk. unfold count. induction ds as [|x ds IH]; [done|]. simpl.
  destruct (keep x) eqn:Ex; simpl; destruct (String.string_dec x d) as [->|];
    try by rewrite IH.
  congruence.
Qed.
End IdGridFrame.

(** X15. [id_grid] reads nothing but how often each of the ten horizontal
    dimension names occurs: two fields that agree on those counts get the
    same answer.  So the order of the dimensions does not matter, nor do the
    name, the attributes and the values, nor any dimension that is not one
    of the ten, such as time or the vertical one. *)
Theorem id_grid_frame :
  (∀ da da' : DataArray,
     (∀ d, d ∈ xi_names ++ eta_names →
           count (dims da) d = count (dims da') d) →
     id_grid da = id_grid da') ∧
  (∀ da da' : DataArray, dims da ≡ₚ dims da' → id_grid da = id_grid da') ∧
  (∀ da da' : DataArray,
     dims da'
     = List.filter (λ d, bool_decide (d ∈ xi_names ++ eta_names)) (dims da) →
     id_grid da' = id_grid da).
Proof.
  assert (∀ da da' : DataArray,
            (∀ d, d ∈ xi_names ++ eta_names →
                  count (dims da) d = count (dims da') d) →
            id_grid da = id_grid da') as Hframe.
  { intros da da' Hc. unfold id_grid.
    rewrite !(Hc "eta_rho"), !(Hc "xi_rho"), !(Hc "xi_u"), !(Hc "eta_u"),
      !(Hc "eta_v"), !(Hc "xi_v"), !(Hc "eta_psi"), !(Hc "xi_psi"),
      !(Hc "eta_vert"), !(Hc "xi_vert");
      first [done | apply (bool_decide_unpack _); by vm_compute]. }
  split; [done|]. split.
  - intros da da' Hp. apply Hframe. intros d _. by apply count_Permutation.
  - intros da da' Hd. apply Hframe. intros d Hin. rewrite Hd.
    apply count_filter_keep. by apply bool_decide_eq_true_2.
Qed.

Lemma id_grid_frame_witness :
  id_grid u_field
  = id_grid {| name := None; dims := ["xi_u"; "eta_rho"]; attrs := ∅;
               values := [] |}.
Proof.
  apply (proj1 id_grid_frame). intros d Hd.
  repeat (apply elem_of_cons in Hd as [->|Hd]; [reflexivity|]).
  by apply elem_of_nil in Hd.
Defined.
